(** * treetex: rendering an append-only Merkle tree as a Forest document

    A shallow embedding of [docs/merkletree/treetex/main.go] and the
    properties of its rendering pass, style resolution, proof marking and
    range handling.

    Conventions of the embedding:
    - [uint64] and [uint] values are integers of [Z] kept in [0, 2^64);
      every operation that can leave that interval in Go is wrapped by
      [u64] (the platform is taken to be a 64-bit one, so [uint] and [int]
      are 64 bits wide);
    - the process-wide table [nInfo] is a [gmap] read with the total lookup
      [!!!], whose default is the zero [nodeInfo], as Go's map read is;
    - what the program prints is a list of [Emit] values, one per call of
      [fmt.Printf]/[fmt.Print]; a run-time panic and [log.Fatalf] are
      outcomes of their own. *)

From Stdlib Require Import Ascii Sorted FunctionalExtensionality.
From stdpp Require Import gmap strings list fin_maps pretty.

Open Scope string_scope.
Open Scope list_scope.
Open Scope Z_scope.

(** ** Machine integers *)

Definition u64 (z : Z) : Z := z mod 2 ^ 64.

(** Conversion of a 64-bit pattern to the signed [int]. *)
Definition int64 (z : Z) : Z := (z + 2 ^ 63) mod 2 ^ 64 - 2 ^ 63.

(** [x << s] on [uint64]; Go gives 0 for a shift count of 64 or more. *)
Definition shl64 (x s : Z) : Z := if s <? 64 then u64 (Z.shiftl x s) else 0.

(** [x >> s] on [uint64]. *)
Definition shr64 (x s : Z) : Z := if s <? 64 then Z.shiftr x s else 0.

Module bits.
(** [bits.Len64]: the number of bits needed to write [x]; 0 for 0. *)
Definition Len64 (x : Z) : Z := if x =? 0 then 0 else Z.log2 x + 1.

(** [bits.TrailingZeros64]: 64 for 0. *)
Definition TrailingZeros64 (x : Z) : Z :=
  if x =? 0 then 64 else Z.log2 (Z.land x (- x)).
End bits.

(** ** Package [compact] (node addressing and range decomposition) *)

Module compact.

(** Modelled from the spec: the package
    [github.com/transparency-dev/merkle/compact] is imported by [main.go]
    and its source is not part of the repository.  Section 3 of the
    specification gives [NodeID] as [{level, index}] with level 0 the
    leaves, and [parent], [sibling] and [coverage] as its derived
    operations; the definitions below are the package's. *)
Record NodeID : Set := NewNodeID { Level : Z; Index : Z }.

Definition Parent (id : NodeID) : NodeID :=
  NewNodeID (u64 (Level id + 1)) (shr64 (Index id) 1).

Definition Sibling (id : NodeID) : NodeID :=
  NewNodeID (Level id) (Z.lxor (Index id) 1).

(** The half-open range of leaves below the node. *)
Definition Coverage (id : NodeID) : Z * Z :=
  (shl64 (Index id) (Level id), shl64 (u64 (Index id + 1)) (Level id)).

(** Modelled from the spec: [compact.Decompose], of the same imported
    package; it splits [[begin, end)] into a minimal number of perfect
    ranges, given as two bit masks. *)
Definition Decompose (begin end_ : Z) : Z * Z :=
  if begin =? 0 then (0, end_)
  else
    let xbegin := begin - 1 in
    let d := bits.Len64 (Z.lxor xbegin end_) - 1 in
    let mask := u64 (shl64 1 (u64 d) - 1) in
    (Z.land (u64 (Z.lnot xbegin)) mask, Z.land end_ mask).

(** The loop over the left border, from lower to upper levels. *)
Fixpoint leftNodes (fuel : nat) (pos lmask : Z) (ids : list NodeID)
  : Z * list NodeID :=
  match fuel with
  | O => (pos, ids)
  | S fuel' =>
      if lmask =? 0 then (pos, ids)
      else
        let level := bits.TrailingZeros64 lmask in
        let bit := shl64 1 level in
        leftNodes fuel' (u64 (pos + bit)) (Z.lxor lmask bit)
          (ids ++ [NewNodeID level (shr64 pos level)])
  end.

(** The loop over the right border, from upper to lower levels. *)
Fixpoint rightNodes (fuel : nat) (pos rmask : Z) (ids : list NodeID)
  : list NodeID :=
  match fuel with
  | O => ids
  | S fuel' =>
      if rmask =? 0 then ids
      else
        let level := u64 (bits.Len64 rmask - 1) in
        let bit := shl64 1 level in
        rightNodes fuel' (u64 (pos + bit)) (Z.lxor rmask bit)
          (ids ++ [NewNodeID level (shr64 pos level)])
  end.

(** Modelled from the spec: [compact.RangeNodes], of the same imported
    package, the decomposition primitive of section 6
    ([rootsCovering]): it appends to [ids] the roots of the perfect
    subtrees that cover [[begin, end)], left to right.  Each loop clears
    one bit of a 64-bit mask per iteration, hence the 64 rounds. *)
Definition RangeNodes (begin end_ : Z) (ids : list NodeID) : list NodeID :=
  let '(lmask, rmask) := Decompose begin end_ in
  let '(pos, ids) := leftNodes 64 begin lmask ids in
  rightNodes 64 pos rmask ids.

End compact.

Import compact.

Global Instance NodeID_eq_dec : EqDecision NodeID.
Proof. solve_decision. Defined.

Global Instance NodeID_countable : Countable NodeID :=
  inj_countable' (λ id, (Level id, Index id)) (λ p, NewNodeID p.1 p.2)
    (λ id, match id with NewNodeID _ _ => eq_refl end).

(** ** Package [proof] (inclusion proof addresses) *)

Module proof.

(** Modelled from the spec: the type [proof.Nodes] of the imported package
    [github.com/transparency-dev/merkle/proof], absent from the sources.
    Section 6 of the specification gives the result of the proof primitive
    as the sibling list with an ephemeral span [[begin, end)] into it. *)
Record Nodes : Set := mkNodes {
  IDs : list NodeID;
  begin : Z;
  end_ : Z;
  ephem : NodeID
}.

Definition Ephem (n : Nodes) : NodeID * Z * Z := (ephem n, begin n, end_ n).

Definition skipFirst (n : Nodes) : Nodes :=
  if begin n <? end_ n
  then mkNodes (tail (IDs n)) (begin n - 1) (end_ n - 1) (ephem n)
  else mkNodes (tail (IDs n)) (begin n) (end_ n) (ephem n).

(** The siblings along the path from [node] up to level [forkLevel]. *)
Fixpoint siblings (fuel : nat) (node : NodeID) (forkLevel : Z)
    (acc : list NodeID) : list NodeID :=
  match fuel with
  | O => acc
  | S fuel' =>
      if Level node <? forkLevel
      then siblings fuel' (Parent node) forkLevel (acc ++ [Sibling node])
      else acc
  end.

Definition nodes (index level size : Z) : Nodes :=
  let inner := bits.Len64 (Z.lxor index (shr64 size level)) - 1 in
  let fork := NewNodeID (u64 (level + u64 inner)) (shr64 index (u64 inner)) in
  let '(b, e) := Coverage fork in
  let node := NewNodeID level index in
  let ns := siblings 65 node (Level fork) [node] in
  let len1 := Z.of_nat (length ns) in
  let ns := ns ++ rev (RangeNodes e size []) in
  let len2 := Z.of_nat (length ns) in
  let ns := ns ++ rev (RangeNodes 0 b []) in
  if len2 <=? len1
  then mkNodes ns 0 0 (Sibling fork)
  else mkNodes ns len1 len2 (Sibling fork).

(** Modelled from the spec: [proof.Inclusion], of the same imported
    package, the proof primitive of section 6: the addresses of the
    siblings from the leaf to the root, or an error ([None]) when
    [index >= size]. *)
Definition Inclusion (index size : Z) : option Nodes :=
  if size <=? index then None else Some (skipFirst (nodes index 0 size)).

End proof.

(** ** Node styles *)

(** nodeInfo represents the style to be applied to a tree node. *)
Record nodeInfo : Set := mkNodeInfo {
  proof : bool;
  incPath : bool;
  target : bool;
  perfectRoot : bool;
  ephemeral : bool;
  leaf : bool;
  dataRangeIndices : list Z;
  rangeIndices : list Z
}.

(** The zero value of the struct, which a read of an absent key returns. *)
Definition zeroInfo : nodeInfo :=
  mkNodeInfo false false false false false false [] [].

Global Instance nodeInfo_inhabited : Inhabited nodeInfo := populate zeroInfo.

Global Instance nodeInfo_eq_dec : EqDecision nodeInfo.
Proof. solve_decision. Defined.

(** Field assignments [n.f = v]. *)
Definition set_proof (v : bool) (n : nodeInfo) : nodeInfo :=
  mkNodeInfo v (incPath n) (target n) (perfectRoot n) (ephemeral n) (leaf n)
    (dataRangeIndices n) (rangeIndices n).
Definition set_incPath (v : bool) (n : nodeInfo) : nodeInfo :=
  mkNodeInfo (proof n) v (target n) (perfectRoot n) (ephemeral n) (leaf n)
    (dataRangeIndices n) (rangeIndices n).
Definition set_target (v : bool) (n : nodeInfo) : nodeInfo :=
  mkNodeInfo (proof n) (incPath n) v (perfectRoot n) (ephemeral n) (leaf n)
    (dataRangeIndices n) (rangeIndices n).
Definition set_perfectRoot (v : bool) (n : nodeInfo) : nodeInfo :=
  mkNodeInfo (proof n) (incPath n) (target n) v (ephemeral n) (leaf n)
    (dataRangeIndices n) (rangeIndices n).
Definition set_ephemeral (v : bool) (n : nodeInfo) : nodeInfo :=
  mkNodeInfo (proof n) (incPath n) (target n) (perfectRoot n) v (leaf n)
    (dataRangeIndices n) (rangeIndices n).
Definition set_leaf (v : bool) (n : nodeInfo) : nodeInfo :=
  mkNodeInfo (proof n) (incPath n) (target n) (perfectRoot n) (ephemeral n) v
    (dataRangeIndices n) (rangeIndices n).
Definition set_dataRangeIndices (v : list Z) (n : nodeInfo) : nodeInfo :=
  mkNodeInfo (proof n) (incPath n) (target n) (perfectRoot n) (ephemeral n)
    (leaf n) v (rangeIndices n).
Definition set_rangeIndices (v : list Z) (n : nodeInfo) : nodeInfo :=
  mkNodeInfo (proof n) (incPath n) (target n) (perfectRoot n) (ephemeral n)
    (leaf n) (dataRangeIndices n) v.

(** [strings.Join]. *)
Fixpoint Join (elems : list string) (sep : string) : string :=
  match elems with
  | [] => ""
  | [e] => e
  | e :: rest => e +:+ sep +:+ Join rest sep
  end.

(** [strings.Split] for a separator of one byte, as both calls have. *)
Fixpoint Split (s : string) (sep : ascii) : list string :=
  match s with
  | EmptyString => [EmptyString]
  | String c s' =>
      if decide (c = sep) then EmptyString :: Split s' sep
      else match Split s' sep with
           | x :: xs => String c x :: xs
           | [] => [String c EmptyString]
           end
  end.

Section Style.

(** The flags [--attr_perfect_root] and [--attr_ephemeral_node]. *)
Variables attrPerfectRoot attrEphemeralNode : string.

(** The shading loop [for i, ri := range indices]: one attribute
    ["<pos> color=<palette><ri>!50"] per entry, the position being
    [[]string{"left", "right", "middle"}[i]]; an index past that slice is a
    run-time panic, here [None]. *)
Fixpoint shades (palette : string) (i : nat) (indices : list Z)
    (attr : list string) : option (list string) :=
  match indices with
  | [] => Some attr
  | ri :: rest =>
      match ["left"; "right"; "middle"] !! i with
      | None => None
      | Some pos =>
          shades palette (S i) rest
            (attr ++ [pos +:+ " color=" +:+ palette +:+ pretty ri +:+ "!50"])
      end
  end.

(** The first part of [nodeInfo.String]: the attributes collected and the
    fill colour chosen just before ["fill="+fill] is appended. *)
Definition resolveFill (n : nodeInfo) : option (list string * string) :=
  let attr := [] in
  let fill := "white" in
  let attr := if perfectRoot n then attr ++ [attrPerfectRoot] else attr in
  let fill :=
    if proof n then (if ephemeral n then "proof_ephemeral" else "proof")
    else fill in
  '(attr, fill) ←
    (if leaf n then
       match dataRangeIndices n with
       | [] => Some (attr, fill)
       | [ri] => Some (attr, "target" +:+ pretty ri +:+ "!50")
       | indices => attr' ← shades "target" 0 indices attr; Some (attr', fill)
       end
     else
       match rangeIndices n with
       | [] => Some (attr, fill)
       | [ri] => Some (attr, "range" +:+ pretty ri +:+ "!50")
       | indices => attr' ← shades "range" 0 indices attr; Some (attr', fill)
       end);
  let fill := if target n then "target" else fill in
  let fill := if incPath n then "target_path" else fill in
  Some (attr, fill).

(** String returns a string containing Forest attributes suitable for
    rendering the node, given its type. *)
Definition String (n : nodeInfo) : option string :=
  '(attr, fill) ← resolveFill n;
  let attr := attr ++ ["fill=" +:+ fill] in
  let attr :=
    if negb (ephemeral n) then attr ++ ["draw"]
    else attr ++ [attrEphemeralNode] in
  let attr :=
    if negb (leaf n) then attr ++ ["circle, minimum size=3em, align=center"]
    else attr ++ ["minimum size=1.5em, align=center, base=bottom"] in
  Some (Join attr ", ").

End Style.

(** ** Output, errors and the effects of the program *)

(** One value per call that writes to the standard output.  The texts that
    are out of the scope of the properties below (the preamble, the
    postfix, the brackets) are not spelt out; a node carries its [prefix],
    its address [id], the label [text] and the style [a] whose [String()]
    is printed. *)
Inductive Emit : Set :=
| Preamble                      (* fmt.Print(preamble) *)
| Postfix                       (* fmt.Print(postfix) *)
| LeafHash (prefix : string) (id : NodeID) (text : string) (a : nodeInfo)
    (* "%s [%s, %s, align=center, tier=leaf\n" *)
| LeafData (prefix : string) (id : NodeID) (text : string) (a : nodeInfo)
    (* "  %s [%s, %s, align=center, tier=leafdata]\n]\n" *)
| InnerOpen (prefix : string) (id : NodeID) (text : string) (a : nodeInfo)
    (* "%s [%s, %s, tier=%d\n", the tier being id.Level *)
| InnerClose (prefix : string)  (* "%s ]\n" *)
| MegaBlock (prefix : string) (begin end_ size total : Z)
    (* "%s [%d\\dots%d, edge label={node[midway, above]{%d}}, perfect,
       tier=leaf, minimum width=%f\\linewidth ]\n", the width being
       float32(size) / float32(total) *)
| MegaIndent (prefix : string)  (* "%s" *)
| HiddenOpen (tier : Z)         (* " [, no edge, tier=%d " *)
| HiddenClose.                  (* " ] " *)

Global Instance Emit_eq_dec : EqDecision Emit.
Proof. solve_decision. Defined.

(** The errors of [parseRanges]. *)
Inductive rangeError : Set :=
| TooManyRanges (num : Z)
| InvalidRange (rng : string)
| MalformedRange (rng : string)
| PastEndOfTree (rng : string)
| OutOfOrder (rng : string).

(** The calls of [log.Fatalf] in [main]. *)
Inductive fatal : Set :=
| UnknownNodeFormat (format : string)
| InclusionFailed
| RangeStylesFailed (e : rangeError).

Abbreviation table := (gmap NodeID nodeInfo).

(** The outcome of a computation started in a table: a value with the table
    it leaves and what it printed, a run-time panic, an exit through
    [log.Fatalf] after having printed [o], or a recursion that outlived the
    rounds it was given. *)
Inductive result (A : Type) : Type :=
| Ok (a : A) (t : table) (o : list Emit)
| Panic
| Fatal (e : fatal) (o : list Emit)
| OutOfFuel.
Arguments Ok {A} a t o.
Arguments Panic {A}.
Arguments Fatal {A} e o.
Arguments OutOfFuel {A}.

Definition M (A : Type) : Type := table → result A.

Global Instance M_ret : MRet M := λ A a t, Ok a t [].

Global Instance M_bind : MBind M := λ A B f c t,
  match c t with
  | Ok a t1 o1 =>
      match f a t1 with
      | Ok b t2 o2 => Ok b t2 (o1 ++ o2)
      | Panic => Panic
      | Fatal e o2 => Fatal e (o1 ++ o2)
      | OutOfFuel => OutOfFuel
      end
  | Panic => Panic
  | Fatal e o1 => Fatal e o1
  | OutOfFuel => OutOfFuel
  end.

Definition print (e : Emit) : M unit := λ t, Ok () t [e].

Definition Fatalf {A} (e : fatal) : M A := λ t, Fatal e [].

(** The value of a call that may panic. *)
Definition call {A} (x : option A) : M A := λ t,
  match x with Some a => Ok a t [] | None => Panic end.

(** [nInfo[id]]: the zero [nodeInfo] if [id] is not found. *)
Definition readInfo (id : NodeID) : M nodeInfo := λ t, Ok (t !!! id) t [].

(** modifyNodeInfo applies f to the nodeInfo associated with node id. *)
Definition modifyNodeInfo (id : NodeID) (f : nodeInfo → nodeInfo) : M unit :=
  λ t, let n := t !!! id in Ok () (<[id := f n]> t) [].

(** [for _, x := range xs { body }]. *)
Fixpoint forEach {A} (xs : list A) (body : A → M unit) : M unit :=
  match xs with
  | [] => mret ()
  | x :: rest => body x;; forEach rest body
  end.

(** The deferred calls of a function, last deferred first. *)
Definition runDeferred (deferred : list Emit) : M unit := forEach deferred print.

Definition nodeTextFunc : Type := NodeID → option string.

(** ** The renderer *)

Section Render.

Variables attrPerfectRoot attrEphemeralNode : string.
(** The flags [--tree_size] and [--megamode_threshold]. *)
Variables treeSize megaMode : Z.
Variables nodeText dataText : nodeTextFunc.

Local Abbreviation String := (String attrPerfectRoot attrEphemeralNode).

(** The loop of [perfectMega]: [for i := int(id.Level) - 2; i > 0; i--],
    which prints a hidden node and defers its closing bracket. *)
Fixpoint hiddenNodes (i : nat) (deferred : list Emit) : M (list Emit) :=
  match i with
  | O => mret deferred
  | S i' =>
      print (HiddenOpen (Z.of_nat i));;
      hiddenNodes i' (HiddenClose :: deferred)
  end.

(** perfectMega renders a large perfect subtree as a single entity. *)
Definition perfectMega (prefix : string) (id : NodeID) : M unit :=
  let '(b, e) := Coverage id in
  let size := u64 (e - b) in
  print (MegaBlock prefix b e size treeSize);;
  print (MegaIndent prefix);;
  deferred ← hiddenNodes (Z.to_nat (int64 (int64 (Level id) - 2))) [];
  runDeferred deferred.

(** drawLeaf emits TeX code to render a leaf. *)
Definition drawLeaf (prefix : string) (index : Z) : M unit :=
  let id := NewNodeID 0 index in
  a ← readInfo id;
  let a :=
    if bool_decide (0 < length (dataRangeIndices a))%nat
    then set_incPath false a else a in
  text ← call (nodeText id);
  _ ← call (String a);
  print (LeafHash prefix id text a);;
  a ← readInfo id;
  let a := set_leaf true a in
  let a := set_proof false a in
  let a := set_target (incPath a) (set_incPath false a) in
  text ← call (dataText id);
  _ ← call (String a);
  print (LeafData prefix id text a).

(** openInnerNode renders TeX code to open an internal node; it returns
    what closes the node. *)
Definition openInnerNode (prefix : string) (id : NodeID) : M Emit :=
  a ← readInfo id;
  _ ← call (String a);
  text ← call (nodeText id);
  print (InnerOpen prefix id text a);;
  mret (InnerClose prefix).

(** perfectInner renders the nodes of a perfect internal subtree.  Each
    call descends one level, so [fuel] rounds serve a subtree of fewer
    than [fuel] levels. *)
Fixpoint perfectInner (fuel : nat) (prefix : string) (id : NodeID)
    (top : bool) : M unit :=
  match fuel with
  | O => λ _, OutOfFuel
  | S fuel' =>
      modifyNodeInfo id (set_perfectRoot top);;
      if Level id =? 0 then drawLeaf prefix (Index id)
      else
        close ← openInnerNode prefix id;
        (if megaMode <? Level id then perfectMega prefix id
         else
           let left := NewNodeID (u64 (Level id - 1)) (u64 (Index id * 2)) in
           perfectInner fuel' (prefix +:+ " ") left false;;
           perfectInner fuel' (prefix +:+ " ") (Sibling left) false);;
        print close
  end.

(** perfect renders a perfect subtree. *)
Definition perfect (prefix : string) (id : NodeID) : M unit :=
  perfectInner (S (Z.to_nat (Level id))) prefix id true.

(** The loop of [renderTree] from position [i] on, [n] being [len(ids)]. *)
Fixpoint renderRoots (n i : Z) (ids : list NodeID) (prefix : string)
    (deferred : list Emit) : M (list Emit) :=
  match ids with
  | [] => mret deferred
  | id :: rest =>
      deferred ←
        (if i + 1 <? n then
           let ephem := Parent id in
           modifyNodeInfo ephem (set_ephemeral true);;
           close ← openInnerNode prefix ephem;
           mret (close :: deferred)
         else mret deferred);
      let prefix := prefix +:+ " " in
      perfect prefix id;;
      renderRoots n (i + 1) rest prefix deferred
  end.

(** renderTree renders a tree node and recurses if necessary. *)
Definition renderTree (prefix : string) (size : Z) : M unit :=
  let ids := RangeNodes 0 size [] in
  deferred ← renderRoots (Z.of_nat (length ids)) 0 ids prefix [];
  runDeferred deferred.

End Render.

(** ** Ranges *)

(** Maximum number of ranges to allow. *)
Definition maxRanges : Z := 3.

Section Ranges.

(** [fmt.Sscanf(rng, "%d:%d", &l, &r)] with [l, r uint64], of the Go
    standard library: the two numbers when the error is nil. *)
Variable Sscanf : string → option (Z * Z).

(** The loop of [parseRanges] over the pieces of the flag. *)
Fixpoint parsePairs (treeSize : Z) (rangePairs : list string)
    (ret : list (Z * Z)) : list (Z * Z) + rangeError :=
  match rangePairs with
  | [] => inl ret
  | rng :: rest =>
      let lr := Split rng ":" in
      if negb (length lr =? 2)%nat then inr (InvalidRange rng)
      else
        match Sscanf rng with
        | None => inr (MalformedRange rng)
        | Some (l, r) =>
            if treeSize <? r then inr (PastEndOfTree rng)
            else if r <? l then inr (OutOfOrder rng)
            else parsePairs treeSize rest (ret ++ [(l, r)])
        end
  end.

(** parseRanges parses and validates a string of comma-separated
    open-closed ranges of the form L:R.  Returns the parsed ranges, or an
    error if there's a problem. *)
Definition parseRanges (ranges : string) (treeSize : Z)
  : list (Z * Z) + rangeError :=
  let rangePairs := Split ranges "," in
  let numRanges := Z.of_nat (length rangePairs) in
  if maxRanges <? numRanges then inr (TooManyRanges numRanges)
  else parsePairs treeSize rangePairs [].

Definition appendDataRange (ri : Z) (n : nodeInfo) : nodeInfo :=
  set_dataRangeIndices (dataRangeIndices n ++ [ri]) n.

Definition appendRange (ri : Z) (n : nodeInfo) : nodeInfo :=
  set_rangeIndices (rangeIndices n ++ [ri]) n.

(** The loop [for ri, lr := range rng] of [modifyRangeNodeInfo]. *)
Fixpoint applyRanges (ri : Z) (rng : list (Z * Z)) : M unit :=
  match rng with
  | [] => mret ()
  | (l, r) :: rest =>
      (* Set leaves: for i := l; i < r; i++ *)
      forEach (seqZ l (r - l)) (λ i,
        modifyNodeInfo (NewNodeID 0 i) (appendDataRange ri));;
      forEach (RangeNodes l r []) (λ id,
        modifyNodeInfo id (appendRange ri));;
      applyRanges (ri + 1) rest
  end.

(** modifyRangeNodeInfo sets style info for nodes affected by ranges.
    This includes leaves and perfect subtree roots.  The value is the
    error returned, if any. *)
Definition modifyRangeNodeInfo (ranges : string) (treeSize : Z)
  : M (option rangeError) :=
  match parseRanges ranges treeSize with
  | inr err => mret (Some err)
  | inl rng => applyRanges 0 rng;; mret None
  end.

End Ranges.

(** ** The program *)

Definition dataFormat : nodeTextFunc := λ id,
  Some ("{$leaf_{" +:+ pretty (Index id) +:+ "}$}").

Definition addressFormat : nodeTextFunc := λ id,
  Some (pretty (Level id) +:+ "." +:+ pretty (Index id)).

Definition hashFormat : nodeTextFunc := λ id,
  if 1 <=? Level id then
    let childLevel := u64 (Level id - 1) in
    let leftChild := u64 (Index id * 2) in
    Some ("{$H_{" +:+ pretty (Level id) +:+ "." +:+ pretty (Index id)
          +:+ "} =$ \\ $H(H_{" +:+ pretty childLevel +:+ "." +:+ pretty leftChild
          +:+ "} || H_{" +:+ pretty childLevel +:+ "."
          +:+ pretty (u64 (leftChild + 1)) +:+ "})$}")
  else
    Some ("{$H_{" +:+ pretty (Level id) +:+ "." +:+ pretty (Index id)
          +:+ "} =$ \\ $H(leaf_{" +:+ pretty (Index id) +:+ "})$}").

Definition nodeFormats (name : string) : option nodeTextFunc :=
  if decide (name = "address") then Some addressFormat
  else if decide (name = "hash") then Some hashFormat
  else None.

(** The command line flags. *)
Record Flags : Type := mkFlags {
  treeSize : Z;            (* --tree_size, uint64 *)
  leafData : string;       (* --leaf_data *)
  nodeFormat : string;     (* --node_format *)
  inclusion : Z;           (* --inclusion, int64 *)
  megaMode : Z;            (* --megamode_threshold, uint *)
  ranges : string;         (* --ranges *)
  attrPerfectRoot : string;
  attrEphemeralNode : string
}.

(** The values the flags have when none is given. *)
Definition defaultFlags : Flags :=
  mkFlags 23 "" "address" (-1) 4 "" "" "draw, dotted".

Section Main.

Variable Sscanf : string → option (Z * Z).

(** [for i, id := range nodes.IDs], from position [i] on: the entries in
    the ephemeral span are skipped when the span has more than one. *)
Fixpoint markProofNodes (begin end_ i : Z) (ids : list NodeID) : M unit :=
  match ids with
  | [] => mret ()
  | id :: rest =>
      (if (begin <=? i) && (i <? end_) && (int64 (begin + 1) <? end_)
       then mret ()
       else modifyNodeInfo id (set_proof true));;
      markProofNodes begin end_ (int64 (i + 1)) rest
  end.

(** What [main] does with the result of [proof.Inclusion]. *)
Definition markProof (nodes : proof.Nodes) : M unit :=
  let '(_, begin, end_) := proof.Ephem nodes in
  markProofNodes begin end_ 0 (proof.IDs nodes);;
  if int64 (begin + 1) <? end_ then
    id ← call (if int64 (end_ - 1) <? 0 then None
               else proof.IDs nodes !! Z.to_nat (int64 (end_ - 1)));
    modifyNodeInfo (Parent id) (set_proof true)
  else mret ().

(** [for id := leafID; id.Level < height; id = id.Parent()]. *)
Fixpoint markIncPath (fuel : nat) (id : NodeID) (height : Z) : M unit :=
  match fuel with
  | O => λ _, OutOfFuel
  | S fuel' =>
      if Level id <? height then
        modifyNodeInfo id (set_incPath true);;
        markIncPath fuel' (Parent id) height
      else mret ()
  end.

(** The block of [main] guarded by the flag [inclusion] being positive. *)
Definition markInclusion (inclusion_ treeSize_ height : Z) : M unit :=
  if 0 <? inclusion_ then
    let leafID := NewNodeID 0 (u64 inclusion_) in
    modifyNodeInfo leafID (set_incPath true);;
    match proof.Inclusion (u64 inclusion_) treeSize_ with
    | None => Fatalf InclusionFailed
    | Some nodes =>
        markProof nodes;;
        markIncPath (S (Z.to_nat height)) leafID height
    end
  else mret ().

(** The block of [main] guarded by [len] of the flag [ranges] being
    positive. *)
Definition markRanges (ranges_ : string) (treeSize_ : Z) : M unit :=
  if bool_decide (0 < String.length ranges_)%nat then
    err ← modifyRangeNodeInfo Sscanf ranges_ treeSize_;
    match err with
    | Some e => Fatalf (RangeStylesFailed e)
    | None => mret ()
    end
  else mret ().

(** The values of [*treeSize] and [dataFormat] once [--leaf_data] has been
    looked at: the block of [main] guarded by [len] of the flag
    [leafData] being positive. *)
Definition leafDataOverride (fl : Flags) : Z * nodeTextFunc :=
  if bool_decide (0 < String.length (leafData fl))%nat then
    let leaves := Split (leafData fl) "," in
    (Z.of_nat (length leaves),
     λ id, if Index id <? 0 then None else leaves !! Z.to_nat (Index id))
  else (treeSize fl, dataFormat).

Definition main (fl : Flags) : M unit :=
  let height := u64 (u64 (bits.Len64 (u64 (treeSize fl - 1))) + 1) in
  match nodeFormats (nodeFormat fl) with
  | None => Fatalf (UnknownNodeFormat (nodeFormat fl))
  | Some innerNodeText =>
      let nodeText := innerNodeText in
      let '(treeSize_, dataFormat_) := leafDataOverride fl in
      markInclusion (inclusion fl) treeSize_ height;;
      markRanges (ranges fl) treeSize_;;
      print Preamble;;
      renderTree (attrPerfectRoot fl) (attrEphemeralNode fl) treeSize_
        (megaMode fl) nodeText dataFormat_ "" treeSize_;;
      print Postfix
  end.

End Main.

Definition outputOf {A} (r : result A) : list Emit :=
  match r with Ok _ _ o => o | Fatal _ o => o | _ => [] end.

(** * Vocabulary of the properties *)

(** A style with at most [maxRanges] entries in each of its index lists, as
    every style has when at most three ranges are given. *)
Definition okInfo (n : nodeInfo) : Prop :=
  (length (dataRangeIndices n) ≤ 3)%nat ∧ (length (rangeIndices n) ≤ 3)%nat.

(** The fill of a proof node that is neither target nor on the path: the
    colour of the range when the index list that applies has exactly one
    entry, the proof colour otherwise. *)
Definition proofFill (n : nodeInfo) : string :=
  match (if leaf n then dataRangeIndices n else rangeIndices n) with
  | [ri] => (if leaf n then "target" else "range") +:+ pretty ri +:+ "!50"
  | _ => if ephemeral n then "proof_ephemeral" else "proof"
  end.

(** What [drawLeaf] prints for a leaf whose entry is [a]: the style of the
    node of the leaf hash and the style of the node of the leaf data. *)
Definition hashStyle (a : nodeInfo) : nodeInfo :=
  if bool_decide (0 < length (dataRangeIndices a))%nat
  then set_incPath false a else a.

Definition dataStyle (a : nodeInfo) : nodeInfo :=
  mkNodeInfo false false (incPath a) (perfectRoot a) (ephemeral a) true
    (dataRangeIndices a) (rangeIndices a).

(** Entry [i] of the proof is in the ephemeral span and the span has more
    than one entry. *)
Definition inSpan (nodes : proof.Nodes) (i : nat) : Prop :=
  (proof.begin nodes ≤ Z.of_nat i < proof.end_ nodes)
  ∧ 1 < proof.end_ nodes - proof.begin nodes.

(** The nodes that the marking rule names: the entries of the proof that are
    not absorbed in the span, and the parent of the last entry of a span of
    more than one. *)
Definition isMarked (nodes : proof.Nodes) (id : NodeID) : Prop :=
  (∃ i, proof.IDs nodes !! i = Some id ∧ ¬ inSpan nodes i)
  ∨ (1 < proof.end_ nodes - proof.begin nodes
     ∧ ∃ last, proof.IDs nodes !! Z.to_nat (proof.end_ nodes - 1) = Some last
               ∧ id = Parent last).

(** The test of the marking loop, and the entries of [ids] (the entries
    from position [i] on) that it marks. *)
Definition skipped (b e : Z) (i : nat) : bool :=
  (b <=? Z.of_nat i) && (Z.of_nat i <? e) && (b + 1 <? e).

Fixpoint markedFrom (b e : Z) (i : nat) (ids : list NodeID) (id : NodeID)
  : bool :=
  match ids with
  | [] => false
  | x :: rest =>
      (bool_decide (x = id) && negb (skipped b e i))
      || markedFrom b e (S i) rest id
  end.

(** [silent c]: whenever [c] ends, normally or through [log.Fatalf], it has
    printed nothing. *)
Definition silent {A} (c : M A) : Prop :=
  ∀ t, match c t with
       | Ok _ _ o => o = []
       | Fatal _ o => o = []
       | _ => True
       end.

(** [noFatal c]: [c] never calls [log.Fatalf]. *)
Definition noFatal {A} (c : M A) : Prop := ∀ t e o, c t ≠ Fatal e o.

Create HintDb effects.

Section RangeVocabulary.

Variable Sscanf : string → option (Z * Z).

(** A piece of the flag that [parseRanges] accepts as the range [lr]. *)
Definition accepted (treeSize : Z) (rng : string) (lr : Z * Z) : Prop :=
  length (Split rng ":") = 2%nat ∧ Sscanf rng = Some lr
  ∧ lr.1 ≤ lr.2 ∧ lr.2 ≤ treeSize.

End RangeVocabulary.

(** The indices of the ranges of [rs] that contain leaf [i], ascending,
    the first range of [rs] having index [ri]. *)
Fixpoint rangesOf (ri : Z) (rs : list (Z * Z)) (i : Z) : list Z :=
  match rs with
  | [] => []
  | (l, r) :: rest =>
      (if (l <=? i) && (i <? r) then [ri] else []) ++ rangesOf (ri + 1) rest i
  end.

(** The nodes from level [from] up to, and without, level [height] on the
    path of the leaf [leafIndex]. *)
Definition onPath (leafIndex from height : Z) (id : NodeID) : Prop :=
  from ≤ Level id < height ∧ Index id = Z.shiftr leafIndex (Level id).

Global Instance onPath_dec leafIndex from height id :
  Decision (onPath leafIndex from height id).
Proof. unfold onPath. apply _. Defined.

(** The flags with another collapse threshold. *)
Definition withMegaMode (m : Z) (fl : Flags) : Flags :=
  mkFlags (treeSize fl) (leafData fl) (nodeFormat fl) (inclusion fl) m
    (ranges fl) (attrPerfectRoot fl) (attrEphemeralNode fl).

(** The style that a printed node carries, if the value is a node. *)
Definition emitInfo (e : Emit) : option nodeInfo :=
  match e with
  | LeafHash _ _ _ a | LeafData _ _ _ a | InnerOpen _ _ _ a => Some a
  | _ => None
  end.

(** No node of the output is drawn as the target or on its path. *)
Definition noPathShown (o : list Emit) : bool :=
  forallb (λ e, match emitInfo e with
                | Some a => negb (incPath a) && negb (target a)
                | None => true
                end) o.

(** [preserves P c]: a normal run of [c] leaves [P] of every entry of the
    table as it was. *)
Definition preserves {X A} (P : nodeInfo → X) (c : M A) : Prop :=
  ∀ (t : table) a t' o, c t = Ok a t' o → ∀ id, P (t' !!! id) = P (t !!! id).

(** Every entry of the table has at most three entries in each list. *)
Definition okTable (t : table) : Prop := ∀ id, okInfo (t !!! id).

(** The leaves below a node, left to right. *)
Definition leavesOf (id : NodeID) : list NodeID :=
  let '(b, e) := Coverage id in NewNodeID 0 <$> seqZ b (e - b).

(** A node of the tree of [size] leaves whose subtree is complete. *)
Definition wfRoot (size : Z) (id : NodeID) : Prop :=
  0 ≤ Level id < 64 ∧ 0 ≤ Index id ∧ (Index id + 1) * 2 ^ Level id ≤ size.

(** The leaves whose data node is in the output, in the order printed. *)
Definition leafDataNodes (o : list Emit) : list NodeID :=
  flat_map (λ e, match e with LeafData _ id _ _ => [id] | _ => [] end) o.

(** The hidden nodes that are opened in the output, and the collapsed
    blocks. *)
Definition hiddenTiers (o : list Emit) : list Z :=
  flat_map (λ e, match e with HiddenOpen tier => [tier] | _ => [] end) o.

Definition megaBlocks (o : list Emit) : list Emit :=
  flat_map (λ e, match e with MegaBlock _ _ _ _ _ => [e] | _ => [] end) o.

(** The nodes that the output draws as ephemeral. *)
Definition ephemeralNodes (o : list Emit) : list NodeID :=
  flat_map (λ e, match e with
                 | LeafHash _ id _ a | LeafData _ id _ a | InnerOpen _ id _ a =>
                     if ephemeral a then [id] else []
                 | _ => []
                 end) o.

Section Joining.

Variables apr aen : string.
Variables treeSize megaMode : Z.
Variables nodeText dataText : nodeTextFunc.

(** The rendering of the roots as section 4.4 of the specification words
    it: for each root but the last, the parent of the root is marked
    ephemeral and opened; the root is rendered inside it, then the roots
    that follow, and then the block is closed.  The last root is rendered
    with no block of its own. *)
Fixpoint joinRoots (ids : list NodeID) (prefix : string) : M unit :=
  match ids with
  | [] => mret ()
  | id :: rest =>
      match rest with
      | [] =>
          perfect apr aen treeSize megaMode nodeText dataText
            (prefix +:+ " ") id
      | _ :: _ =>
          modifyNodeInfo (Parent id) (set_ephemeral true);;
          close ← openInnerNode apr aen nodeText prefix (Parent id);
          perfect apr aen treeSize megaMode nodeText dataText
            (prefix +:+ " ") id;;
          joinRoots rest (prefix +:+ " ");;
          print close
      end
  end.

End Joining.

(** The tiers [i], [i - 1], ..., 1. *)
Fixpoint tiersDown (i : nat) : list Z :=
  match i with
  | O => []
  | S i' => Z.of_nat i :: tiersDown i'
  end.

(** What the rendering of a collapsed subtree prints inside the block of its
    root: the collapsed block with its range and leaf count (and [total],
    against which its width is taken), the indentation, then [n] hidden
    nodes, opened from tier [n] down to tier 1 and closed. *)
Definition collapsedBody (prefix : string) (id : NodeID) (total : Z) (n : nat)
  : list Emit :=
  let '(b, e) := Coverage id in
  [MegaBlock prefix b e (u64 (e - b)) total; MegaIndent prefix]
  ++ (HiddenOpen <$> tiersDown n) ++ replicate n HiddenClose.

(** The joining nodes of a list of roots: the parent of each root but the
    last. *)
Fixpoint joinNodes (ids : list NodeID) : list NodeID :=
  match ids with
  | [] => []
  | id :: rest =>
      match rest with
      | [] => []
      | _ :: _ => Parent id :: joinNodes rest
      end
  end.

(** The leaves whose data the rendering of the roots [ids] prints: those of
    the roots that are not above the threshold. *)
Definition expandedLeaves (megaMode : Z) (ids : list NodeID) : list NodeID :=
  flat_map (λ id, if Level id <=? megaMode then leavesOf id else []) ids.

(** The index list that decides the colours of a style: that of the leaf
    data for a leaf-data style, that of the ranges otherwise. *)
Definition applicable (n : nodeInfo) : list Z :=
  if leaf n then dataRangeIndices n else rangeIndices n.

(** The palette of the bands of a style. *)
Definition palette (n : nodeInfo) : string :=
  if leaf n then "target" else "range".

(** One band attribute per entry, the entries taking the positions left,
    right and middle in this order. *)
Definition bandAttrs (pal : string) (indices : list Z) : list string :=
  zip_with (λ pos ri, pos +:+ " color=" +:+ pal +:+ pretty ri +:+ "!50")
    ["left"; "right"; "middle"] indices.

(** The fill of a style when no single range decides it. *)
Definition baseFill (n : nodeInfo) : string :=
  if incPath n then "target_path"
  else if target n then "target"
  else if proof n then (if ephemeral n then "proof_ephemeral" else "proof")
  else "white".

(** The border and the shape, the last two attributes of a style. *)
Definition borderAttr (aen : string) (n : nodeInfo) : string :=
  if ephemeral n then aen else "draw".

Definition shapeAttr (n : nodeInfo) : string :=
  if leaf n then "minimum size=1.5em, align=center, base=bottom"
  else "circle, minimum size=3em, align=center".

(** The node that a printed node is about. *)
Definition emitNode (e : Emit) : option NodeID :=
  match e with
  | LeafHash _ id _ _ | LeafData _ id _ _ | InnerOpen _ id _ _ => Some id
  | _ => None
  end.

(** [styledBy Inv e]: the style that [e] prints comes from an entry of its
    node that satisfies [Inv]: as it is for an internal node, through
    [hashStyle] for the hash of a leaf and through [dataStyle] for its
    data. *)
Definition styledBy (Inv : NodeID → nodeInfo → Prop) (e : Emit) : Prop :=
  match e with
  | LeafHash _ id _ a => ∃ a0, Inv id a0 ∧ a = hashStyle a0
  | LeafData _ id _ a => ∃ a0, Inv id a0 ∧ a = dataStyle a0
  | InnerOpen _ id _ a => Inv id a
  | _ => True
  end.

(** The brackets that are open at a point of the output: that of an internal
    node, with the prefix it was printed with, that of the hash of a leaf,
    that of a hidden node. *)
Inductive frame : Set :=
| InnerFrame (prefix : string)
| LeafFrame
| HiddenFrame.

(** [nest stack o]: the brackets left open after [o], starting with those of
    [stack]; [None] when [o] closes a bracket that is not the innermost open
    one, or closes an internal node with another prefix than it was opened
    with.  The data of a leaf opens and closes its own bracket and closes
    that of the hash of the leaf; a collapsed block closes its own. *)
Fixpoint nest (stack : list frame) (o : list Emit) : option (list frame) :=
  match o with
  | [] => Some stack
  | e :: rest =>
      match e with
      | Preamble | Postfix | MegaBlock _ _ _ _ _ | MegaIndent _ =>
          nest stack rest
      | LeafHash _ _ _ _ => nest (LeafFrame :: stack) rest
      | LeafData _ _ _ _ =>
          match stack with
          | LeafFrame :: below => nest below rest
          | _ => None
          end
      | InnerOpen prefix _ _ _ => nest (InnerFrame prefix :: stack) rest
      | InnerClose prefix =>
          match stack with
          | InnerFrame prefix' :: below =>
              if decide (prefix = prefix') then nest below rest else None
          | _ => None
          end
      | HiddenOpen _ => nest (HiddenFrame :: stack) rest
      | HiddenClose =>
          match stack with
          | HiddenFrame :: below => nest below rest
          | _ => None
          end
      end
  end.

(** [rendered megaMode total prefix id top t o t']: a rendering of the
    subtree of [id] that ends normally, started in the table [t], prints [o]
    and leaves the table [t'].  One rule per branch of [perfectInner]. *)
Inductive rendered (megaMode total : Z)
  : string → NodeID → bool → table → list Emit → table → Prop :=
| rendered_leaf prefix id top (t : table) text dtext :
    Level id = 0 →
    rendered megaMode total prefix id top t
      [LeafHash prefix id text (hashStyle (set_perfectRoot top (t !!! id)));
       LeafData prefix id dtext (dataStyle (set_perfectRoot top (t !!! id)))]
      (<[id := set_perfectRoot top (t !!! id)]> t)
| rendered_collapsed prefix id top (t : table) text :
    Level id ≠ 0 → megaMode < Level id →
    rendered megaMode total prefix id top t
      ([InnerOpen prefix id text (set_perfectRoot top (t !!! id))]
       ++ collapsedBody prefix id total
            (Z.to_nat (int64 (int64 (Level id) - 2)))
       ++ [InnerClose prefix])
      (<[id := set_perfectRoot top (t !!! id)]> t)
| rendered_inner prefix id top (t : table) text o1 t1 o2 t2 :
    Level id ≠ 0 → Level id ≤ megaMode →
    rendered megaMode total (prefix +:+ " ")
      (NewNodeID (u64 (Level id - 1)) (u64 (Index id * 2))) false
      (<[id := set_perfectRoot top (t !!! id)]> t) o1 t1 →
    rendered megaMode total (prefix +:+ " ")
      (Sibling (NewNodeID (u64 (Level id - 1)) (u64 (Index id * 2)))) false
      t1 o2 t2 →
    rendered megaMode total prefix id top t
      ([InnerOpen prefix id text (set_perfectRoot top (t !!! id))]
       ++ (o1 ++ o2) ++ [InnerClose prefix])
      t2.

(** The height that [main] takes for the tree: one more than the number of
    bits of [size - 1], computed on unsigned 64-bit integers. *)
Definition heightOf (size : Z) : Z :=
  u64 (u64 (bits.Len64 (u64 (size - 1))) + 1).

(** How a node of the output is drawn, for the target leaf [incl] (none
    when [incl <= 0]) and the path of [height] levels: the data of a leaf is
    drawn as a leaf, never as a proof node nor on the path, and as the
    target when the leaf is on the path; the hash of a leaf and an internal
    node are never drawn as a leaf nor as the target, and are drawn on the
    path when they are on it, the hash of a leaf only if the leaf is in no
    range. *)
Definition shownAs (incl height : Z) (e : Emit) : Prop :=
  match e with
  | LeafData _ id _ a =>
      leaf a = true ∧ proof a = false ∧ incPath a = false
      ∧ (target a = true ↔ 0 < incl ∧ onPath incl 0 height id)
  | LeafHash _ id _ a =>
      leaf a = false ∧ target a = false
      ∧ (incPath a = true
         ↔ (0 < incl ∧ onPath incl 0 height id) ∧ dataRangeIndices a = [])
  | InnerOpen _ id _ a =>
      leaf a = false ∧ target a = false
      ∧ (incPath a = true ↔ 0 < incl ∧ onPath incl 0 height id)
  | _ => True
  end.

Section PieceVocabulary.

Variable Sscanf : string → option (Z * Z).

(** The error that [parseRanges] finds in one piece of the flag, if any. *)
Definition pieceError (treeSize : Z) (rng : string) : option rangeError :=
  if negb (length (Split rng ":") =? 2)%nat then Some (InvalidRange rng)
  else
    match Sscanf rng with
    | None => Some (MalformedRange rng)
    | Some (l, r) =>
        if treeSize <? r then Some (PastEndOfTree rng)
        else if r <? l then Some (OutOfOrder rng)
        else None
    end.

End PieceVocabulary.

(** The number of bytes [c] in [s]. *)
Fixpoint countByte (c : ascii) (s : string) : Z :=
  match s with
  | EmptyString => 0
  | String.String a s' => (if decide (a = c) then 1 else 0) + countByte c s'
  end.

(** The indices of the ranges of [rs] that have [id] among the roots of
    the perfect subtrees that cover them, ascending, the first range of
    [rs] having index [ri]. *)
Fixpoint rootRangesOf (ri : Z) (rs : list (Z * Z)) (id : NodeID) : list Z :=
  match rs with
  | [] => []
  | (l, r) :: rest =>
      (if bool_decide (id ∈ RangeNodes l r []) then [ri] else [])
      ++ rootRangesOf (ri + 1) rest id
  end.

(** * Properties *)

(** ** Reasoning about the effects *)

Lemma bind_Ok {A B} (c : M A) (f : A → M B) (t : table) a t1 o1 :
  c t = Ok a t1 o1 →
  (c ≫= f) t =
    match f a t1 with
    | Ok b t2 o2 => Ok b t2 (o1 ++ o2)
    | Panic => Panic
    | Fatal e o2 => Fatal e (o1 ++ o2)
    | OutOfFuel => OutOfFuel
    end.
Proof. intros H. unfold mbind, M_bind. by rewrite H. Qed.

Lemma bind_Ok_inv {A B} (c : M A) (f : A → M B) (t : table) b t2 o :
  (c ≫= f) t = Ok b t2 o →
  ∃ a t1 o1 o2, c t = Ok a t1 o1 ∧ f a t1 = Ok b t2 o2 ∧ o = o1 ++ o2.
Proof.
  unfold mbind, M_bind. destruct (c t) as [a t1 o1| | |]; try done.
  destruct (f a t1) as [b' t2' o2| | |] eqn:Hf; try done.
  intros [= -> -> <-]. by exists a, t1, o1, o2.
Qed.

Lemma bind_Fatal_inv {A B} (c : M A) (f : A → M B) (t : table) e o :
  (c ≫= f) t = Fatal e o →
  c t = Fatal e o ∨
  ∃ a t1 o1 o2, c t = Ok a t1 o1 ∧ f a t1 = Fatal e o2 ∧ o = o1 ++ o2.
Proof.
  unfold mbind, M_bind. destruct (c t) as [a t1 o1| | |]; try done.
  - destruct (f a t1) as [b' t2' o2'| |e' o2|] eqn:Hf; try done.
    intros [= -> <-]. right. by exists a, t1, o1, o2.
  - intros [= -> ->]. by left.
Qed.

Lemma modifyNodeInfo_Ok id f (t : table) :
  modifyNodeInfo id f t = Ok () (<[id := f (t !!! id)]> t) [].
Proof. done. Qed.

Lemma lookup_total_modify (t : table) id id' n :
  (<[id := n]> t) !!! id' = if decide (id = id') then n else t !!! id'.
Proof.
  case_decide as H.
  - subst. apply lookup_total_insert_eq.
  - by apply lookup_total_insert_ne.
Qed.

(** ** The table is updated one entry and one field at a time (C10) *)

(** C10.  Every write of the annotation table is [modifyNodeInfo], a
    read-modify-write of the entry of one node: it prints nothing, the entry
    of [id] becomes [f] of what was read (the zero value if absent) and the
    entry of any other node [id'] stays as it was.  Each of the functions the
    program passes as [f] changes the one field it names (putting the old
    value of that field back gives the old record).  So marking a node
    ephemeral keeps the range indices appended before, and appending a range
    index keeps the ephemeral mark. *)
Theorem modifyNodeInfo_frame (id id' : NodeID) (f : nodeInfo → nodeInfo)
    (t : table) (Hne : id' ≠ id) :
  (∃ t', modifyNodeInfo id f t = Ok () t' []
         ∧ t' !!! id = f (t !!! id)
         ∧ t' !! id' = t !! id' ∧ t' !!! id' = t !!! id')
  ∧ (∀ v n, set_perfectRoot (perfectRoot n) (set_perfectRoot v n) = n
            ∧ perfectRoot (set_perfectRoot v n) = v)
  ∧ (∀ v n, set_ephemeral (ephemeral n) (set_ephemeral v n) = n
            ∧ ephemeral (set_ephemeral v n) = v)
  ∧ (∀ v n, set_proof (proof n) (set_proof v n) = n
            ∧ proof (set_proof v n) = v)
  ∧ (∀ v n, set_incPath (incPath n) (set_incPath v n) = n
            ∧ incPath (set_incPath v n) = v)
  ∧ (∀ ri n, set_dataRangeIndices (dataRangeIndices n) (appendDataRange ri n) = n
             ∧ dataRangeIndices (appendDataRange ri n) = dataRangeIndices n ++ [ri])
  ∧ (∀ ri n, set_rangeIndices (rangeIndices n) (appendRange ri n) = n
             ∧ rangeIndices (appendRange ri n) = rangeIndices n ++ [ri])
  ∧ (∀ ri, ∃ t1 t2,
        modifyNodeInfo id (appendRange ri) t = Ok () t1 []
        ∧ modifyNodeInfo id (set_ephemeral true) t1 = Ok () t2 []
        ∧ rangeIndices (t2 !!! id) = rangeIndices (t !!! id) ++ [ri]
        ∧ ephemeral (t2 !!! id) = true
        ∧ t2 !!! id' = t !!! id')
  ∧ (∀ ri, ∃ t1 t2,
        modifyNodeInfo id (set_ephemeral true) t = Ok () t1 []
        ∧ modifyNodeInfo id (appendRange ri) t1 = Ok () t2 []
        ∧ rangeIndices (t2 !!! id) = rangeIndices (t !!! id) ++ [ri]
        ∧ ephemeral (t2 !!! id) = true
        ∧ t2 !!! id' = t !!! id').
Proof.
  split_and!.
  - eexists. split; [apply modifyNodeInfo_Ok|].
    rewrite lookup_total_insert_eq, lookup_insert_ne, lookup_total_insert_ne by done.
    done.
  - by intros v [].
  - by intros v [].
  - by intros v [].
  - by intros v [].
  - by intros v [].
  - by intros v [].
  - intros ri. do 2 eexists. rewrite !modifyNodeInfo_Ok.
    split_and!; try done; rewrite ?lookup_total_modify;
      repeat case_decide; try done.
  - intros ri. do 2 eexists. rewrite !modifyNodeInfo_Ok.
    split_and!; try done; rewrite ?lookup_total_modify;
      repeat case_decide; try done.
Qed.

Lemma modifyNodeInfo_frame_witness :
  ∃ t', modifyNodeInfo (NewNodeID 3 0) (set_ephemeral true)
          {[ NewNodeID 0 4 := appendRange 0 zeroInfo ]} = Ok () t' []
        ∧ t' !!! NewNodeID 3 0 = set_ephemeral true zeroInfo
        ∧ t' !!! NewNodeID 0 4 = appendRange 0 zeroInfo.
Proof.
  destruct (modifyNodeInfo_frame (NewNodeID 3 0) (NewNodeID 0 4)
              (set_ephemeral true) {[ NewNodeID 0 4 := appendRange 0 zeroInfo ]})
    as [(t' & H1 & H2 & _ & H3) _]; [done|].
  exists t'. split_and!; [exact H1|exact H2|exact H3].
Defined.

(** ** Style resolution (C4, C7) *)

Lemma shades_total palette (i : nat) indices attr :
  (i + length indices ≤ 3)%nat → is_Some (shades palette i indices attr).
Proof.
  revert i attr. induction indices as [|ri rest IH]; intros i attr Hlen; simpl in *.
  - by eexists.
  - destruct (["left"; "right"; "middle"] !! i) as [pos|] eqn:Hpos.
    + apply IH. lia.
    + apply lookup_ge_None in Hpos. simpl in Hpos. lia.
Qed.

Lemma resolveFill_total apr n :
  okInfo n → is_Some (resolveFill apr n).
Proof.
  intros [Hd Hr]. unfold resolveFill.
  destruct (leaf n).
  - destruct (dataRangeIndices n) as [|r1 [|r2 l]] eqn:E; simpl; try by eexists.
    match goal with
    | |- context [shades ?p ?i ?l ?a] =>
        destruct (shades_total p i l a) as [x Hx]; [simpl in *; lia | rewrite Hx]
    end.
    simpl. by eexists.
  - destruct (rangeIndices n) as [|r1 [|r2 l]] eqn:E; simpl; try by eexists.
    match goal with
    | |- context [shades ?p ?i ?l ?a] =>
        destruct (shades_total p i l a) as [x Hx]; [simpl in *; lia | rewrite Hx]
    end.
    simpl. by eexists.
Qed.

Lemma String_total apr aen n : okInfo n → is_Some (String apr aen n).
Proof.
  intros Hok. destruct (resolveFill_total apr n Hok) as [[attr fill] H].
  unfold String. rewrite H. simpl. by eexists.
Qed.

Lemma resolveFill_incPath apr n attr fill :
  resolveFill apr n = Some (attr, fill) →
  incPath n = true → fill = "target_path".
Proof.
  unfold resolveFill. intros H Hp. rewrite Hp in H.
  repeat case_match; simplify_option_eq; done.
Qed.

Lemma range_fill_not_path s : "target" +:+ s +:+ "!50" ≠ "target_path".
Proof.
  intros H.
  destruct s as [|c1 [|c2 [|c3 [|c4 [|c5 [|c6 s]]]]]];
    cbv [String.append] in H; discriminate H.
Qed.

Lemma resolveFill_no_incPath apr n attr fill :
  resolveFill apr n = Some (attr, fill) →
  incPath n = false → fill ≠ "target_path".
Proof.
  unfold resolveFill. intros H Hp. rewrite Hp in H.
  repeat case_match; simplify_option_eq;
    first [ by apply range_fill_not_path | discriminate ].
Qed.

(** C4, as the code has it.  When [proof] is set and neither [target] nor
    [incPath] is, the resolved fill is the proof colour (the lighter
    [proof_ephemeral] when [ephemeral] is set too) unless the index list
    that applies ([dataRangeIndices] for leaf data, [rangeIndices]
    otherwise) has exactly one entry: the fill of that single range is
    assigned after the proof colour and replaces it.  With two or three
    entries the bands are added and the fill stays the proof colour. *)
Theorem proof_fill (apr : string) (n : nodeInfo) (attr : list string)
    (fill : string)
    (Hres : resolveFill apr n = Some (attr, fill))
    (Hproof : proof n = true) (Htarget : target n = false)
    (Hpath : incPath n = false) :
  fill = proofFill n.
Proof.
  unfold resolveFill in Hres. unfold proofFill.
  rewrite Hproof, Htarget, Hpath in Hres.
  repeat case_match; simplify_option_eq; done.
Qed.

Lemma proof_fill_witness :
  resolveFill ""
    (mkNodeInfo true false false false true false [] [0; 1])
  = Some (["left color=range0!50"; "right color=range1!50"], "proof_ephemeral")
  ∧ "proof_ephemeral"
    = proofFill (mkNodeInfo true false false false true false [] [0; 1]).
Proof.
  split; [reflexivity|].
  apply (proof_fill ""
           (mkNodeInfo true false false false true false [] [0; 1])
           ["left color=range0!50"; "right color=range1!50"]);
    reflexivity.
Defined.

(** C4 as stated fails: a proof node that is the single root of range 0 is
    filled with the colour of the range, not with the proof colour. *)
Lemma proof_fill_overridden :
  let n := mkNodeInfo true false false false false false [] [0] in
  proof n = true ∧ target n = false ∧ incPath n = false
  ∧ resolveFill "" n = Some ([], "range0!50")
  ∧ snd <$> resolveFill "" n ≠ Some "proof"
  ∧ snd <$> resolveFill "" n ≠ Some "proof_ephemeral".
Proof. vm_compute. split_and!; try reflexivity; discriminate. Qed.

Lemma okInfo_hashStyle a : okInfo a → okInfo (hashStyle a).
Proof. unfold hashStyle. by case_bool_decide. Qed.

Lemma okInfo_dataStyle a : okInfo a → okInfo (dataStyle a).
Proof. done. Qed.

Section LeafAndInner.

Variables apr aen : string.
Variables nodeText dataText : nodeTextFunc.

Lemma drawLeaf_Ok prefix index (t : table) text dtext :
  let id := NewNodeID 0 index in
  okInfo (t !!! id) →
  nodeText id = Some text →
  dataText id = Some dtext →
  drawLeaf apr aen nodeText dataText prefix index t
  = Ok () t [LeafHash prefix id text (hashStyle (t !!! id));
             LeafData prefix id dtext (dataStyle (t !!! id))].
Proof.
  intros id Hok Htext Hdata.
  destruct (String_total apr aen _ (okInfo_hashStyle _ Hok)) as [s1 Hs1].
  destruct (String_total apr aen _ (okInfo_dataStyle _ Hok)) as [s2 Hs2].
  unfold drawLeaf, mbind, M_bind, readInfo, call, print. fold id.
  rewrite Htext, Hdata. unfold hashStyle in Hs1. rewrite Hs1.
  unfold dataStyle in Hs2. simpl. unfold set_target, set_incPath, set_proof,
    set_leaf. simpl. rewrite Hs2. done.
Qed.

Lemma openInnerNode_Ok prefix id (t : table) text :
  okInfo (t !!! id) →
  nodeText id = Some text →
  openInnerNode apr aen nodeText prefix id t
  = Ok (InnerClose prefix) t [InnerOpen prefix id text (t !!! id)].
Proof.
  intros Hok Htext.
  destruct (String_total apr aen _ Hok) as [s1 Hs1].
  unfold openInnerNode, mbind, M_bind, readInfo, call, print.
  by rewrite Hs1, Htext.
Qed.

(** C7.  For a leaf whose entry [a] has a nonempty [dataRangeIndices],
    [drawLeaf] prints the node of the leaf hash with the style [a] in
    which [incPath] is cleared, so that its fill is never the path colour,
    whatever the entry says; the node of the leaf data follows.  An
    internal node is printed by [openInnerNode] with its entry as it is:
    when [incPath] is set its fill is the path colour, whatever its range
    indices are. *)
Theorem leaf_path_suppressed prefix index (t : table) text dtext
    (id := NewNodeID 0 index) (a := t !!! id)
    (Hok : okInfo a)
    (Htext : nodeText id = Some text)
    (Hdata : dataText id = Some dtext)
    (Hrange : dataRangeIndices a ≠ []) :
  drawLeaf apr aen nodeText dataText prefix index t
  = Ok () t [LeafHash prefix id text (set_incPath false a);
             LeafData prefix id dtext (dataStyle a)]
  ∧ (∃ attr fill, resolveFill apr (set_incPath false a) = Some (attr, fill)
                  ∧ fill ≠ "target_path")
  ∧ (∀ prefix' id' text' (t' : table),
       okInfo (t' !!! id') → nodeText id' = Some text' →
       incPath (t' !!! id') = true →
       openInnerNode apr aen nodeText prefix' id' t'
       = Ok (InnerClose prefix') t' [InnerOpen prefix' id' text' (t' !!! id')]
       ∧ ∃ attr fill, resolveFill apr (t' !!! id') = Some (attr, fill)
                      ∧ fill = "target_path").
Proof.
  split_and!.
  - rewrite (drawLeaf_Ok prefix index t text dtext Hok Htext Hdata).
    fold id a. unfold hashStyle. rewrite bool_decide_true; [done|].
    destruct (dataRangeIndices a); [done|simpl; lia].
  - destruct (resolveFill_total apr (set_incPath false a)) as [[attr fill] H];
      [done|].
    exists attr, fill. split; [done|].
    by eapply resolveFill_no_incPath.
  - intros prefix' id' text' t' Hok' Htext' Hpath.
    split; [by apply openInnerNode_Ok|].
    destruct (resolveFill_total apr (t' !!! id')) as [[attr fill] H]; [done|].
    exists attr, fill. split; [done|].
    by eapply resolveFill_incPath.
Qed.

End LeafAndInner.

Lemma leaf_path_suppressed_witness :
  let t : table :=
    {[ NewNodeID 0 2 := mkNodeInfo false true false false false false [0] [] ]} in
  drawLeaf "" "draw, dotted" addressFormat dataFormat " " 2 t
  = Ok () t
      [LeafHash " " (NewNodeID 0 2) "0.2"
         (mkNodeInfo false false false false false false [0] []);
       LeafData " " (NewNodeID 0 2) "{$leaf_{2}$}"
         (mkNodeInfo false false true false false true [0] [])].
Proof.
  intros t.
  destruct (leaf_path_suppressed "" "draw, dotted" addressFormat dataFormat
              " " 2 t "0.2" "{$leaf_{2}$}") as [H _];
    [vm_compute; lia | reflexivity | reflexivity | vm_compute; discriminate |].
  exact H.
Defined.

(** ** Marking the inclusion proof (C6) *)

Lemma int64_small z : - 2 ^ 63 ≤ z < 2 ^ 63 → int64 z = z.
Proof. intros H. unfold int64. rewrite Z.mod_small; lia. Qed.

Lemma u64_small z : 0 ≤ z < 2 ^ 64 → u64 z = z.
Proof. intros H. unfold u64. by rewrite Z.mod_small. Qed.

Lemma set_proof_idemp n : set_proof true (set_proof true n) = set_proof true n.
Proof. done. Qed.

Lemma skipped_spec b e i :
  skipped b e i = true ↔ (b ≤ Z.of_nat i < e) ∧ 1 < e - b.
Proof.
  unfold skipped. rewrite !andb_true_iff, Z.leb_le, !Z.ltb_lt. lia.
Qed.

Lemma markedFrom_spec b e ids id : ∀ i,
  markedFrom b e i ids id = true
  ↔ ∃ k, ids !! k = Some id ∧ ¬ ((b ≤ Z.of_nat (i + k) < e) ∧ 1 < e - b).
Proof.
  induction ids as [|x rest IH]; intros i; simpl.
  - split; [done|]. intros (k & Hk & _). by rewrite lookup_nil in Hk.
  - rewrite orb_true_iff, andb_true_iff, bool_decide_eq_true, negb_true_iff,
      IH. split.
    + intros [[-> Hs]|(k & Hk & Hns)].
      * exists 0%nat. split; [done|]. rewrite <- skipped_spec.
        replace (i + 0)%nat with i by lia. by rewrite Hs.
      * exists (S k). split; [done|].
        by replace (i + S k)%nat with (S i + k)%nat by lia.
    + intros ([|k] & Hk & Hns); simpl in Hk.
      * left. injection Hk as ->. split; [done|].
        replace (i + 0)%nat with i in Hns by lia.
        rewrite <- skipped_spec in Hns. by destruct (skipped b e i).
      * right. exists k. split; [done|].
        by replace (S i + k)%nat with (i + S k)%nat by lia.
Qed.

Lemma markProofNodes_spec (b e : Z) (ids : list NodeID) :
  0 ≤ b < 2 ^ 62 →
  ∀ (i : nat) (t : table),
    Z.of_nat i + Z.of_nat (length ids) < 2 ^ 63 →
    ∃ t', markProofNodes b e (Z.of_nat i) ids t = Ok () t' []
      ∧ ∀ id, t' !!! id = if markedFrom b e i ids id
                          then set_proof true (t !!! id) else t !!! id.
Proof.
  intros Hb. induction ids as [|x rest IH]; intros i t Hlen.
  - by exists t.
  - simpl in Hlen. cbn [markProofNodes markedFrom].
    rewrite (int64_small (b + 1)), (int64_small (Z.of_nat i + 1)) by lia.
    replace (Z.of_nat i + 1) with (Z.of_nat (S i)) by lia.
    fold (skipped b e i).
    destruct (skipped b e i) eqn:Hs.
    + destruct (IH (S i) t) as (t' & Hrun & Hspec); [lia|].
      exists t'. split.
      { erewrite bind_Ok by done. by rewrite Hrun. }
      intros id. rewrite Hspec. by rewrite andb_false_r.
    + destruct (IH (S i) (<[x := set_proof true (t !!! x)]> t))
        as (t' & Hrun & Hspec); [lia|].
      exists t'. split.
      { erewrite bind_Ok by apply modifyNodeInfo_Ok. by rewrite Hrun. }
      intros id. rewrite Hspec, lookup_total_modify, andb_true_r.
      case_bool_decide; subst; simpl.
      * rewrite decide_True by done. by destruct (markedFrom _ _ _ _ _).
      * by rewrite decide_False by done.
Qed.

(** The marking ends normally, having printed nothing; it sets [proof] on
    the entries that the loop marks and on the parent of the last entry of a
    span of more than one. *)
Lemma markProof_spec (nodes : proof.Nodes) (t : table) :
  0 ≤ proof.begin nodes ≤ proof.end_ nodes
  ∧ proof.end_ nodes ≤ Z.of_nat (length (proof.IDs nodes)) →
  Z.of_nat (length (proof.IDs nodes)) < 2 ^ 62 →
  ∃ t', markProof nodes t = Ok () t' []
    ∧ ∀ id, t' !!! id =
            if markedFrom (proof.begin nodes) (proof.end_ nodes) 0
                 (proof.IDs nodes) id
               || (bool_decide (proof.begin nodes + 1 < proof.end_ nodes)
                   && bool_decide
                        (Parent <$> proof.IDs nodes
                                    !! Z.to_nat (proof.end_ nodes - 1)
                         = Some id))
            then set_proof true (t !!! id) else t !!! id.
Proof.
  destruct nodes as [ids b e ep]. simpl. intros Hspan Hlen.
  destruct (markProofNodes_spec b e ids ltac:(lia) 0%nat t ltac:(simpl; lia))
    as (t1 & Hrun & Hspec).
  unfold markProof, proof.Ephem. simpl.
  erewrite bind_Ok by exact Hrun.
  rewrite (int64_small (b + 1)) by lia.
  destruct (b + 1 <? e) eqn:Hbe.
  - apply Z.ltb_lt in Hbe. rewrite (bool_decide_true (b + 1 < e)) by done.
    rewrite (int64_small (e - 1)) by lia.
    destruct (e - 1 <? 0) eqn:Hneg; [apply Z.ltb_lt in Hneg; lia|].
    destruct (ids !! Z.to_nat (e - 1)) as [last|] eqn:Hlast.
    2:{ apply lookup_ge_None in Hlast. lia. }
    erewrite bind_Ok by done.
    rewrite modifyNodeInfo_Ok. simpl.
    eexists. split; [done|]. intros id.
    rewrite lookup_total_modify, !Hspec.
    case_decide as Hp.
    + subst id. rewrite bool_decide_true by done. rewrite orb_true_r.
      by destruct (markedFrom _ _ _ _ _).
    + rewrite (bool_decide_false (Some (Parent last) = Some id)) by congruence.
      by rewrite orb_false_r.
  - apply Z.ltb_ge in Hbe. rewrite (bool_decide_false (b + 1 < e)) by lia.
    exists t1. split; [done|]. intros id. by rewrite Hspec, orb_false_r.
Qed.

(** C6.  Given the node list of an inclusion proof and its ephemeral span
    [[begin, end)] (indices into the list), the marking prints nothing and
    sets [proof] on exactly the marked nodes: every entry of the list except
    the entries of the span when the span has more than one entry, and in
    that case also the parent of the last entry of the span.  Every other
    entry of the table, and every other field, is left as it was; with a
    span of at most one entry every listed node is marked and no parent
    is. *)
Theorem proof_marking (nodes : proof.Nodes) (t : table)
    (Hspan : 0 ≤ proof.begin nodes ≤ proof.end_ nodes
             ∧ proof.end_ nodes ≤ Z.of_nat (length (proof.IDs nodes)))
    (Hlen : Z.of_nat (length (proof.IDs nodes)) < 2 ^ 62) :
  ∃ t', markProof nodes t = Ok () t' []
    ∧ ∀ id, (isMarked nodes id → t' !!! id = set_proof true (t !!! id))
            ∧ (¬ isMarked nodes id → t' !!! id = t !!! id).
Proof.
  destruct (markProof_spec nodes t Hspan Hlen) as (t' & Hrun & Hspec).
  exists t'. split; [done|]. intros id. rewrite Hspec. clear Hrun Hspec.
  destruct nodes as [ids b e ep]. unfold isMarked, inSpan. simpl in *.
  assert (Hloop : markedFrom b e 0 ids id = true
            ↔ ∃ i, ids !! i = Some id ∧ ¬ ((b ≤ Z.of_nat i < e) ∧ 1 < e - b)).
  { by rewrite markedFrom_spec. }
  assert (Hparent : bool_decide (b + 1 < e)
                    && bool_decide (Parent <$> ids !! Z.to_nat (e - 1) = Some id)
                    = true
            ↔ 1 < e - b ∧ ∃ last, ids !! Z.to_nat (e - 1) = Some last
                                  ∧ id = Parent last).
  { rewrite andb_true_iff, !bool_decide_eq_true. split.
    - intros [Hbe Hl]. split; [lia|].
      destruct (ids !! Z.to_nat (e - 1)) as [last|]; [|done].
      exists last. split; [done|]. by injection Hl.
    - intros (Hbe & last & Hl & ->). split; [lia|]. by rewrite Hl. }
  split.
  - intros [Hin|Hp].
    + apply Hloop in Hin. by rewrite Hin.
    + apply Hparent in Hp. rewrite Hp. by rewrite orb_true_r.
  - intros Hno.
    destruct (markedFrom b e 0 ids id) eqn:Hm.
    { exfalso. apply Hno. left. by apply Hloop. }
    destruct (_ && _) eqn:Hp; [|done].
    exfalso. apply Hno. right. by apply Hparent.
Qed.

Lemma proof_marking_witness :
  ∃ t', markProof (proof.mkNodes
                     [NewNodeID 0 1; NewNodeID 1 1; NewNodeID 0 6; NewNodeID 1 2]
                     2 4 (NewNodeID 2 1)) ∅ = Ok () t' []
        ∧ t' !!! NewNodeID 2 1 = set_proof true zeroInfo
        ∧ t' !!! NewNodeID 0 1 = set_proof true zeroInfo
        ∧ t' !!! NewNodeID 0 6 = zeroInfo.
Proof.
  destruct (proof_marking
              (proof.mkNodes
                 [NewNodeID 0 1; NewNodeID 1 1; NewNodeID 0 6; NewNodeID 1 2]
                 2 4 (NewNodeID 2 1)) ∅) as (t' & Hrun & Hspec);
    [simpl; lia | simpl; lia |].
  exists t'. split; [exact Hrun|]. split_and!.
  - apply (Hspec (NewNodeID 2 1)). right. split; [simpl; lia|].
    by exists (NewNodeID 1 2).
  - apply (Hspec (NewNodeID 0 1)). left. exists 0%nat. split; [done|].
    unfold inSpan. simpl. lia.
  - apply (Hspec (NewNodeID 0 6)). unfold isMarked, inSpan. simpl.
    intros [(i & Hi & Hns)|(_ & last & Hl & Hp)].
    + destruct i as [|[|[|[|i]]]]; simplify_eq/=. apply Hns. lia.
    + simplify_eq/=.
Defined.

(** ** Computations that print nothing, and computations that never exit *)

Lemma silent_ret {A} (a : A) : silent (mret a).
Proof. by intros t. Qed.
Lemma silent_call {A} (x : option A) : silent (call x).
Proof. intros t. unfold call. by destruct x. Qed.
Lemma silent_Fatalf {A} e : silent (@Fatalf A e).
Proof. by intros t. Qed.
Lemma silent_readInfo id : silent (readInfo id).
Proof. by intros t. Qed.
Lemma silent_modifyNodeInfo id f : silent (modifyNodeInfo id f).
Proof. by intros t. Qed.
Lemma silent_bind {A B} (c : M A) (f : A → M B) :
  silent c → (∀ a, silent (f a)) → silent (c ≫= f).
Proof.
  intros Hc Hf t. specialize (Hc t). unfold mbind, M_bind.
  destruct (c t) as [a t1 o1| | |]; try done. subst.
  specialize (Hf a t1). by destruct (f a t1).
Qed.
Lemma silent_forEach {A} (xs : list A) (body : A → M unit) :
  (∀ x, silent (body x)) → silent (forEach xs body).
Proof.
  intros Hb. induction xs as [|x rest IH]; simpl.
  - apply silent_ret.
  - apply silent_bind; [apply Hb|done].
Qed.

Lemma noFatal_ret {A} (a : A) : noFatal (mret a).
Proof. by intros t e o. Qed.
Lemma noFatal_call {A} (x : option A) : noFatal (call x).
Proof. intros t e o. unfold call. by destruct x. Qed.
Lemma noFatal_print e : noFatal (print e).
Proof. by intros t e' o. Qed.
Lemma noFatal_readInfo id : noFatal (readInfo id).
Proof. by intros t e o. Qed.
Lemma noFatal_modifyNodeInfo id f : noFatal (modifyNodeInfo id f).
Proof. by intros t e o. Qed.
Lemma noFatal_OutOfFuel {A} : noFatal (λ _, @OutOfFuel A).
Proof. by intros t e o. Qed.
Lemma noFatal_bind {A B} (c : M A) (f : A → M B) :
  noFatal c → (∀ a, noFatal (f a)) → noFatal (c ≫= f).
Proof.
  intros Hc Hf t e o H. apply bind_Fatal_inv in H as [H|(a & t1 & o1 & o2 & _ & H & _)].
  - by apply Hc in H.
  - by apply Hf in H.
Qed.
Lemma noFatal_forEach {A} (xs : list A) (body : A → M unit) :
  (∀ x, noFatal (body x)) → noFatal (forEach xs body).
Proof.
  intros Hb. induction xs as [|x rest IH]; simpl.
  - apply noFatal_ret.
  - apply noFatal_bind; [apply Hb|done].
Qed.

Global Hint Resolve silent_ret silent_call silent_Fatalf silent_readInfo
  silent_modifyNodeInfo silent_bind silent_forEach
  noFatal_ret noFatal_call noFatal_print noFatal_readInfo
  noFatal_modifyNodeInfo noFatal_OutOfFuel noFatal_bind noFatal_forEach
  : effects.

(** ** Ranges (C8) *)

Section RangeProps.

Variable Sscanf : string → option (Z * Z).

Lemma parsePairs_inl treeSize rangePairs : ∀ ret rs,
  parsePairs Sscanf treeSize rangePairs ret = inl rs
  ↔ ∃ new, rs = ret ++ new ∧ Forall2 (accepted Sscanf treeSize) rangePairs new.
Proof.
  induction rangePairs as [|rng rest IH]; intros ret rs; simpl.
  - split.
    + intros [= <-]. exists []. by rewrite app_nil_r.
    + intros (new & -> & Hf). apply Forall2_nil_inv_l in Hf as ->.
      by rewrite app_nil_r.
  - split.
    + intros H.
      destruct (length (Split rng ":") =? 2)%nat eqn:Hlen; [|done].
      apply Nat.eqb_eq in Hlen. simpl in H.
      destruct (Sscanf rng) as [[l r]|] eqn:Hscan; [|done].
      destruct (treeSize <? r) eqn:Hr; [done|]. apply Z.ltb_ge in Hr.
      destruct (r <? l) eqn:Hl; [done|]. apply Z.ltb_ge in Hl.
      apply IH in H as (new & -> & Hf).
      exists ((l, r) :: new). split; [by rewrite <- app_assoc|].
      by constructor.
    + intros (new & -> & Hf).
      apply Forall2_cons_inv_l in Hf
        as ([l r] & new' & (Hlen & Hscan & Hl & Hr) & Hf & ->).
      simpl in *. rewrite Hlen, Hscan. simpl.
      rewrite (proj2 (Z.ltb_ge _ _) Hr), (proj2 (Z.ltb_ge _ _) Hl).
      apply IH. exists new'. split; [by rewrite <- app_assoc|done].
Qed.

(** [parseRanges] accepts exactly the flags of at most three pieces, each
    of them a well-formed range in order and within the tree. *)
Lemma parseRanges_inl ranges treeSize rs :
  parseRanges Sscanf ranges treeSize = inl rs
  ↔ (length (Split ranges ",") ≤ 3)%nat
    ∧ Forall2 (accepted Sscanf treeSize) (Split ranges ",") rs.
Proof.
  unfold parseRanges, maxRanges.
  destruct (3 <? Z.of_nat (length (Split ranges ","))) eqn:Hn.
  - apply Z.ltb_lt in Hn. split; [done|]. lia.
  - apply Z.ltb_ge in Hn. rewrite parsePairs_inl. split.
    + intros (new & -> & Hf). split; [lia|done].
    + intros [_ Hf]. by exists rs.
Qed.

Lemma parseRanges_rejects ranges treeSize :
  (3 < length (Split ranges ","))%nat
  ∨ (∃ rng l r, rng ∈ Split ranges "," ∧ Sscanf rng = Some (l, r)
                ∧ (r < l ∨ treeSize < r)) →
  ∃ e, parseRanges Sscanf ranges treeSize = inr e.
Proof.
  intros Hbad.
  destruct (parseRanges Sscanf ranges treeSize) as [rs|e] eqn:Hp;
    [|by exists e].
  exfalso. apply parseRanges_inl in Hp as [Hn Hf].
  destruct Hbad as [Hbad|(rng & l & r & Hin & Hscan & Hbad)]; [lia|].
  apply list_elem_of_lookup in Hin as [k Hk].
  destruct (Forall2_lookup_l _ _ _ _ _ Hf Hk)
    as ([l' r'] & _ & (_ & Hscan' & Hl & Hr)).
  rewrite Hscan in Hscan'. injection Hscan' as <- <-. simpl in *. lia.
Qed.

Lemma mark_leaves ri (k : nat) : ∀ l (t : table),
  ∃ t', forEach (seqZ l (Z.of_nat k))
          (λ i, modifyNodeInfo (NewNodeID 0 i) (appendDataRange ri)) t
        = Ok () t' []
    ∧ ∀ id, t' !!! id =
            if bool_decide (Level id = 0 ∧ l ≤ Index id < l + Z.of_nat k)
            then appendDataRange ri (t !!! id) else t !!! id.
Proof.
  induction k as [|k IH]; intros l t.
  - exists t. split; [done|]. intros id. rewrite bool_decide_false; [done|lia].
  - rewrite seqZ_cons by lia.
    replace (Z.pred (Z.of_nat (S k))) with (Z.of_nat k) by lia.
    cbn [forEach].
    destruct (IH (Z.succ l)
                (<[NewNodeID 0 l := appendDataRange ri (t !!! NewNodeID 0 l)]> t))
      as (t' & Hrun & Hspec).
    exists t'. split.
    { erewrite bind_Ok by apply modifyNodeInfo_Ok. by rewrite Hrun. }
    intros id. rewrite Hspec, lookup_total_modify.
    destruct id as [lv ix]. simpl.
    repeat (case_bool_decide || case_decide); simplify_eq/=; try done;
      try lia.
    destruct_and?. subst. destruct (decide (ix = l)) as [->|]; [done|lia].
Qed.

Lemma mark_roots ri (ids : list NodeID) : ∀ (t : table),
  ∃ t', forEach ids (λ id, modifyNodeInfo id (appendRange ri)) t = Ok () t' []
    ∧ ∀ id, dataRangeIndices (t' !!! id) = dataRangeIndices (t !!! id).
Proof.
  induction ids as [|x rest IH]; intros t.
  - by exists t.
  - cbn [forEach].
    destruct (IH (<[x := appendRange ri (t !!! x)]> t)) as (t' & Hrun & Hspec).
    exists t'. split.
    { erewrite bind_Ok by apply modifyNodeInfo_Ok. by rewrite Hrun. }
    intros id. rewrite Hspec, lookup_total_modify. by case_decide; subst.
Qed.

Lemma applyRanges_spec (rs : list (Z * Z)) : ∀ ri (t : table),
  ∃ t', applyRanges ri rs t = Ok () t' []
    ∧ ∀ id, dataRangeIndices (t' !!! id) =
            dataRangeIndices (t !!! id)
            ++ (if bool_decide (Level id = 0)
                then rangesOf ri rs (Index id) else []).
Proof.
  induction rs as [|[l r] rest IH]; intros ri t.
  - exists t. split; [done|]. intros id. case_bool_decide; by rewrite app_nil_r.
  - cbn [applyRanges rangesOf].
    destruct (mark_leaves ri (Z.to_nat (r - l)) l t) as (t1 & Hrun1 & Hspec1).
    destruct (mark_roots ri (RangeNodes l r []) t1) as (t2 & Hrun2 & Hspec2).
    destruct (IH (ri + 1) t2) as (t3 & Hrun3 & Hspec3).
    exists t3. split.
    { assert (Hseq : seqZ l (r - l) = seqZ l (Z.of_nat (Z.to_nat (r - l)))).
      { unfold seqZ. by rewrite Nat2Z.id. }
      rewrite Hseq. erewrite bind_Ok by exact Hrun1.
      erewrite bind_Ok by exact Hrun2. by rewrite Hrun3. }
    intros id. rewrite Hspec3, Hspec2, Hspec1.
    destruct id as [lv ix]. simpl.
    repeat (case_bool_decide || case_match); simplify_eq/=;
      rewrite ?app_nil_r, <- ?app_assoc; try done; lia.
Qed.

Lemma modifyRangeNodeInfo_spec ranges treeSize (t : table) :
  silent (modifyRangeNodeInfo Sscanf ranges treeSize)
  ∧ match parseRanges Sscanf ranges treeSize with
    | inr e => modifyRangeNodeInfo Sscanf ranges treeSize t = Ok (Some e) t []
    | inl rs =>
        ∃ t', modifyRangeNodeInfo Sscanf ranges treeSize t = Ok None t' []
          ∧ ∀ i, dataRangeIndices (t' !!! NewNodeID 0 i) =
                 dataRangeIndices (t !!! NewNodeID 0 i) ++ rangesOf 0 rs i
    end.
Proof.
  unfold modifyRangeNodeInfo. split.
  - intros t0. destruct (parseRanges Sscanf ranges treeSize) as [rs|e]; [|done].
    destruct (applyRanges_spec rs 0 t0) as (t' & Hrun & _).
    erewrite bind_Ok by exact Hrun. done.
  - destruct (parseRanges Sscanf ranges treeSize) as [rs|e]; [|done].
    destruct (applyRanges_spec rs 0 t) as (t' & Hrun & Hspec).
    exists t'. split.
    + erewrite bind_Ok by exact Hrun. done.
    + intros i. by rewrite Hspec.
Qed.

End RangeProps.

(** ** The inclusion proof of [main] (C5) *)

Lemma rightNodes_length fuel : ∀ pos rmask ids,
  (length ids ≤ length (rightNodes fuel pos rmask ids) ≤ length ids + fuel)%nat.
Proof.
  induction fuel as [|fuel IH]; intros pos rmask ids; simpl; [lia|].
  destruct (rmask =? 0); [lia|].
  match goal with |- context [rightNodes fuel ?p ?r ?l] =>
    specialize (IH p r l) end.
  rewrite length_app in IH. simpl in IH. lia.
Qed.

Lemma leftNodes_length fuel : ∀ pos lmask ids,
  (length ids ≤ length (leftNodes fuel pos lmask ids).2 ≤ length ids + fuel)%nat.
Proof.
  induction fuel as [|fuel IH]; intros pos lmask ids; simpl; [lia|].
  destruct (lmask =? 0); [simpl; lia|].
  match goal with |- context [leftNodes fuel ?p ?r ?l] =>
    specialize (IH p r l) end.
  rewrite length_app in IH. simpl in IH. lia.
Qed.

Lemma RangeNodes_length b e ids :
  (length (RangeNodes b e ids) ≤ length ids + 128)%nat.
Proof.
  unfold RangeNodes. destruct (Decompose b e) as [lmask rmask].
  pose proof (leftNodes_length 64 b lmask ids) as Hl.
  destruct (leftNodes 64 b lmask ids) as [pos ids1]. simpl in Hl.
  pose proof (rightNodes_length 64 pos rmask ids1). lia.
Qed.

Lemma siblings_length fuel : ∀ node forkLevel acc,
  (length acc ≤ length (proof.siblings fuel node forkLevel acc)
   ≤ length acc + fuel)%nat.
Proof.
  induction fuel as [|fuel IH]; intros node forkLevel acc; simpl; [lia|].
  destruct (Level node <? forkLevel); [|lia].
  match goal with |- context [proof.siblings fuel ?p ?r ?l] =>
    specialize (IH p r l) end.
  rewrite length_app in IH. simpl in IH. lia.
Qed.

(** The span that [proof.Inclusion] returns lies within the list. *)
Lemma Inclusion_span index size nodes :
  proof.Inclusion index size = Some nodes →
  (0 ≤ proof.begin nodes ≤ proof.end_ nodes
   ∧ proof.end_ nodes ≤ Z.of_nat (length (proof.IDs nodes)))
  ∧ Z.of_nat (length (proof.IDs nodes)) < 2 ^ 62.
Proof.
  unfold proof.Inclusion. destruct (size <=? index); [done|].
  intros [= <-]. unfold proof.nodes.
  destruct (Coverage _) as [b e].
  match goal with |- context [proof.siblings ?f ?n ?l ?a] =>
    pose proof (siblings_length f n l a) as Hs;
    set (sib := proof.siblings f n l a) in *
  end.
  pose proof (RangeNodes_length e size []) as Hr.
  pose proof (RangeNodes_length 0 b []) as Hl.
  set (rs := RangeNodes e size []) in *. set (ls := RangeNodes 0 b []) in *.
  simpl in Hs, Hr, Hl.
  assert (Hpow : 1000 < 2 ^ 62) by (by vm_compute).
  unfold proof.skipFirst.
  destruct (Z.of_nat (length (sib ++ rev rs)) <=? Z.of_nat (length sib)) eqn:Hc;
    simpl.
  - rewrite List.length_tl, !length_app, !length_rev. lia.
  - apply Z.leb_gt in Hc. rewrite length_app, length_rev in Hc.
    rewrite (proj2 (Z.ltb_lt _ _)) by (rewrite length_app, length_rev; lia).
    simpl. rewrite List.length_tl, !length_app, !length_rev. lia.
Qed.

Lemma markIncPath_spec leafIndex height :
  0 ≤ height < 2 ^ 63 →
  ∀ fuel level (t : table),
    0 ≤ level →
    (Z.to_nat (height - level) < fuel)%nat →
    ∃ t', markIncPath fuel (NewNodeID level (Z.shiftr leafIndex level)) height t
          = Ok () t' []
      ∧ ∀ id, t' !!! id = if decide (onPath leafIndex level height id)
                          then set_incPath true (t !!! id) else t !!! id.
Proof.
  intros Hh. induction fuel as [|fuel IH]; intros level t Hl Hfuel; [lia|].
  cbn [markIncPath Level].
  destruct (level <? height) eqn:Hlt.
  - apply Z.ltb_lt in Hlt.
    assert (Hparent : Parent (NewNodeID level (Z.shiftr leafIndex level))
                      = NewNodeID (level + 1) (Z.shiftr leafIndex (level + 1))).
    { unfold Parent, shr64. simpl. rewrite u64_small by lia.
      by rewrite Z.shiftr_shiftr by lia. }
    rewrite Hparent.
    set (leafNode := NewNodeID level (Z.shiftr leafIndex level)).
    destruct (IH (level + 1) (<[leafNode := set_incPath true (t !!! leafNode)]> t))
      as (t' & Hrun & Hspec); [lia|lia|].
    exists t'. split.
    { erewrite bind_Ok by apply modifyNodeInfo_Ok. by rewrite Hrun. }
    intros id. rewrite Hspec, lookup_total_modify. unfold onPath, leafNode.
    destruct id as [lv ix]. simpl.
    repeat case_decide; simplify_eq/=; try done; try lia.
    destruct_and?. destruct (decide (lv = level)) as [->|]; [by subst|lia].
  - apply Z.ltb_ge in Hlt. exists t. split; [done|]. intros id.
    rewrite decide_False; [done|]. unfold onPath. lia.
Qed.

Lemma u64_range z : 0 ≤ u64 z < 2 ^ 64.
Proof. unfold u64. apply Z.mod_pos_bound. lia. Qed.

Lemma Len64_range x : 0 ≤ x < 2 ^ 64 → 0 ≤ bits.Len64 x ≤ 64.
Proof.
  intros Hx. unfold bits.Len64. destruct (x =? 0) eqn:E; [lia|].
  apply Z.eqb_neq in E.
  pose proof (Z.log2_nonneg x).
  assert (Z.log2 x < 64) by (apply Z.log2_lt_pow2; lia). lia.
Qed.

Lemma height_range size :
  1 ≤ u64 (u64 (bits.Len64 (u64 (size - 1))) + 1) ≤ 65.
Proof.
  pose proof (Len64_range _ (u64_range (size - 1))).
  rewrite (u64_small (bits.Len64 _)) by lia. rewrite u64_small; lia.
Qed.

(** ** [main] exits before it prints, or does not exit *)

Section MainProps.

Variable Sscanf : string → option (Z * Z).

Lemma silent_markProofNodes b e ids : ∀ i, silent (markProofNodes b e i ids).
Proof.
  induction ids as [|x rest IH]; intros i; simpl; [apply silent_ret|].
  apply silent_bind; [|done]. destruct (_ && _); auto with effects.
Qed.

Lemma silent_markProof nodes : silent (markProof nodes).
Proof.
  unfold markProof. destruct (proof.Ephem nodes) as [[ep b] e].
  apply silent_bind; [apply silent_markProofNodes|]. intros _.
  destruct (_ <? _); auto with effects.
Qed.

Lemma silent_markIncPath fuel : ∀ id height, silent (markIncPath fuel id height).
Proof.
  induction fuel as [|fuel IH]; intros id height; simpl; [done|].
  destruct (_ <? _); auto with effects.
Qed.

Lemma silent_markInclusion inclusion_ treeSize_ height :
  silent (markInclusion inclusion_ treeSize_ height).
Proof.
  unfold markInclusion. destruct (0 <? inclusion_); [|apply silent_ret].
  apply silent_bind; [apply silent_modifyNodeInfo|]. intros _.
  destruct (proof.Inclusion _ _); [|apply silent_Fatalf].
  apply silent_bind; [apply silent_markProof|]. intros _.
  apply silent_markIncPath.
Qed.

Lemma silent_markRanges ranges_ treeSize_ :
  silent (markRanges Sscanf ranges_ treeSize_).
Proof.
  unfold markRanges. case_bool_decide; [|apply silent_ret].
  apply silent_bind.
  - intros t. apply (modifyRangeNodeInfo_spec Sscanf ranges_ treeSize_ t).
  - intros [e|]; auto with effects.
Qed.

(** The block of the inclusion proof ends normally, or exits because the
    leaf is not in the tree; it never panics. *)
Lemma markInclusion_settles inclusion_ treeSize_ height (t : table) :
  1 ≤ height ≤ 65 →
  (∃ t', markInclusion inclusion_ treeSize_ height t = Ok () t' [])
  ∨ markInclusion inclusion_ treeSize_ height t = Fatal InclusionFailed [].
Proof.
  intros Hh. unfold markInclusion.
  destruct (0 <? inclusion_); [|left; by eexists].
  erewrite bind_Ok by apply modifyNodeInfo_Ok.
  set (leafID := NewNodeID 0 (u64 inclusion_)).
  set (t1 := <[leafID := _]> t).
  destruct (proof.Inclusion (u64 inclusion_) treeSize_) as [nodes|] eqn:Hinc;
    [|by right].
  left. apply Inclusion_span in Hinc as [Hspan Hlen].
  destruct (markProof_spec nodes t1 Hspan Hlen) as (t2 & Hrun & _).
  erewrite bind_Ok by exact Hrun.
  destruct (markIncPath_spec (u64 inclusion_) height ltac:(lia)
              (S (Z.to_nat height)) 0 t2 ltac:(lia) ltac:(lia))
    as (t3 & Hrun3 & _).
  rewrite Z.shiftr_0_r in Hrun3. fold leafID in Hrun3. rewrite Hrun3.
  by exists t3.
Qed.

End MainProps.

Section RenderNeverExits.

Variables apr aen : string.
Variables treeSize megaMode : Z.
Variables nodeText dataText : nodeTextFunc.

Lemma noFatal_hiddenNodes i : ∀ deferred, noFatal (hiddenNodes i deferred).
Proof. induction i; intros deferred; simpl; auto with effects. Qed.

Lemma noFatal_runDeferred deferred : noFatal (runDeferred deferred).
Proof. unfold runDeferred. auto with effects. Qed.

Lemma noFatal_perfectMega prefix id : noFatal (perfectMega treeSize prefix id).
Proof.
  unfold perfectMega. destruct (Coverage id).
  repeat (apply noFatal_bind; [auto with effects|intros ?]).
  - apply noFatal_hiddenNodes.
  - apply noFatal_runDeferred.
Qed.

Lemma noFatal_drawLeaf prefix index :
  noFatal (drawLeaf apr aen nodeText dataText prefix index).
Proof.
  unfold drawLeaf.
  repeat (apply noFatal_bind; [auto with effects|intros ?]).
  auto with effects.
Qed.

Lemma noFatal_openInnerNode prefix id :
  noFatal (openInnerNode apr aen nodeText prefix id).
Proof.
  unfold openInnerNode.
  repeat (apply noFatal_bind; [auto with effects|intros ?]).
  auto with effects.
Qed.

Lemma noFatal_perfectInner fuel : ∀ prefix id top,
  noFatal (perfectInner apr aen treeSize megaMode nodeText dataText
             fuel prefix id top).
Proof.
  induction fuel as [|fuel IH]; intros prefix id top; simpl;
    [apply noFatal_OutOfFuel|].
  apply noFatal_bind; [auto with effects|intros _].
  destruct (Level id =? 0); [apply noFatal_drawLeaf|].
  apply noFatal_bind; [apply noFatal_openInnerNode|intros close].
  apply noFatal_bind; [|auto with effects].
  destruct (megaMode <? Level id); [apply noFatal_perfectMega|].
  apply noFatal_bind; auto.
Qed.

Lemma noFatal_renderRoots n ids : ∀ i prefix deferred,
  noFatal (renderRoots apr aen treeSize megaMode nodeText dataText
             n i ids prefix deferred).
Proof.
  induction ids as [|id rest IH]; intros i prefix deferred; simpl;
    [apply noFatal_ret|].
  apply noFatal_bind.
  - destruct (i + 1 <? n); [|apply noFatal_ret].
    apply noFatal_bind; [auto with effects|intros _].
    apply noFatal_bind; [apply noFatal_openInnerNode|auto with effects].
  - intros d. apply noFatal_bind; [apply noFatal_perfectInner|auto].
Qed.

Lemma noFatal_renderTree prefix size :
  noFatal (renderTree apr aen treeSize megaMode nodeText dataText prefix size).
Proof.
  unfold renderTree. apply noFatal_bind; [apply noFatal_renderRoots|].
  intros d. apply noFatal_runDeferred.
Qed.

End RenderNeverExits.

Section MainOutcome.

Variable Sscanf : string → option (Z * Z).

(** Whatever the flags, an exit of [main] through [log.Fatalf] happens
    before anything is printed. *)
Lemma main_Fatal_silent fl (t : table) e o :
  main Sscanf fl t = Fatal e o → o = [].
Proof.
  unfold main. destruct (nodeFormats (nodeFormat fl)) as [nt|];
    [|by intros [= _ <-]].
  destruct (leafDataOverride fl) as [ts df].
  intros H. apply bind_Fatal_inv in H as [H|(a & t1 & o1 & o2 & H1 & H & ->)].
  { pose proof (silent_markInclusion (inclusion fl) ts
                  (u64 (u64 (bits.Len64 (u64 (treeSize fl - 1))) + 1)) t) as Hs.
    by rewrite H in Hs. }
  pose proof (silent_markInclusion (inclusion fl) ts
                (u64 (u64 (bits.Len64 (u64 (treeSize fl - 1))) + 1)) t) as Hs.
  rewrite H1 in Hs. subst o1. simpl.
  apply bind_Fatal_inv in H as [H|(a2 & t2 & o3 & o4 & H2 & H & ->)].
  { pose proof (silent_markRanges Sscanf (ranges fl) ts t1) as Hs.
    by rewrite H in Hs. }
  exfalso. revert H.
  apply noFatal_bind; [apply noFatal_print|intros _].
  apply noFatal_bind; [apply noFatal_renderTree|intros _].
  apply noFatal_print.
Qed.

(** When the ranges are rejected, [main] exits without output. *)
Lemma main_rejects_ranges fl e :
  ranges fl ≠ "" →
  parseRanges Sscanf (ranges fl) (leafDataOverride fl).1 = inr e →
  ∃ e', main Sscanf fl ∅ = Fatal e' [].
Proof.
  intros Hne Hparse. unfold main.
  destruct (nodeFormats (nodeFormat fl)) as [nt|]; [|by eexists].
  destruct (leafDataOverride fl) as [ts df]. simpl in Hparse.
  destruct (markInclusion_settles (inclusion fl) ts _ ∅
              (height_range (treeSize fl))) as [(t1 & Hrun)|Hrun].
  2:{ exists InclusionFailed. unfold mbind, M_bind. by rewrite Hrun. }
  erewrite bind_Ok by exact Hrun.
  exists (RangeStylesFailed e).
  assert (Hr : markRanges Sscanf (ranges fl) ts t1
               = Fatal (RangeStylesFailed e) []).
  { unfold markRanges. rewrite bool_decide_true.
    - pose proof (modifyRangeNodeInfo_spec Sscanf (ranges fl) ts t1) as [_ Hm].
      rewrite Hparse in Hm. unfold mbind, M_bind. by rewrite Hm.
    - destruct (ranges fl); [done|simpl; lia]. }
  unfold mbind, M_bind. by rewrite Hr.
Qed.

End MainOutcome.

(** ** Fields that a computation leaves alone *)

Section Preserves.

Context {X : Type} (P : nodeInfo → X).

Local Ltac prim H :=
  cbv [mret M_ret print readInfo call Fatalf modifyNodeInfo] in H;
  try case_match; simplify_eq.

Lemma preserves_ret {A} (a : A) : preserves P (mret a).
Proof. intros t a' t' o H. by prim H. Qed.
Lemma preserves_call {A} (x : option A) : preserves P (call x).
Proof. intros t a' t' o H. by prim H. Qed.
Lemma preserves_print e : preserves P (print e).
Proof. intros t a' t' o H. by prim H. Qed.
Lemma preserves_readInfo id : preserves P (readInfo id).
Proof. intros t a' t' o H. by prim H. Qed.
Lemma preserves_Fatalf {A} e : preserves P (@Fatalf A e).
Proof. intros t a' t' o H. by prim H. Qed.
Lemma preserves_OutOfFuel {A} : preserves P (λ _, @OutOfFuel A).
Proof. by intros t a' t' o. Qed.
Lemma preserves_modifyNodeInfo id f :
  (∀ n, P (f n) = P n) → preserves P (modifyNodeInfo id f).
Proof.
  intros Hf t a' t' o H id'. prim H. rewrite lookup_total_modify.
  case_decide; by subst.
Qed.
Lemma preserves_bind {A B} (c : M A) (f : A → M B) :
  preserves P c → (∀ a, preserves P (f a)) → preserves P (c ≫= f).
Proof.
  intros Hc Hf t b t' o H.
  apply bind_Ok_inv in H as (a & t1 & o1 & o2 & H1 & H2 & _).
  intros id. by rewrite (Hf _ _ _ _ _ H2), (Hc _ _ _ _ H1).
Qed.
Lemma preserves_forEach {A} (xs : list A) (body : A → M unit) :
  (∀ x, preserves P (body x)) → preserves P (forEach xs body).
Proof.
  intros Hb. induction xs as [|x rest IH]; simpl.
  - apply preserves_ret.
  - apply preserves_bind; [apply Hb|done].
Qed.

End Preserves.

Global Hint Resolve preserves_ret preserves_call preserves_print
  preserves_readInfo preserves_Fatalf preserves_OutOfFuel preserves_bind
  preserves_forEach : effects.

Lemma preserves_markProof {X} (P : nodeInfo → X) nodes :
  (∀ n, P (set_proof true n) = P n) → preserves P (markProof nodes).
Proof.
  intros HP. unfold markProof. destruct (proof.Ephem nodes) as [[ep b] e].
  apply preserves_bind.
  - generalize 0. induction (proof.IDs nodes) as [|x rest IH]; intros i; simpl;
      [apply preserves_ret|].
    apply preserves_bind; [|done].
    destruct (_ && _); [apply preserves_ret|by apply preserves_modifyNodeInfo].
  - intros _. destruct (_ <? _); [|apply preserves_ret].
    apply preserves_bind; [apply preserves_call|].
    intros id. by apply preserves_modifyNodeInfo.
Qed.

(** For a target leaf [t > 0] of the tree, the block of the inclusion proof
    marks [incPath] on the nodes of the path of [t], from the leaf to the
    level below [height], and on no other node. *)
Lemma markInclusion_marks_path (t size height : Z) (t0 : table) :
  0 < t < 2 ^ 63 → t < size → 1 ≤ height ≤ 65 →
  (∀ id, incPath (t0 !!! id) = false) →
  ∃ t', markInclusion t size height t0 = Ok () t' []
    ∧ ∀ id, incPath (t' !!! id) = true ↔ onPath t 0 height id.
Proof.
  intros Ht Hsize Hh Hclean. unfold markInclusion.
  rewrite (proj2 (Z.ltb_lt 0 t)) by lia.
  rewrite (u64_small t) by lia.
  erewrite bind_Ok by apply modifyNodeInfo_Ok.
  set (leafID := NewNodeID 0 t).
  set (t1 := <[leafID := _]> t0).
  destruct (proof.Inclusion t size) as [nodes|] eqn:Hinc.
  2:{ unfold proof.Inclusion in Hinc.
      rewrite (proj2 (Z.leb_gt size t)) in Hinc by lia. done. }
  pose proof (Inclusion_span _ _ _ Hinc) as [Hspan Hlen].
  destruct (markProof_spec nodes t1 Hspan Hlen) as (t2 & Hrun & _).
  erewrite bind_Ok by exact Hrun.
  destruct (markIncPath_spec t height ltac:(lia)
              (S (Z.to_nat height)) 0 t2 ltac:(lia) ltac:(lia))
    as (t3 & Hrun3 & Hspec3).
  rewrite Z.shiftr_0_r in Hrun3. fold leafID in Hrun3. rewrite Hrun3.
  exists t3. split; [done|]. intros id. rewrite Hspec3.
  assert (H2 : incPath (t2 !!! id) = incPath (t1 !!! id)).
  { by apply (preserves_markProof incPath nodes ltac:(done) _ _ _ _ Hrun). }
  case_decide as Hon; [done|]. rewrite H2. unfold t1.
  rewrite lookup_total_modify. case_decide as Hid.
  - subst id. exfalso. apply Hon. unfold onPath, leafID. simpl.
    rewrite Z.shiftr_0_r. lia.
  - rewrite Hclean. done.
Qed.

(** C5, the failing input.  With [--inclusion=0], a leaf of the tree of size
    5, [main] marks nothing: the leaf 0 and its ancestors are printed with no
    path and no target, as if no inclusion proof had been asked for. *)
Theorem inclusion_zero_unmarked :
  ∃ t' o, main (λ _, None) (mkFlags 5 "" "address" 0 4 "" "" "draw, dotted") ∅
          = Ok () t' o
    ∧ noPathShown o = true
    ∧ incPath (t' !!! NewNodeID 0 0) = false
    ∧ incPath (t' !!! NewNodeID 3 0) = false.
Proof. do 2 eexists. split; [vm_compute; reflexivity|]. by vm_compute. Qed.

(** ** Ranges are checked, then applied (C8) *)

Lemma rangesOf_elem rs : ∀ ri i x,
  x ∈ rangesOf ri rs i
  ↔ ∃ k l r, rs !! k = Some (l, r) ∧ x = ri + Z.of_nat k ∧ l ≤ i < r.
Proof.
  induction rs as [|[l r] rest IH]; intros ri i x; simpl.
  - rewrite elem_of_nil. split; [done|]. intros (k & ? & ? & Hk & _).
    by rewrite lookup_nil in Hk.
  - rewrite elem_of_app, IH. split.
    + intros [Hx|(k & l' & r' & Hk & -> & Hin)].
      * destruct ((l <=? i) && (i <? r)) eqn:E; [|by apply elem_of_nil in Hx].
        apply list_elem_of_singleton in Hx as ->.
        exists 0%nat, l, r. split; [done|]. lia.
      * exists (S k), l', r'. split; [done|]. lia.
    + intros ([|k] & l' & r' & Hk & -> & Hin); simpl in Hk.
      * injection Hk as <- <-. left.
        rewrite (proj2 (andb_true_iff _ _)) by lia.
        apply list_elem_of_singleton. lia.
      * right. exists k, l', r'. split; [done|]. lia.
Qed.

Lemma rangesOf_sorted rs : ∀ ri i,
  StronglySorted Z.lt (rangesOf ri rs i)
  ∧ Forall (λ x, ri ≤ x) (rangesOf ri rs i).
Proof.
  induction rs as [|[l r] rest IH]; intros ri i; simpl; [by split; constructor|].
  destruct (IH (ri + 1) i) as [Hs Hge].
  assert (Hge' : Forall (λ x, ri < x) (rangesOf (ri + 1) rest i)).
  { eapply Forall_impl; [exact Hge|]. simpl. lia. }
  destruct ((l <=? i) && (i <? r)); simpl.
  - split; constructor; try done. eapply Forall_impl; [exact Hge'|]. simpl. lia.
  - split; [done|]. eapply Forall_impl; [exact Hge'|]. simpl. lia.
Qed.

(** C8.  With a nonempty [--ranges] flag: if it has more than three pieces,
    or a piece scanned as [l:r] with [l > r] or with [r] above the tree size,
    [parseRanges] returns an error, [modifyRangeNodeInfo] returns it with the
    table untouched, and [main] exits through [log.Fatalf] having printed
    nothing.  [parseRanges] accepts exactly the flags of at most three
    well-formed pieces in order and within the tree; for such a flag, the
    leaf [i] gets appended to its [dataRangeIndices] the positions of the
    ranges that contain it, [l <= i < r], in ascending order, and nothing
    else. *)
Theorem ranges_checked_and_applied (Sscanf : string → option (Z * Z))
    (fl : Flags) (t : table) (Hgiven : ranges fl ≠ "") :
  let size := (leafDataOverride fl).1 in
  let pieces := Split (ranges fl) "," in
  (((3 < length pieces)%nat
    ∨ (∃ rng l r, rng ∈ pieces ∧ Sscanf rng = Some (l, r)
                  ∧ (r < l ∨ size < r))) →
   (∃ e, parseRanges Sscanf (ranges fl) size = inr e
         ∧ modifyRangeNodeInfo Sscanf (ranges fl) size t = Ok (Some e) t [])
   ∧ ∃ e', main Sscanf fl ∅ = Fatal e' [])
  ∧ (∀ rs, parseRanges Sscanf (ranges fl) size = inl rs
           ↔ (length pieces ≤ 3)%nat ∧ Forall2 (accepted Sscanf size) pieces rs)
  ∧ (∀ rs, parseRanges Sscanf (ranges fl) size = inl rs →
       ∃ t', modifyRangeNodeInfo Sscanf (ranges fl) size t = Ok None t' []
         ∧ ∀ i,
             dataRangeIndices (t' !!! NewNodeID 0 i)
             = dataRangeIndices (t !!! NewNodeID 0 i) ++ rangesOf 0 rs i
             ∧ StronglySorted Z.lt (rangesOf 0 rs i)
             ∧ ∀ ri, ri ∈ rangesOf 0 rs i
                     ↔ ∃ k l r, rs !! k = Some (l, r) ∧ ri = Z.of_nat k
                                ∧ l ≤ i < r).
Proof.
  intros size pieces. split_and!.
  - intros Hbad.
    destruct (parseRanges_rejects Sscanf (ranges fl) size Hbad) as [e He].
    split.
    + exists e. split; [done|].
      pose proof (modifyRangeNodeInfo_spec Sscanf (ranges fl) size t) as [_ H].
      by rewrite He in H.
    + by apply (main_rejects_ranges Sscanf fl e).
  - intros rs. apply parseRanges_inl.
  - intros rs Hrs.
    pose proof (modifyRangeNodeInfo_spec Sscanf (ranges fl) size t) as [_ H].
    rewrite Hrs in H. destruct H as (t' & Hrun & Hspec).
    exists t'. split; [done|]. intros i. split_and!.
    + apply Hspec.
    + apply rangesOf_sorted.
    + intros ri. rewrite rangesOf_elem. by setoid_rewrite Z.add_0_l.
Qed.

Lemma ranges_checked_and_applied_witness :
  let scan := λ s : string, if decide (s = "2:5") then Some (2, 5) else None in
  ∃ t', modifyRangeNodeInfo scan "2:5" 8 ∅ = Ok None t' []
        ∧ dataRangeIndices (t' !!! NewNodeID 0 4) = [0]
        ∧ dataRangeIndices (t' !!! NewNodeID 0 5) = [].
Proof.
  intros scan.
  destruct (ranges_checked_and_applied scan
              (mkFlags 8 "" "address" (-1) 4 "2:5" "" "draw, dotted") ∅)
    as (_ & _ & H); [discriminate|].
  destruct (H [(2, 5)]) as (t' & Hrun & Hspec); [reflexivity|].
  exists t'. split; [exact Hrun|].
  split; [apply (Hspec 4)|apply (Hspec 5)].
Defined.

(** ** What [main] validates (C9) *)

(** C9, as the code has it.  [main] checks neither the tree size nor the
    collapse threshold.  With a tree size of 0 (and no leaf data, no target,
    no ranges, a known node format) it prints the preamble and the postfix
    with no node between them, whatever the threshold, 0 included.  The
    threshold never decides whether [main] exits.  What [main] does reject
    (an unknown node format, an inclusion target outside the tree, invalid
    ranges) it rejects through [log.Fatalf] before anything is printed. *)
Theorem main_validates_neither (Sscanf : string → option (Z * Z))
    (fl : Flags) (t : table)
    (Hsize : treeSize fl = 0) (Hdata : leafData fl = "")
    (Hincl : inclusion fl ≤ 0) (Hranges : ranges fl = "")
    (Hformat : is_Some (nodeFormats (nodeFormat fl))) :
  main Sscanf fl ∅ = Ok () ∅ [Preamble; Postfix]
  ∧ (∀ fl' t' e o m,
       main Sscanf fl' t' = Fatal e o →
       o = [] ∧ main Sscanf (withMegaMode m fl') t' = Fatal e []).
Proof.
  split.
  - destruct fl as [ts ld nf inc mm rg apr aen]. simpl in *. subst.
    destruct Hformat as [nt Hnt]. unfold main. simpl. rewrite Hnt.
    unfold markInclusion. rewrite (proj2 (Z.ltb_ge 0 inc)) by lia.
    reflexivity.
  - intros fl' t' e o m H.
    pose proof (main_Fatal_silent Sscanf fl' t' e o H) as ->.
    split; [done|]. revert H. unfold main.
    replace (nodeFormat (withMegaMode m fl')) with (nodeFormat fl') by done.
    replace (leafDataOverride (withMegaMode m fl')) with (leafDataOverride fl')
      by done.
    destruct (nodeFormats (nodeFormat fl')) as [nt|]; [|done].
    destruct (leafDataOverride fl') as [ts df]. cbn [withMegaMode treeSize
      inclusion ranges attrPerfectRoot attrEphemeralNode megaMode].
    intros H.
    apply bind_Fatal_inv in H as [H|(a & t1 & o1 & o2 & H1 & H & Ho)].
    { unfold mbind, M_bind. by rewrite H. }
    symmetry in Ho. apply app_eq_nil in Ho as [-> ->].
    erewrite bind_Ok by exact H1.
    apply bind_Fatal_inv in H as [H|(a2 & t2 & o3 & o4 & H2 & H & Ho)].
    { unfold mbind, M_bind. by rewrite H. }
    exfalso. revert H.
    apply noFatal_bind; [apply noFatal_print|intros _].
    apply noFatal_bind; [apply noFatal_renderTree|intros _].
    apply noFatal_print.
Qed.

Lemma main_validates_neither_witness :
  main (λ _, None) (mkFlags 0 "" "hash" (-1) 7 "" "" "draw, dotted") ∅
  = Ok () ∅ [Preamble; Postfix].
Proof.
  apply (main_validates_neither (λ _, None)
           (mkFlags 0 "" "hash" (-1) 7 "" "" "draw, dotted") ∅);
    [reflexivity | reflexivity | simpl; lia | reflexivity | by eexists].
Defined.

(** C9 as stated fails: a tree size of 0 with a threshold of 0 is not
    rejected, and the run prints the preamble and the postfix. *)
Lemma size_zero_not_rejected :
  main (λ _, None) (mkFlags 0 "" "address" (-1) 0 "" "" "draw, dotted") ∅
  = Ok () ∅ [Preamble; Postfix].
Proof. reflexivity. Qed.

(** ** The decomposition of [[0, size)] *)

Lemma land_pow2_small l r : 0 ≤ l → 0 ≤ r < 2 ^ l → Z.land (2 ^ l) r = 0.
Proof.
  intros Hl Hr. apply Z.bits_inj'. intros n Hn.
  rewrite Z.land_spec, Z.bits_0, Z.pow2_bits_eqb by lia.
  destruct (Z.eqb_spec l n) as [->|]; [|done]. simpl.
  destruct (decide (r = 0)) as [->|]; [apply Z.bits_0|].
  apply Z.bits_above_log2; [lia|]. apply Z.log2_lt_pow2; lia.
Qed.

Lemma lxor_top_bit x : 0 < x → Z.lxor x (2 ^ Z.log2 x) = x - 2 ^ Z.log2 x.
Proof.
  intros Hx. pose proof (Z.log2_spec x Hx) as [Hlo Hhi].
  pose proof (Z.log2_nonneg x) as Hl.
  set (l := Z.log2 x) in *. set (r := x - 2 ^ l).
  assert (Hr : 0 ≤ r < 2 ^ l).
  { unfold r. rewrite Z.pow_succ_r in Hhi by lia. lia. }
  replace x with (2 ^ l + r) by (unfold r; lia).
  rewrite Z.add_nocarry_lxor by (by apply land_pow2_small).
  rewrite (Z.lxor_comm (2 ^ l) r), Z.lxor_assoc, Z.lxor_nilpotent, Z.lxor_0_r.
  lia.
Qed.

Lemma lxor_even_1 x : Z.lxor (2 * x) 1 = 2 * x + 1.
Proof.
  symmetry. apply Z.add_nocarry_lxor.
  change 1 with (Z.ones 1). rewrite Z.land_ones by lia.
  change (2 ^ 1) with 2. rewrite Z.mul_comm. apply Z.mod_mul. lia.
Qed.

Lemma pow2_le_64 l : 0 ≤ l < 64 → 0 < 2 ^ l ≤ 2 ^ 63.
Proof.
  intros Hl. split; [apply Z.pow_pos_nonneg; lia|].
  apply Z.pow_le_mono_r; lia.
Qed.

Lemma shl64_small x s :
  0 ≤ s < 64 → 0 ≤ x * 2 ^ s < 2 ^ 64 → shl64 x s = x * 2 ^ s.
Proof.
  intros Hs Hx. unfold shl64. rewrite (proj2 (Z.ltb_lt s 64)) by lia.
  rewrite Z.shiftl_mul_pow2 by lia. by apply u64_small.
Qed.

Lemma Coverage_wf size id :
  size < 2 ^ 64 → wfRoot size id →
  Coverage id = (Index id * 2 ^ Level id, (Index id + 1) * 2 ^ Level id).
Proof.
  intros Hsize (Hl & Hi & Hc). unfold Coverage.
  pose proof (pow2_le_64 _ Hl) as Hp.
  assert (Index id + 1 ≤ (Index id + 1) * 2 ^ Level id) by nia.
  rewrite (u64_small (Index id + 1)) by lia.
  rewrite !shl64_small by nia. done.
Qed.

Lemma leavesOf_wf size id :
  size < 2 ^ 64 → wfRoot size id →
  leavesOf id = NewNodeID 0 <$> seqZ (Index id * 2 ^ Level id) (2 ^ Level id).
Proof.
  intros Hsize Hwf. unfold leavesOf. rewrite (Coverage_wf size) by done.
  do 2 f_equal. lia.
Qed.

Lemma rightNodes_spec fuel : ∀ k pos rmask ids,
  0 ≤ k ≤ Z.of_nat fuel → k ≤ 64 →
  0 ≤ rmask < 2 ^ k → 0 ≤ pos → (2 ^ k | pos) → pos + rmask < 2 ^ 64 →
  ∃ new, rightNodes fuel pos rmask ids = ids ++ new
    ∧ Forall (λ id, Level id < k ∧ pos ≤ Index id * 2 ^ Level id
                    ∧ wfRoot (pos + rmask) id) new
    ∧ flat_map leavesOf new = NewNodeID 0 <$> seqZ pos rmask
    ∧ StronglySorted (λ a b, Level b < Level a) new.
Proof.
  induction fuel as [|fuel IH]; intros k pos rmask ids Hk Hk64 Hr Hpos Hdiv Hsum.
  - assert (k = 0) as -> by lia. assert (rmask = 0) as -> by lia.
    exists []. rewrite app_nil_r. split_and!; try done; constructor.
  - cbn [rightNodes]. destruct (rmask =? 0) eqn:Hz.
    { apply Z.eqb_eq in Hz as ->. exists []. rewrite app_nil_r.
      split_and!; try done; constructor. }
    apply Z.eqb_neq in Hz. assert (Hr0 : 0 < rmask) by lia.
    pose proof (Z.log2_spec rmask Hr0) as [Hlo Hhi].
    pose proof (Z.log2_nonneg rmask) as Hl0.
    assert (Hlk : Z.log2 rmask < k) by (apply Z.log2_lt_pow2; lia).
    unfold bits.Len64. rewrite (proj2 (Z.eqb_neq rmask 0)) by lia.
    replace (Z.log2 rmask + 1 - 1) with (Z.log2 rmask) by lia.
    set (l := Z.log2 rmask) in *.
    rewrite (u64_small l) by lia.
    pose proof (pow2_le_64 l ltac:(lia)) as Hp.
    rewrite Z.pow_succ_r in Hhi by lia.
    rewrite (shl64_small 1 l) by lia. rewrite Z.mul_1_l.
    rewrite (u64_small (pos + 2 ^ l)) by lia.
    unfold l at 2. rewrite lxor_top_bit by lia. fold l.
    assert (Hdl : (2 ^ l | pos)).
    { etrans; [|exact Hdiv]. exists (2 ^ (k - l)).
      rewrite <- Z.pow_add_r by lia. f_equal. lia. }
    destruct Hdl as [q Hq].
    assert (Hshr : shr64 pos l = q).
    { unfold shr64. rewrite (proj2 (Z.ltb_lt l 64)) by lia.
      rewrite Z.shiftr_div_pow2 by lia. subst pos. apply Z.div_mul. lia. }
    rewrite Hshr.
    destruct (IH l (pos + 2 ^ l) (rmask - 2 ^ l) (ids ++ [NewNodeID l q]))
      as (new & Hrun & Hall & Hleaves & Hsorted); [lia..| |lia|].
    { exists (q + 1). lia. }
    exists (NewNodeID l q :: new).
    assert (Hq0 : 0 ≤ q) by nia.
    assert (Hwf : wfRoot (pos + rmask) (NewNodeID l q)).
    { unfold wfRoot. simpl. split_and!; lia. }
    split_and!.
    + rewrite Hrun. by rewrite <- app_assoc.
    + constructor.
      * simpl. split_and!; [lia|lia|done].
      * eapply Forall_impl; [exact Hall|]. simpl.
        intros id (H1 & H2 & H3 & H4 & H5). unfold wfRoot.
        split_and!; lia.
    + cbn [flat_map]. rewrite Hleaves, (leavesOf_wf (pos + rmask)) by done.
      simpl. rewrite <- fmap_app. f_equal.
      replace (q * 2 ^ l) with pos by lia.
      rewrite <- seqZ_app by lia. f_equal. lia.
    + constructor; [done|].
      eapply Forall_impl; [exact Hall|]. simpl. intros id (H1 & _). lia.
Qed.

Lemma RangeNodes_from_0 size :
  RangeNodes 0 size [] = rightNodes 64 0 size [].
Proof. reflexivity. Qed.

(** The roots of the perfect subtrees of the tree of [size] leaves: each
    is a complete subtree of the tree, of a level not above that of the
    largest; from left to right their leaves are the leaves of the tree; and
    their levels decrease. *)
Lemma RangeNodes_roots size :
  0 ≤ size < 2 ^ 64 →
  Forall (λ id, wfRoot size id ∧ Level id ≤ Z.log2 size) (RangeNodes 0 size [])
  ∧ flat_map leavesOf (RangeNodes 0 size []) = NewNodeID 0 <$> seqZ 0 size
  ∧ StronglySorted (λ a b, Level b < Level a) (RangeNodes 0 size []).
Proof.
  intros Hsize. rewrite RangeNodes_from_0.
  destruct (decide (size = 0)) as [->|Hnz].
  { simpl. split_and!; constructor. }
  pose proof (Z.log2_spec size ltac:(lia)) as [Hlo Hhi].
  pose proof (Z.log2_nonneg size) as Hl0.
  assert (Z.log2 size < 64) by (apply Z.log2_lt_pow2; lia).
  destruct (rightNodes_spec 64 (Z.log2 size + 1) 0 size [])
    as (new & Hrun & Hall & Hleaves & Hsorted);
    [lia|lia|lia|lia|apply Z.divide_0_r|lia|].
  rewrite Hrun. rewrite app_nil_l. split_and!; [|done|done].
  eapply Forall_impl; [exact Hall|]. simpl. intros id (H1 & _ & H3).
  split; [done|lia].
Qed.

(** ** The rendering of one perfect subtree (C2) *)

Lemma runDeferred_Ok deferred (t : table) :
  runDeferred deferred t = Ok () t deferred.
Proof.
  unfold runDeferred. induction deferred as [|e rest IH]; [done|].
  cbn [forEach]. erewrite bind_Ok by reflexivity. by rewrite IH.
Qed.

Lemma replicate_snoc_app {A} (n : nat) (x : A) l :
  replicate n x ++ x :: l = replicate (S n) x ++ l.
Proof. induction n as [|n IH]; [done|]. simpl. by rewrite IH. Qed.

Lemma hiddenNodes_Ok i : ∀ deferred (t : table),
  hiddenNodes i deferred t
  = Ok (replicate i HiddenClose ++ deferred) t (HiddenOpen <$> tiersDown i).
Proof.
  induction i as [|i IH]; intros deferred t; [done|].
  cbn [hiddenNodes tiersDown]. erewrite bind_Ok by reflexivity.
  rewrite IH. by rewrite replicate_snoc_app.
Qed.

Lemma perfectMega_Ok treeSize prefix id (t : table) :
  perfectMega treeSize prefix id t
  = Ok () t (collapsedBody prefix id treeSize
               (Z.to_nat (int64 (int64 (Level id) - 2)))).
Proof.
  unfold perfectMega, collapsedBody. destruct (Coverage id) as [b e].
  erewrite bind_Ok by reflexivity. erewrite bind_Ok by reflexivity.
  erewrite bind_Ok by apply hiddenNodes_Ok.
  rewrite runDeferred_Ok. by rewrite !app_nil_r.
Qed.

Section PerfectSubtree.

Variables apr aen : string.
Variables treeSize megaMode : Z.
Variables nodeText dataText : nodeTextFunc.

Local Abbreviation pInner :=
  (perfectInner apr aen treeSize megaMode nodeText dataText).

Lemma preserves_perfectInner {X} (P : nodeInfo → X) fuel :
  (∀ v n, P (set_perfectRoot v n) = P n) →
  ∀ prefix id top, preserves P (pInner fuel prefix id top).
Proof.
  intros HP. induction fuel as [|fuel IH]; intros prefix id top;
    cbn [perfectInner]; [apply preserves_OutOfFuel|].
  apply preserves_bind; [by apply preserves_modifyNodeInfo|intros _].
  destruct (Level id =? 0).
  { unfold drawLeaf.
    repeat (apply preserves_bind; [auto with effects|intros ?]).
    auto with effects. }
  apply preserves_bind.
  { unfold openInnerNode.
    repeat (apply preserves_bind; [auto with effects|intros ?]).
    auto with effects. }
  intros close. apply preserves_bind; [|auto with effects].
  destruct (megaMode <? Level id).
  - intros t a t' o H. rewrite perfectMega_Ok in H. by simplify_eq.
  - apply preserves_bind; auto.
Qed.

Lemma okTable_preserved {A} (c : M A) (t : table) a t' o :
  preserves (λ n, (dataRangeIndices n, rangeIndices n)) c →
  c t = Ok a t' o → okTable t → okTable t'.
Proof.
  intros Hp Hrun Hok id. specialize (Hp _ _ _ _ Hrun id). simpl in Hp.
  injection Hp as Hd Hr. specialize (Hok id).
  unfold okInfo in *. by rewrite Hd, Hr.
Qed.

Lemma okTable_modify (t : table) id f :
  (∀ n, okInfo n → okInfo (f n)) → okTable t →
  okTable (<[id := f (t !!! id)]> t).
Proof.
  intros Hf Hok id'. rewrite lookup_total_modify. case_decide; [|done].
  by apply Hf.
Qed.

(** A subtree above the threshold: the block of its root, and inside it
    the collapsed body; the table is changed at the root only. *)
Lemma perfectInner_collapsed fuel prefix id top (t : table) text :
  Level id ≠ 0 → megaMode < Level id →
  okInfo (t !!! id) → nodeText id = Some text →
  let t' := <[id := set_perfectRoot top (t !!! id)]> t in
  pInner (S fuel) prefix id top t
  = Ok () t'
      ([InnerOpen prefix id text (set_perfectRoot top (t !!! id))]
       ++ collapsedBody prefix id treeSize
            (Z.to_nat (int64 (int64 (Level id) - 2)))
       ++ [InnerClose prefix]).
Proof.
  intros Hl0 Hmega Hok Htext t'. cbn [perfectInner].
  erewrite bind_Ok by apply modifyNodeInfo_Ok. fold t'.
  rewrite (proj2 (Z.eqb_neq _ _) Hl0).
  assert (Hid : t' !!! id = set_perfectRoot top (t !!! id)).
  { unfold t'. by rewrite lookup_total_insert_eq. }
  erewrite bind_Ok
    by (apply (openInnerNode_Ok apr aen nodeText prefix id t' text);
        [by rewrite Hid|done]).
  rewrite (proj2 (Z.ltb_lt _ _) Hmega).
  erewrite bind_Ok by apply perfectMega_Ok.
  cbv [print]. by rewrite Hid.
Qed.

(** A subtree at or below the threshold is rendered down to its leaves:
    the data nodes printed are those of its leaves, left to right. *)
Lemma perfectInner_expanded size fuel : ∀ prefix id top (t : table),
  size < 2 ^ 64 → wfRoot size id → Level id ≤ megaMode →
  (Z.to_nat (Level id) < fuel)%nat →
  okTable t →
  (∀ id', is_Some (nodeText id')) →
  (∀ i, 0 ≤ i < size → is_Some (dataText (NewNodeID 0 i))) →
  ∃ t' o, pInner fuel prefix id top t = Ok () t' o
    ∧ leafDataNodes o
      = NewNodeID 0 <$> seqZ (Index id * 2 ^ Level id) (2 ^ Level id)
    ∧ hiddenTiers o = [] ∧ megaBlocks o = [].
Proof.
  intros prefix id top t Hsize Hwf Hmega Hfuel Hok Hnt Hdt.
  revert prefix id top t Hwf Hmega Hfuel Hok.
  induction fuel as [|fuel IH]; intros prefix id top t Hwf Hmega Hfuel Hok;
    [lia|].
  destruct Hwf as (Hl & Hi & Hc).
  cbn [perfectInner].
  erewrite bind_Ok by apply modifyNodeInfo_Ok.
  set (t0 := <[id := set_perfectRoot top (t !!! id)]> t).
  assert (Hok0 : okTable t0) by (by apply okTable_modify).
  pose proof (pow2_le_64 _ Hl) as Hp.
  destruct (Level id =? 0) eqn:Hz.
  - apply Z.eqb_eq in Hz.
    destruct (Hnt (NewNodeID 0 (Index id))) as [text Htext].
    destruct (Hdt (Index id)) as [dtext Hdtext];
      [rewrite Hz in Hc; simpl in Hc; lia|].
    rewrite (drawLeaf_Ok _ _ _ _ _ _ _ text dtext (Hok0 _) Htext Hdtext).
    do 2 eexists. split; [done|]. rewrite Hz. simpl.
    split_and!; try done. by rewrite Z.mul_1_r.
  - apply Z.eqb_neq in Hz.
    destruct (Hnt id) as [text Htext].
    erewrite bind_Ok
      by (apply (openInnerNode_Ok apr aen nodeText prefix id t0 text);
          [apply Hok0|done]).
    rewrite (proj2 (Z.ltb_ge _ _) Hmega).
    assert (Hpow : 2 ^ Level id = 2 * 2 ^ (Level id - 1)).
    { rewrite <- Z.pow_succ_r by lia. f_equal. lia. }
    assert (Hp' : 0 < 2 ^ (Level id - 1)) by (apply Z.pow_pos_nonneg; lia).
    rewrite (u64_small (Level id - 1)) by lia.
    rewrite (u64_small (Index id * 2)) by nia.
    set (left := NewNodeID (Level id - 1) (Index id * 2)).
    assert (Hsib : Sibling left = NewNodeID (Level id - 1) (Index id * 2 + 1)).
    { unfold Sibling, left. simpl. f_equal.
      rewrite (Z.mul_comm (Index id) 2). apply lxor_even_1. }
    rewrite Hsib.
    destruct (IH (prefix +:+ " ") left false t0) as (t1 & o1 & Hrun1 & Hl1 & Hh1 & Hm1).
    { unfold wfRoot, left. simpl. split_and!; try lia; nia. }
    { unfold left. simpl. lia. }
    { unfold left. simpl. lia. }
    { done. }
    assert (Hok1 : okTable t1).
    { eapply okTable_preserved; [|exact Hrun1|exact Hok0].
      by apply preserves_perfectInner. }
    destruct (IH (prefix +:+ " ") (NewNodeID (Level id - 1) (Index id * 2 + 1))
                false t1) as (t2 & o2 & Hrun2 & Hl2 & Hh2 & Hm2).
    { unfold wfRoot. simpl. split_and!; try lia; nia. }
    { simpl. lia. }
    { simpl. lia. }
    { done. }
    erewrite bind_Ok.
    2:{ erewrite bind_Ok by exact Hrun1. by rewrite Hrun2. }
    cbv [print]. do 2 eexists. split; [done|].
    unfold leafDataNodes, hiddenTiers, megaBlocks in *.
    simpl. rewrite !flat_map_app. simpl.
    rewrite Hl1, Hl2, Hh1, Hh2, Hm1, Hm2. simpl.
    split_and!; try done. rewrite app_nil_r, <- fmap_app. f_equal.
    rewrite Hpow.
    replace (2 * 2 ^ (Level id - 1))
      with (2 ^ (Level id - 1) + 2 ^ (Level id - 1)) by lia.
    rewrite seqZ_app by lia. f_equal; f_equal; lia.
Qed.

End PerfectSubtree.

(** ** The roots and their joining nodes (C1, C3) *)

Lemma bind_assoc {A B C} (c : M A) (f : A → M B) (g : B → M C) :
  (c ≫= f) ≫= g = c ≫= (λ a, f a ≫= g).
Proof.
  extensionality t. unfold mbind, M_bind.
  destruct (c t) as [a t1 o1| | |]; try done.
  destruct (f a t1) as [b t2 o2| | |]; try done.
  destruct (g b t2) as [x t3 o3| | |]; try done; by rewrite app_assoc.
Qed.

Lemma ret_bind {A B} (a : A) (f : A → M B) : mret a ≫= f = f a.
Proof.
  extensionality t. unfold mbind, M_bind, mret, M_ret.
  by destruct (f a t).
Qed.

Lemma bind_ret_unit (c : M unit) : (c ;; mret ()) = c.
Proof.
  extensionality t. unfold mbind, M_bind, mret, M_ret.
  destruct (c t) as [[] t1 o1| | |]; try done. by rewrite app_nil_r.
Qed.

Section Roots.

Variables apr aen : string.
Variables treeSize megaMode : Z.
Variables nodeText dataText : nodeTextFunc.

Local Abbreviation pRoot :=
  (perfect apr aen treeSize megaMode nodeText dataText).
Local Abbreviation rRoots :=
  (renderRoots apr aen treeSize megaMode nodeText dataText).
Local Abbreviation jRoots :=
  (joinRoots apr aen treeSize megaMode nodeText dataText).

(** The loop with its stack of deferred closings does what the nested
    rendering does. *)
Lemma renderRoots_joined ids : ∀ n i prefix deferred,
  n = i + Z.of_nat (length ids) →
  (rRoots n i ids prefix deferred ≫= runDeferred)
  = (jRoots ids prefix ;; runDeferred deferred).
Proof.
  induction ids as [|id rest IH]; intros n i prefix deferred Hn.
  - cbn [renderRoots joinRoots]. by rewrite !ret_bind.
  - cbn [renderRoots joinRoots]. destruct rest as [|id2 rest'].
    + rewrite (proj2 (Z.ltb_ge (i + 1) n)) by (simpl in Hn; lia).
      rewrite ret_bind, bind_assoc. f_equal. extensionality u.
      cbn [renderRoots]. by rewrite ret_bind.
    + rewrite (proj2 (Z.ltb_lt (i + 1) n)) by (simpl in Hn; lia).
      rewrite !bind_assoc. f_equal. extensionality u.
      f_equal. extensionality close.
      rewrite ret_bind, !bind_assoc. f_equal. extensionality u2.
      rewrite (IH n (i + 1) (prefix +:+ " ") (close :: deferred))
        by (simpl in *; lia).
      reflexivity.
Qed.

Lemma renderTree_joined prefix size :
  renderTree apr aen treeSize megaMode nodeText dataText prefix size
  = jRoots (RangeNodes 0 size []) prefix.
Proof.
  unfold renderTree.
  rewrite (renderRoots_joined _ _ 0 prefix []) by lia.
  apply bind_ret_unit.
Qed.

Lemma flat_map_all_nil {A B} (f : A → list B) l :
  (∀ e, e ∈ l → f e = []) → flat_map f l = [].
Proof.
  intros Hf. induction l as [|x l IHl]; [done|]. simpl.
  rewrite (Hf x) by (by left). apply IHl. intros e' He. apply Hf. by right.
Qed.

Lemma collapsedBody_no_leaf prefix id total n :
  leafDataNodes (collapsedBody prefix id total n) = []
  ∧ length (megaBlocks (collapsedBody prefix id total n)) = 1%nat
  ∧ hiddenTiers (collapsedBody prefix id total n) = tiersDown n.
Proof.
  unfold collapsedBody, leafDataNodes, megaBlocks, hiddenTiers.
  destruct (Coverage id) as [b e]. cbn [app flat_map].
  rewrite !flat_map_app.
  rewrite !(flat_map_all_nil _ (replicate n HiddenClose))
    by (by intros e' ->%elem_of_replicate_inv).
  split_and!.
  - rewrite flat_map_all_nil; [done|].
    by intros e' (k & -> & _)%list_elem_of_fmap.
  - rewrite flat_map_all_nil; [done|].
    by intros e' (k & -> & _)%list_elem_of_fmap.
  - rewrite app_nil_r. generalize (tiersDown n). intros l.
    induction l as [|k l IHl]; [done|].
    rewrite fmap_cons. cbn [flat_map]. by rewrite IHl.
Qed.

(** The rendering of one root, above the threshold or not. *)
Lemma perfect_Ok size prefix id (t : table) :
  size < 2 ^ 64 → wfRoot size id → 0 ≤ megaMode → okTable t →
  (∀ id', is_Some (nodeText id')) →
  (∀ i, 0 ≤ i < size → is_Some (dataText (NewNodeID 0 i))) →
  ∃ t' o, pRoot prefix id t = Ok () t' o
    ∧ leafDataNodes o = (if Level id <=? megaMode then leavesOf id else [])
    ∧ okTable t'
    ∧ (∀ x, ephemeral (t' !!! x) = ephemeral (t !!! x)).
Proof.
  intros Hsize Hwf Hmega Hok Hnt Hdt. unfold perfect.
  destruct (Level id <=? megaMode) eqn:Hle.
  - apply Z.leb_le in Hle.
    destruct (perfectInner_expanded apr aen treeSize megaMode nodeText
                dataText size (S (Z.to_nat (Level id))) prefix id true t)
      as (t' & o & Hrun & Hleaves & _); try done; [lia|].
    exists t', o. split_and!; [done| | |].
    + by rewrite Hleaves, (leavesOf_wf size).
    + eapply okTable_preserved; [|exact Hrun|done].
      by apply preserves_perfectInner.
    + by apply (preserves_perfectInner apr aen treeSize megaMode nodeText
                  dataText ephemeral _ ltac:(done) _ _ _ _ _ _ _ Hrun).
  - apply Z.leb_gt in Hle. destruct (Hnt id) as [text Htext].
    rewrite (perfectInner_collapsed apr aen treeSize megaMode nodeText
               dataText _ prefix id true t text) by (done || lia).
    do 2 eexists. split; [done|]. split_and!.
    + unfold leafDataNodes. rewrite !flat_map_app. cbn [flat_map app].
      rewrite app_nil_r. apply (proj1 (collapsedBody_no_leaf _ _ _ _)).
    + by apply okTable_modify.
    + intros x. rewrite lookup_total_modify. by case_decide; subst.
Qed.

Lemma joinRoots_Ok size ids : ∀ prefix (t : table),
  size < 2 ^ 64 → Forall (wfRoot size) ids → 0 ≤ megaMode → okTable t →
  (∀ id', is_Some (nodeText id')) →
  (∀ i, 0 ≤ i < size → is_Some (dataText (NewNodeID 0 i))) →
  ∃ t' o, jRoots ids prefix t = Ok () t' o
    ∧ leafDataNodes o = expandedLeaves megaMode ids
    ∧ okTable t'
    ∧ (∀ x, ephemeral (t' !!! x)
            = ephemeral (t !!! x) || bool_decide (x ∈ joinNodes ids)).
Proof.
  intros prefix t Hsize Hwf Hmega Hok Hnt Hdt. revert prefix t Hok.
  induction Hwf as [|id rest Hid Hrest IH]; intros prefix t Hok.
  - exists t, []. split_and!; try done. intros x.
    rewrite bool_decide_false by apply not_elem_of_nil. by rewrite orb_false_r.
  - cbn [joinRoots joinNodes]. unfold expandedLeaves. cbn [flat_map].
    destruct rest as [|id2 rest'].
    + destruct (perfect_Ok size (prefix +:+ " ") id t)
        as (t' & o & Hrun & Hleaves & Hok' & Heph); try done.
      exists t', o. split_and!; try done.
      * by rewrite Hleaves, app_nil_r.
      * intros x. rewrite Heph, bool_decide_false by apply not_elem_of_nil.
        by rewrite orb_false_r.
    + erewrite bind_Ok by apply modifyNodeInfo_Ok.
      set (t1 := <[Parent id := set_ephemeral true (t !!! Parent id)]> t).
      assert (Hok1 : okTable t1) by (by apply okTable_modify).
      destruct (Hnt (Parent id)) as [text Htext].
      erewrite bind_Ok
        by (apply (openInnerNode_Ok apr aen nodeText prefix (Parent id) t1 text);
            [apply Hok1|done]).
      destruct (perfect_Ok size (prefix +:+ " ") id t1)
        as (t2 & o2 & Hrun2 & Hleaves2 & Hok2 & Heph2); try done.
      destruct (IH (prefix +:+ " ") t2 Hok2)
        as (t3 & o3 & Hrun3 & Hleaves3 & Hok3 & Heph3).
      erewrite bind_Ok by exact Hrun2. erewrite bind_Ok by exact Hrun3.
      cbv [print]. do 2 eexists. split; [done|]. split_and!.
      * unfold leafDataNodes in *. simpl. rewrite !flat_map_app. simpl.
        rewrite app_nil_r. by rewrite Hleaves2, Hleaves3.
      * done.
      * intros x. rewrite Heph3, Heph2. unfold t1.
        rewrite lookup_total_modify.
        destruct (decide (Parent id = x)) as [<-|Hne].
        -- simpl. rewrite bool_decide_true by (by left).
           by rewrite orb_true_r.
        -- destruct (bool_decide (x ∈ joinNodes (id2 :: rest'))) eqn:Hb.
           ++ rewrite bool_decide_true; [done|].
              apply bool_decide_eq_true in Hb. by right.
           ++ rewrite bool_decide_false; [done|].
              apply bool_decide_eq_false in Hb.
              intros [->|Hin]%elem_of_cons; done.
Qed.

End Roots.

Lemma joinNodes_length ids : length (joinNodes ids) = (length ids - 1)%nat.
Proof.
  induction ids as [|id [|id2 rest] IH]; [done..|].
  cbn [joinNodes length] in *. lia.
Qed.

Lemma joinNodes_levels size ids :
  Forall (wfRoot size) ids →
  StronglySorted (λ a b, Level b < Level a) ids →
  StronglySorted (λ a b, Level b < Level a) (joinNodes ids)
  ∧ Forall (λ p, ∃ id, id ∈ ids ∧ p = Parent id ∧ Level p = Level id + 1)
      (joinNodes ids).
Proof.
  intros Hwf Hs. induction Hs as [|id rest Hs IH Hall]; [by split; constructor|].
  apply Forall_cons in Hwf as [Hid Hwf]. destruct (IH Hwf) as [IHs IHf].
  destruct rest as [|id2 rest']; [by split; constructor|].
  cbn [joinNodes].
  assert (Hlp : Level (Parent id) = Level id + 1).
  { destruct Hid as (Hl & _). unfold Parent. simpl. apply u64_small. lia. }
  assert (IHf' : Forall (λ p, ∃ id', id' ∈ id :: id2 :: rest' ∧ p = Parent id'
                                ∧ Level p = Level id' + 1)
                   (joinNodes (id2 :: rest'))).
  { eapply Forall_impl; [exact IHf|]. simpl.
    intros p (id' & Hin & Hp & Hl). exists id'. split; [by right|done]. }
  split.
  - constructor; [done|].
    apply Forall_forall. intros p Hp.
    rewrite Forall_forall in IHf. destruct (IHf p Hp) as (id' & Hin & _ & Hl).
    rewrite Forall_forall in Hall. specialize (Hall id' Hin). lia.
  - constructor; [|done]. exists id. split; [by left|done].
Qed.

Lemma sorted_levels_NoDup ids :
  StronglySorted (λ a b, Level b < Level a) ids → NoDup ids.
Proof.
  induction 1 as [|id rest Hs IH Hall]; constructor; [|done].
  intros Hin. rewrite Forall_forall in Hall. specialize (Hall id Hin). lia.
Qed.

Lemma okTable_empty : okTable ∅.
Proof. intros id. rewrite lookup_total_empty. unfold okInfo. simpl. lia. Qed.

Lemma expandedLeaves_all megaMode ids :
  Forall (λ id, Level id ≤ megaMode) ids →
  expandedLeaves megaMode ids = flat_map leavesOf ids.
Proof.
  unfold expandedLeaves. induction 1 as [|id rest Hid Hrest IH]; [done|].
  simpl. rewrite IH. by rewrite (proj2 (Z.leb_le _ _) Hid).
Qed.

(** The tree of 5 leaves, with the default flags. *)
Lemma render_size_5 :
  ∃ t5 o5,
    renderTree "" "draw, dotted" 5 4 addressFormat dataFormat "" 5 ∅
    = Ok () t5 o5
    ∧ RangeNodes 0 5 [] = [NewNodeID 2 0; NewNodeID 0 4]
    ∧ ephemeralNodes o5 = [NewNodeID 3 0].
Proof. do 2 eexists. split; [vm_compute; reflexivity|]. by vm_compute. Qed.

Section Rendering.

Variables apr aen : string.
Variables treeSize megaMode : Z.
Variables nodeText dataText : nodeTextFunc.

Lemma renderTree_Ok prefix size (t : table) :
  0 ≤ size < 2 ^ 64 → 0 ≤ megaMode → okTable t →
  (∀ id, is_Some (nodeText id)) →
  (∀ i, 0 ≤ i < size → is_Some (dataText (NewNodeID 0 i))) →
  ∃ t' o,
    renderTree apr aen treeSize megaMode nodeText dataText prefix size t
    = Ok () t' o
    ∧ leafDataNodes o = expandedLeaves megaMode (RangeNodes 0 size [])
    ∧ (∀ x, ephemeral (t' !!! x)
            = ephemeral (t !!! x)
              || bool_decide (x ∈ joinNodes (RangeNodes 0 size []))).
Proof.
  intros Hsize Hmega Hok Hnt Hdt. rewrite renderTree_joined.
  destruct (RangeNodes_roots size Hsize) as (Hall & _ & _).
  destruct (joinRoots_Ok apr aen treeSize megaMode nodeText dataText size
              (RangeNodes 0 size []) prefix t)
    as (t' & o & Hrun & Hleaves & _ & Heph); try done; [lia| |].
  { eapply Forall_impl; [exact Hall|]. by intros id [H _]. }
  by exists t', o.
Qed.

(** C1, as the code has it.  For a tree of [size > 0] leaves, the
    rendering pass ends normally and the data nodes it prints are, from
    left to right, the leaves of the perfect roots that are not above the
    threshold [megaMode]; the leaves of all the roots together are
    [0, ..., size - 1] in ascending order, each once.  So when no root is
    above the threshold, that is when [size < 2 ^ (megaMode + 1)], a data
    node is printed for exactly the leaves [0, ..., size - 1], each once,
    in ascending order. *)
Theorem leaves_rendered prefix size (t : table)
    (Hsize : 0 < size < 2 ^ 64) (Hmega : 0 ≤ megaMode) (Hok : okTable t)
    (Hnt : ∀ id, is_Some (nodeText id))
    (Hdt : ∀ i, 0 ≤ i < size → is_Some (dataText (NewNodeID 0 i))) :
  ∃ t' o,
    renderTree apr aen treeSize megaMode nodeText dataText prefix size t
    = Ok () t' o
    ∧ leafDataNodes o = expandedLeaves megaMode (RangeNodes 0 size [])
    ∧ flat_map leavesOf (RangeNodes 0 size []) = NewNodeID 0 <$> seqZ 0 size
    ∧ (size < 2 ^ (megaMode + 1) →
       leafDataNodes o = NewNodeID 0 <$> seqZ 0 size).
Proof.
  destruct (renderTree_Ok prefix size t) as (t' & o & Hrun & Hleaves & _);
    try done; [lia|].
  destruct (RangeNodes_roots size ltac:(lia)) as (Hall & Hpart & _).
  exists t', o. split_and!; try done.
  intros Hsmall. rewrite Hleaves, <- Hpart. apply expandedLeaves_all.
  eapply Forall_impl; [exact Hall|]. simpl. intros id [_ Hl].
  assert (Z.log2 size < megaMode + 1) by (apply Z.log2_lt_pow2; lia). lia.
Qed.

(** C2, as the code has it.  The rendering of a perfect subtree whose
    root is above the threshold marks the root [perfectRoot], opens the
    block of the root as for any internal node, and prints inside it
    exactly one collapsed block, with the range of leaves covered, their
    number, and the tree size against which its width is taken, then the
    indentation and exactly [level - 2] hidden placeholder nodes (none for
    a level of 1 or 2), of tiers [level - 2] down to 1, which are closed
    before the block of the root is.  No node below the root is printed,
    and no other entry of the table is touched. *)
Theorem collapsed_subtree prefix id (t : table) text
    (Hmega : 0 ≤ megaMode < Level id) (Hlevel : Level id < 2 ^ 63)
    (Hok : okInfo (t !!! id)) (Htext : nodeText id = Some text) :
  let a := set_perfectRoot true (t !!! id) in
  let n := Z.to_nat (Level id - 2) in
  perfect apr aen treeSize megaMode nodeText dataText prefix id t
  = Ok () (<[id := a]> t)
      ([InnerOpen prefix id text a;
        MegaBlock prefix (Coverage id).1 (Coverage id).2
          (u64 ((Coverage id).2 - (Coverage id).1)) treeSize;
        MegaIndent prefix]
       ++ (HiddenOpen <$> tiersDown n) ++ replicate n HiddenClose
       ++ [InnerClose prefix])
  ∧ length (tiersDown n) = n
  ∧ (3 ≤ Level id → tiersDown n !! 0%nat = Some (Level id - 2)).
Proof.
  intros a n. split_and!.
  - unfold perfect.
    rewrite (perfectInner_collapsed apr aen treeSize megaMode nodeText
               dataText _ prefix id true t text) by (done || lia).
    rewrite (int64_small (Level id)) by lia.
    rewrite (int64_small (Level id - 2)) by lia. fold n a.
    unfold collapsedBody. destruct (Coverage id) as [b e]. simpl.
    by rewrite <- !app_assoc.
  - clear. induction n as [|n IH]; simpl; [done|]. by rewrite IH.
  - intros H3. unfold n. destruct (Z.to_nat (Level id - 2)) as [|k] eqn:E;
      [lia|].
    simpl. f_equal. lia.
Qed.

(** C3.  The rendering pass is the joining of the perfect roots: for each
    root but the last, the parent of the root is marked ephemeral and its
    block is opened before the root is rendered, the roots that follow are
    rendered inside that block, and the blocks are closed in the reverse
    order; the last root gets no block.  For [N] roots there are [N - 1]
    joining nodes, all different, and after the pass the nodes marked
    ephemeral are those that were, and the joining nodes.  For a tree of 5
    leaves the output has one ephemeral node, the root 3.0. *)
Theorem roots_joined prefix size (t : table)
    (Hsize : 0 < size < 2 ^ 64) (Hmega : 0 ≤ megaMode) (Hok : okTable t)
    (Hnt : ∀ id, is_Some (nodeText id))
    (Hdt : ∀ i, 0 ≤ i < size → is_Some (dataText (NewNodeID 0 i))) :
  let ids := RangeNodes 0 size [] in
  renderTree apr aen treeSize megaMode nodeText dataText prefix size
  = joinRoots apr aen treeSize megaMode nodeText dataText ids prefix
  ∧ length (joinNodes ids) = (length ids - 1)%nat
  ∧ NoDup (joinNodes ids)
  ∧ (∃ t' o,
       renderTree apr aen treeSize megaMode nodeText dataText prefix size t
       = Ok () t' o
       ∧ ∀ x, ephemeral (t' !!! x)
              = ephemeral (t !!! x) || bool_decide (x ∈ joinNodes ids))
  ∧ (∃ t5 o5,
       renderTree "" "draw, dotted" 5 4 addressFormat dataFormat "" 5 ∅
       = Ok () t5 o5
       ∧ RangeNodes 0 5 [] = [NewNodeID 2 0; NewNodeID 0 4]
       ∧ ephemeralNodes o5 = [NewNodeID 3 0]).
Proof.
  intros ids. split_and!.
  - apply renderTree_joined.
  - apply joinNodes_length.
  - destruct (RangeNodes_roots size ltac:(lia)) as (Hall & _ & Hsorted).
    apply sorted_levels_NoDup. eapply (joinNodes_levels size); [|done].
    eapply Forall_impl; [exact Hall|]. by intros id [H _].
  - destruct (renderTree_Ok prefix size t) as (t' & o & Hrun & _ & Heph);
      try done; [lia|].
    by exists t', o.
  - apply render_size_5.
Qed.

End Rendering.

Lemma leaves_rendered_witness :
  ∃ t' o,
    renderTree "" "draw, dotted" 5 4 addressFormat dataFormat "" 5 ∅ = Ok () t' o
    ∧ leafDataNodes o = NewNodeID 0 <$> seqZ 0 5.
Proof.
  destruct (leaves_rendered "" "draw, dotted" 5 4 addressFormat dataFormat
              "" 5 ∅) as (t' & o & Hrun & _ & _ & Hall);
    [lia | lia | apply okTable_empty | by eexists | by eexists |].
  exists t', o. split; [exact Hrun|]. apply Hall. vm_compute. reflexivity.
Defined.

(** C1 as stated fails: with the default threshold of 4, the tree of 32
    leaves is one perfect subtree of level 5, which is collapsed; no leaf
    data node is printed. *)
Lemma leaves_collapsed_32 :
  ∃ t' o,
    renderTree "" "draw, dotted" 32 4 addressFormat dataFormat "" 32 ∅
    = Ok () t' o
    ∧ leafDataNodes o = []
    ∧ leafDataNodes o ≠ NewNodeID 0 <$> seqZ 0 32.
Proof. do 2 eexists. split; [vm_compute; reflexivity|]. by vm_compute. Qed.

Lemma collapsed_subtree_witness :
  perfect "" "draw, dotted" 64 4 addressFormat dataFormat " " (NewNodeID 6 0) ∅
  = Ok () {[ NewNodeID 6 0 := set_perfectRoot true zeroInfo ]}
      [InnerOpen " " (NewNodeID 6 0) "6.0" (set_perfectRoot true zeroInfo);
       MegaBlock " " 0 64 64 64; MegaIndent " ";
       HiddenOpen 4; HiddenOpen 3; HiddenOpen 2; HiddenOpen 1;
       HiddenClose; HiddenClose; HiddenClose; HiddenClose;
       InnerClose " "].
Proof.
  destruct (collapsed_subtree "" "draw, dotted" 64 4 addressFormat dataFormat
              " " (NewNodeID 6 0) ∅ "6.0") as [H _];
    [simpl; lia | simpl; lia | vm_compute; lia | reflexivity |].
  exact H.
Defined.

(** C2 as stated fails: the collapsed subtree of level 5 gets 3 hidden
    placeholder nodes, not 4. *)
Lemma placeholders_level_5 :
  ∃ t' o,
    perfect "" "draw, dotted" 32 4 addressFormat dataFormat " " (NewNodeID 5 0) ∅
    = Ok () t' o
    ∧ hiddenTiers o = [3; 2; 1]
    ∧ length (megaBlocks o) = 1%nat
    ∧ length (hiddenTiers o) ≠ Z.to_nat (5 - 1).
Proof. do 2 eexists. split; [vm_compute; reflexivity|]. by vm_compute. Qed.

Lemma roots_joined_witness :
  ∃ t' o,
    renderTree "" "draw, dotted" 7 4 addressFormat dataFormat "" 7 ∅ = Ok () t' o
    ∧ ephemeral (t' !!! NewNodeID 3 0) = true
    ∧ ephemeral (t' !!! NewNodeID 2 1) = true
    ∧ ephemeral (t' !!! NewNodeID 1 3) = false.
Proof.
  destruct (roots_joined "" "draw, dotted" 7 4 addressFormat dataFormat "" 7 ∅)
    as (_ & _ & _ & (t' & o & Hrun & Heph) & _);
    [lia | lia | apply okTable_empty | by eexists | by eexists |].
  exists t', o. split; [exact Hrun|].
  rewrite !Heph. clear Hrun Heph. vm_compute. repeat split; reflexivity.
Defined.

(** * Further properties of the code *)

(** ** [nodeInfo.String]: when it panics, and the bands *)

Lemma shades_None pal indices : ∀ (i : nat) attr,
  indices ≠ [] → (3 < i + length indices)%nat →
  shades pal i indices attr = None.
Proof.
  induction indices as [|ri rest IH]; intros i attr Hne Hlen; [done|].
  simpl in *. destruct (["left"; "right"; "middle"] !! i) as [pos|] eqn:Hpos;
    [|done].
  apply lookup_lt_Some in Hpos. simpl in Hpos.
  apply IH; [|lia]. destruct rest; [simpl in Hlen; lia|done].
Qed.

Lemma shades_Some pal indices : ∀ (i : nat) attr,
  (i + length indices ≤ 3)%nat →
  shades pal i indices attr
  = Some (attr ++ zip_with (λ pos ri, pos +:+ " color=" +:+ pal +:+ pretty ri
                                      +:+ "!50")
                    (drop i ["left"; "right"; "middle"]) indices).
Proof.
  induction indices as [|ri rest IH]; intros i attr Hlen; simpl in *.
  - destruct (drop i _); by rewrite app_nil_r.
  - destruct (["left"; "right"; "middle"] !! i) as [pos|] eqn:Hpos.
    2:{ apply lookup_ge_None in Hpos. simpl in Hpos. lia. }
    rewrite IH by lia. rewrite <- app_assoc. do 2 f_equal.
    rewrite (drop_S _ _ _ Hpos). done.
Qed.

(** X1.  [String] panics exactly when the index list that applies to the
    style (that of the leaf data for a leaf-data style, that of the ranges
    otherwise) has more than three entries: the positions of the bands are
    taken from a slice of three.  The other list never matters. *)
Theorem String_panics (apr aen : string) (n : nodeInfo) :
  String apr aen n = None ↔ (3 < length (applicable n))%nat.
Proof.
  assert (Hsh : ∀ pal l attr,
            (shades pal 2 l attr = None ↔ (1 < length l)%nat)
            ∧ ((length l ≤ 1)%nat → is_Some (shades pal 2 l attr))).
  { intros pal l attr. destruct (decide (length l ≤ 1)%nat) as [Hl|Hl].
    - rewrite (shades_Some pal l 2 attr) by lia. split; [|by eexists].
      split; [done|lia].
    - rewrite (shades_None pal l 2 attr);
        [|intros ->; simpl in Hl; lia|lia].
      split; [|lia]. split; [lia|done]. }
  unfold String, resolveFill, applicable. destruct (leaf n).
  - destruct (dataRangeIndices n) as [|r1 [|r2 l]] eqn:E; simpl.
    + split; [done|lia].
    + split; [done|lia].
    + match goal with |- context [shades ?p 2 ?l' ?a] =>
        destruct (Hsh p l' a) as [Hnone Hsome];
        destruct (shades p 2 l' a) as [x|] eqn:Hx end.
      * simpl. split; [done|]. intros Hlen.
        assert (@None (list string) = Some x → False) by done.
        exfalso. assert (Hn : Some x = None) by (apply Hnone; lia). done.
      * simpl. split; [|done]. intros _.
        assert (1 < length l)%nat by (by apply Hnone). lia.
  - destruct (rangeIndices n) as [|r1 [|r2 l]] eqn:E; simpl.
    + split; [done|lia].
    + split; [done|lia].
    + match goal with |- context [shades ?p 2 ?l' ?a] =>
        destruct (Hsh p l' a) as [Hnone Hsome];
        destruct (shades p 2 l' a) as [x|] eqn:Hx end.
      * simpl. split; [done|]. intros Hlen.
        exfalso. assert (Hn : Some x = None) by (apply Hnone; lia). done.
      * simpl. split; [|done]. intros _.
        assert (1 < length l)%nat by (by apply Hnone). lia.
Qed.

(** X2.  For a style with two or three entries in the list that applies,
    [String] gives, in this order: the attribute of the perfect root if the
    style has it, one band attribute per entry, the entries taking the
    positions left, right, middle in the order they were appended, then the
    fill, the border and the shape.  The fill is not a range colour: it is
    the path colour, else the target colour, else the proof colour, else
    white. *)
Theorem String_bands (apr aen : string) (n : nodeInfo)
    (Hlen : (2 ≤ length (applicable n) ≤ 3)%nat) :
  resolveFill apr n
  = Some ((if perfectRoot n then [apr] else [])
          ++ bandAttrs (palette n) (applicable n), baseFill n)
  ∧ String apr aen n
    = Some (Join ((if perfectRoot n then [apr] else [])
                  ++ bandAttrs (palette n) (applicable n)
                  ++ ["fill=" +:+ baseFill n; borderAttr aen n; shapeAttr n])
              ", ")
  ∧ length (bandAttrs (palette n) (applicable n)) = length (applicable n).
Proof.
  assert (Hres : resolveFill apr n
                 = Some ((if perfectRoot n then [apr] else [])
                         ++ bandAttrs (palette n) (applicable n), baseFill n)).
  { unfold resolveFill, applicable, palette, baseFill, bandAttrs in *.
    destruct (leaf n).
    - destruct (dataRangeIndices n) as [|r1 [|r2 l]]; simpl in Hlen; [lia..|].
      match goal with |- context [shades ?p ?i ?l' ?a] =>
        rewrite (shades_Some p l' i a) by (simpl; lia) end.
      simpl. by repeat case_match.
    - destruct (rangeIndices n) as [|r1 [|r2 l]]; simpl in Hlen; [lia..|].
      match goal with |- context [shades ?p ?i ?l' ?a] =>
        rewrite (shades_Some p l' i a) by (simpl; lia) end.
      simpl. by repeat case_match. }
  split_and!; [done| |].
  - unfold String. rewrite Hres. simpl. unfold borderAttr, shapeAttr.
    destruct (ephemeral n), (leaf n); simpl; by rewrite <- !app_assoc.
  - unfold bandAttrs. rewrite length_zip_with. cbn [length]. lia.
Qed.

Lemma String_bands_witness :
  String "" "draw, dotted" (mkNodeInfo false false false false false false [] [0; 1; 2])
  = Some "left color=range0!50, right color=range1!50, middle color=range2!50, fill=white, draw, circle, minimum size=3em, align=center".
Proof.
  destruct (String_bands "" "draw, dotted"
              (mkNodeInfo false false false false false false [] [0; 1; 2]))
    as (_ & H & _); [simpl; lia|].
  exact H.
Defined.

(** ** What a rendering that ends normally has done *)

Lemma call_Ok_inv {A} (x : option A) (t : table) a t' o :
  call x t = Ok a t' o → x = Some a ∧ t' = t ∧ o = [].
Proof. unfold call. destruct x; [|done]. by intros [= -> -> <-]. Qed.

Section RenderInversion.

Variables apr aen : string.
Variables treeSize megaMode : Z.
Variables nodeText dataText : nodeTextFunc.

Lemma drawLeaf_inv prefix index (t : table) t' o :
  drawLeaf apr aen nodeText dataText prefix index t = Ok () t' o →
  t' = t
  ∧ ∃ text dtext,
      nodeText (NewNodeID 0 index) = Some text
      ∧ dataText (NewNodeID 0 index) = Some dtext
      ∧ o = [LeafHash prefix (NewNodeID 0 index) text
               (hashStyle (t !!! NewNodeID 0 index));
             LeafData prefix (NewNodeID 0 index) dtext
               (dataStyle (t !!! NewNodeID 0 index))].
Proof.
  unfold drawLeaf. set (id := NewNodeID 0 index). intros H.
  apply bind_Ok_inv in H as (a & t1 & o1 & o2 & Ha & H & ->).
  cbv [readInfo] in Ha. injection Ha as <- <- <-.
  apply bind_Ok_inv in H as (text & t2 & o3 & o4 & Ht & H & ->).
  apply call_Ok_inv in Ht as (Htext & -> & ->).
  apply bind_Ok_inv in H as (s1 & t3 & o5 & o6 & Hs & H & ->).
  apply call_Ok_inv in Hs as (_ & -> & ->).
  apply bind_Ok_inv in H as ([] & t4 & o7 & o8 & Hp & H & ->).
  cbv [print] in Hp. injection Hp as <- <-.
  apply bind_Ok_inv in H as (a' & t5 & o9 & o10 & Ha & H & ->).
  cbv [readInfo] in Ha. injection Ha as <- <- <-.
  apply bind_Ok_inv in H as (dtext & t6 & o11 & o12 & Ht & H & ->).
  apply call_Ok_inv in Ht as (Hdtext & -> & ->).
  apply bind_Ok_inv in H as (s2 & t7 & o13 & o14 & Hs & H & ->).
  apply call_Ok_inv in Hs as (_ & -> & ->).
  cbv [print] in H. injection H as <- <-.
  split; [done|]. exists text, dtext. split_and!; try done.
Qed.

Lemma openInnerNode_inv prefix id (t : table) close t' o :
  openInnerNode apr aen nodeText prefix id t = Ok close t' o →
  t' = t ∧ close = InnerClose prefix
  ∧ ∃ text, nodeText id = Some text ∧ o = [InnerOpen prefix id text (t !!! id)].
Proof.
  unfold openInnerNode. intros H.
  apply bind_Ok_inv in H as (a & t1 & o1 & o2 & Ha & H & ->).
  cbv [readInfo] in Ha. injection Ha as <- <- <-.
  apply bind_Ok_inv in H as (s1 & t3 & o5 & o6 & Hs & H & ->).
  apply call_Ok_inv in Hs as (_ & -> & ->).
  apply bind_Ok_inv in H as (text & t2 & o3 & o4 & Ht & H & ->).
  apply call_Ok_inv in Ht as (Htext & -> & ->).
  apply bind_Ok_inv in H as ([] & t4 & o7 & o8 & Hp & H & ->).
  cbv [print] in Hp. injection Hp as <- <-.
  cbv [mret M_ret] in H. injection H as <- <- <-.
  split_and!; try done. by exists text.
Qed.

Lemma perfectInner_rendered fuel : ∀ prefix id top (t : table) t' o,
  perfectInner apr aen treeSize megaMode nodeText dataText fuel prefix id top t
  = Ok () t' o →
  rendered megaMode treeSize prefix id top t o t'.
Proof.
  induction fuel as [|fuel IH]; intros prefix id top t t' o H; [done|].
  cbn [perfectInner] in H.
  apply bind_Ok_inv in H as ([] & t0 & o0 & o' & Hm & H & ->).
  rewrite modifyNodeInfo_Ok in Hm. injection Hm as <- <-.
  set (t0 := <[id := set_perfectRoot top (t !!! id)]> t) in *.
  assert (Hid : t0 !!! id = set_perfectRoot top (t !!! id)).
  { unfold t0. by rewrite lookup_total_insert_eq. }
  destruct (Level id =? 0) eqn:Hz.
  - apply Z.eqb_eq in Hz.
    apply drawLeaf_inv in H as (-> & text & dtext & _ & _ & ->).
    assert (Hrec : NewNodeID 0 (Index id) = id).
    { destruct id as [l i]. simpl in *. by subst. }
    rewrite Hrec, Hid. simpl. by constructor.
  - apply Z.eqb_neq in Hz.
    apply bind_Ok_inv in H as (close & t1 & o1 & o2 & Ho & H & ->).
    apply openInnerNode_inv in Ho as (-> & -> & text & _ & ->).
    apply bind_Ok_inv in H as ([] & t2 & o3 & o4 & Hb & H & ->).
    cbv [print] in H. injection H as <- <-. rewrite Hid.
    destruct (megaMode <? Level id) eqn:Hmega.
    + apply Z.ltb_lt in Hmega. rewrite perfectMega_Ok in Hb.
      injection Hb as <- <-. simpl. by apply rendered_collapsed.
    + apply Z.ltb_ge in Hmega.
      apply bind_Ok_inv in Hb as ([] & t3 & o5 & o6 & H1 & H2 & ->).
      apply IH in H1. apply IH in H2.
      simpl. by eapply (rendered_inner _ _ _ _ _ _ _ _ _ _ _ Hz Hmega H1 H2).
Qed.

End RenderInversion.

(** ** The brackets of the output are well nested *)

Lemma nest_app o1 : ∀ stack o2,
  nest stack (o1 ++ o2) = nest stack o1 ≫= λ s, nest s o2.
Proof.
  induction o1 as [|e o1 IH]; intros stack o2; [done|].
  destruct e; simpl; try done; repeat case_match; simpl; done.
Qed.

Lemma nest_hidden n : ∀ stack,
  nest stack ((HiddenOpen <$> tiersDown n) ++ replicate n HiddenClose)
  = Some stack.
Proof.
  assert (Hclose : ∀ k stack,
            nest (replicate k HiddenFrame ++ stack) (replicate k HiddenClose)
            = Some stack).
  { induction k as [|k IHk]; intros stack; [done|]. simpl. apply IHk. }
  assert (Hopen : ∀ (l : list Z) stack o,
            nest stack ((HiddenOpen <$> l) ++ o)
            = nest (replicate (length l) HiddenFrame ++ stack) o).
  { induction l as [|x l IHl]; intros stack o; [done|]. simpl.
    rewrite IHl. f_equal. by rewrite replicate_snoc_app. }
  intros stack. rewrite Hopen.
  assert (Hlen : length (tiersDown n) = n).
  { clear. induction n as [|n IH]; simpl; [done|]. by rewrite IH. }
  rewrite Hlen. apply Hclose.
Qed.

Lemma nest_collapsedBody prefix id total n stack :
  nest stack (collapsedBody prefix id total n) = Some stack.
Proof.
  unfold collapsedBody. destruct (Coverage id) as [b e]. simpl.
  apply nest_hidden.
Qed.

Lemma rendered_nest megaMode total prefix id top (t : table) o t' :
  rendered megaMode total prefix id top t o t' →
  ∀ stack, nest stack o = Some stack.
Proof.
  induction 1 as [prefix id top t text dtext Hl
                 |prefix id top t text Hl Hm
                 |prefix id top t text o1 t1 o2 t2 Hl Hm _ IH1 _ IH2];
    intros stack.
  - done.
  - cbn [app nest]. rewrite nest_app, nest_collapsedBody. simpl.
    by rewrite decide_True.
  - cbn [app nest]. rewrite !nest_app, IH1. simpl. rewrite IH2. simpl.
    by rewrite decide_True.
Qed.

Lemma collapsedBody_styled Inv prefix id total n :
  Forall (styledBy Inv) (collapsedBody prefix id total n)
  ∧ Forall (λ e, emitNode e = None) (collapsedBody prefix id total n).
Proof.
  unfold collapsedBody. destruct (Coverage id) as [b e]. cbn [app].
  split.
  - do 2 (apply Forall_cons; split; [done|]). apply Forall_app; split.
    + apply Forall_fmap, Forall_forall. by intros.
    + apply Forall_replicate. done.
  - do 2 (apply Forall_cons; split; [done|]). apply Forall_app; split.
    + apply Forall_fmap, Forall_forall. by intros.
    + apply Forall_replicate. done.
Qed.

Lemma rendered_styles (Inv : NodeID → nodeInfo → Prop) megaMode total
    prefix id top (t : table) o t' :
  (∀ x v a, Inv x a → Inv x (set_perfectRoot v a)) →
  rendered megaMode total prefix id top t o t' →
  (∀ x, Inv x (t !!! x)) →
  Forall (styledBy Inv) o ∧ (∀ x, Inv x (t' !!! x)).
Proof.
  intros Hstable.
  assert (Hmod : ∀ (t0 : table) x top0,
            (∀ y, Inv y (t0 !!! y)) →
            ∀ y, Inv y (<[x := set_perfectRoot top0 (t0 !!! x)]> t0 !!! y)).
  { intros t0 x top0 Hinv y. rewrite lookup_total_modify.
    case_decide; subst; auto. }
  induction 1 as [prefix id top t text dtext Hl
                 |prefix id top t text Hl Hm
                 |prefix id top t text o1 t1 o2 t2 Hl Hm _ IH1 _ IH2];
    intros Hinv.
  - split; [|by apply Hmod].
    apply Forall_cons; split; [|apply Forall_cons; split; [|done]];
      exists (set_perfectRoot top (t !!! id)); auto.
  - split; [|by apply Hmod].
    apply Forall_cons; split; [simpl; auto|].
    apply Forall_app; split; [apply collapsedBody_styled|].
    by apply Forall_cons.
  - destruct (IH1 (Hmod _ _ _ Hinv)) as [Ho1 Ht1].
    destruct (IH2 Ht1) as [Ho2 Ht2]. split; [|done].
    apply Forall_cons; split; [simpl; auto|].
    apply Forall_app; split; [by apply Forall_app|by apply Forall_cons].
Qed.

(** The nodes printed by the rendering of the subtree of [id] are [id]
    itself, printed with [perfectRoot] as [top] says, and nodes of lower
    levels, printed without; the entries of the table at the level of [id]
    or above are untouched, but for that of [id]. *)
Lemma rendered_roots megaMode total prefix id top (t : table) o t' :
  rendered megaMode total prefix id top t o t' →
  0 ≤ Level id < 2 ^ 64 →
  Forall (λ e, ∀ nd a, emitNode e = Some nd → emitInfo e = Some a →
               (Level nd < Level id ∧ perfectRoot a = false)
               ∨ (nd = id ∧ perfectRoot a = top)) o
  ∧ t' !!! id = set_perfectRoot top (t !!! id)
  ∧ (∀ x, Level id ≤ Level x → x ≠ id → t' !!! x = t !!! x).
Proof.
  induction 1 as [prefix id top t text dtext Hl
                 |prefix id top t text Hl Hm
                 |prefix id top t text o1 t1 o2 t2 Hl Hm _ IH1 _ IH2];
    intros Hlevel.
  - split_and!.
    + apply Forall_cons; split; [|apply Forall_cons; split; [|done]];
        intros nd a [= <-] [= <-]; right; (split; [done|]);
        unfold hashStyle; by repeat case_match.
    + by rewrite lookup_total_insert_eq.
    + intros x _ Hx. by rewrite lookup_total_insert_ne.
  - split_and!.
    + apply Forall_cons; split.
      { intros nd a [= <-] [= <-]. by right. }
      apply Forall_app; split.
      * eapply Forall_impl; [apply (collapsedBody_styled (λ _ _, True))|].
        simpl. by intros e -> nd a.
      * apply Forall_cons; split; [by intros nd a|done].
    + by rewrite lookup_total_insert_eq.
    + intros x _ Hx. by rewrite lookup_total_insert_ne.
  - set (child := NewNodeID (u64 (Level id - 1)) (u64 (Index id * 2))) in *.
    assert (Hcl : Level child = Level id - 1).
    { unfold child. simpl. apply u64_small. lia. }
    assert (Hsl : Level (Sibling child) = Level id - 1) by done.
    destruct IH1 as (Ho1 & Hc1 & Hf1); [lia|].
    destruct IH2 as (Ho2 & Hc2 & Hf2); [lia|].
    assert (Hlower : ∀ c o0,
              Level c = Level id - 1 →
              Forall (λ e, ∀ nd a, emitNode e = Some nd → emitInfo e = Some a →
                           (Level nd < Level c ∧ perfectRoot a = false)
                           ∨ (nd = c ∧ perfectRoot a = false)) o0 →
              Forall (λ e, ∀ nd a, emitNode e = Some nd → emitInfo e = Some a →
                           (Level nd < Level id ∧ perfectRoot a = false)
                           ∨ (nd = id ∧ perfectRoot a = top)) o0).
    { intros c o0 Hc Hf. eapply Forall_impl; [exact Hf|]. simpl.
      intros e He nd a Hnd Ha.
      destruct (He nd a Hnd Ha) as [[H1 H2]|[-> H2]]; left; split; (done || lia). }
    split_and!.
    + apply Forall_cons; split.
      { intros nd a [= <-] [= <-]. by right. }
      apply Forall_app; split.
      * apply Forall_app; split; [by apply (Hlower child)|
                                  by apply (Hlower (Sibling child))].
      * apply Forall_cons; split; [by intros nd a|done].
    + assert (Hne1 : id ≠ child) by (intros Heq; rewrite <- Heq in Hcl; lia).
      assert (Hne2 : id ≠ Sibling child)
        by (intros Heq; rewrite <- Heq in Hsl; lia).
      rewrite Hf2, Hf1, lookup_total_insert_eq by (done || lia). done.
    + intros x Hx Hne.
      assert (Hne1 : x ≠ child) by (intros Heq; rewrite Heq in Hx; lia).
      assert (Hne2 : x ≠ Sibling child)
        by (intros Heq; rewrite Heq in Hx; lia).
      rewrite Hf2, Hf1, lookup_total_insert_ne by (done || lia). done.
Qed.

Section RenderFacts.

Variables apr aen : string.
Variables treeSize megaMode : Z.
Variables nodeText dataText : nodeTextFunc.

Local Abbreviation pRoot :=
  (perfect apr aen treeSize megaMode nodeText dataText).
Local Abbreviation jRoots :=
  (joinRoots apr aen treeSize megaMode nodeText dataText).
Local Abbreviation rTree :=
  (renderTree apr aen treeSize megaMode nodeText dataText).

Lemma joinRoots_inv ids : ∀ prefix (t : table) t' o,
  jRoots ids prefix t = Ok () t' o →
  match ids with
  | [] => t' = t ∧ o = []
  | [id] => rendered megaMode treeSize (prefix +:+ " ") id true t o t'
  | id :: rest =>
      ∃ text o1 t1 o2,
        let t0 := <[Parent id := set_ephemeral true (t !!! Parent id)]> t in
        nodeText (Parent id) = Some text
        ∧ rendered megaMode treeSize (prefix +:+ " ") id true t0 o1 t1
        ∧ jRoots rest (prefix +:+ " ") t1 = Ok () t' o2
        ∧ o = [InnerOpen prefix (Parent id) text
                 (set_ephemeral true (t !!! Parent id))]
              ++ (o1 ++ o2) ++ [InnerClose prefix]
  end.
Proof.
  intros prefix t t' o H. destruct ids as [|id [|id2 rest]].
  - cbn in H. by injection H as <- <-.
  - cbn [joinRoots] in H. unfold perfect in H.
    apply perfectInner_rendered in H. exact H.
  - cbn [joinRoots] in H.
    apply bind_Ok_inv in H as ([] & t0 & o0 & o' & Hm & H & ->).
    rewrite modifyNodeInfo_Ok in Hm. injection Hm as <- <-.
    apply bind_Ok_inv in H as (close & t1 & o1 & o2 & Ho & H & ->).
    apply openInnerNode_inv in Ho as (-> & -> & text & Htext & ->).
    apply bind_Ok_inv in H as ([] & t2 & o3 & o4 & Hp & H & ->).
    unfold perfect in Hp. apply perfectInner_rendered in Hp.
    apply bind_Ok_inv in H as ([] & t3 & o5 & o6 & Hj & H & ->).
    cbv [print] in H. injection H as <- <-.
    exists text, o3, t2, o5. rewrite lookup_total_insert_eq.
    split_and!; try done. simpl. by rewrite <- !app_assoc.
Qed.

Lemma joinRoots_nest ids : ∀ prefix (t : table) t' o,
  jRoots ids prefix t = Ok () t' o → ∀ stack, nest stack o = Some stack.
Proof.
  induction ids as [|id rest IH]; intros prefix t t' o H stack.
  - apply joinRoots_inv in H as [_ ->]. done.
  - apply joinRoots_inv in H. destruct rest as [|id2 rest'].
    + by eapply rendered_nest.
    + destruct H as (text & o1 & t1 & o2 & _ & Hr & Hj & ->).
      cbn [app nest]. rewrite !nest_app, (rendered_nest _ _ _ _ _ _ _ _ Hr).
      simpl. rewrite (IH _ _ _ _ Hj). simpl. by rewrite decide_True.
Qed.

Lemma joinRoots_styles (Inv : NodeID → nodeInfo → Prop) ids :
  (∀ x v a, Inv x a → Inv x (set_perfectRoot v a)) →
  (∀ x a, Inv x a → Inv x (set_ephemeral true a)) →
  ∀ prefix (t : table) t' o,
    jRoots ids prefix t = Ok () t' o →
    (∀ x, Inv x (t !!! x)) →
    Forall (styledBy Inv) o ∧ (∀ x, Inv x (t' !!! x)).
Proof.
  intros HpR HeT. induction ids as [|id rest IH]; intros prefix t t' o H Hinv.
  - apply joinRoots_inv in H as [-> ->]. by split.
  - apply joinRoots_inv in H. destruct rest as [|id2 rest'].
    + by eapply rendered_styles.
    + destruct H as (text & o1 & t1 & o2 & _ & Hr & Hj & ->).
      assert (Hinv0 : ∀ x, Inv x (<[Parent id := set_ephemeral true
                                      (t !!! Parent id)]> t !!! x)).
      { intros x. rewrite lookup_total_modify. case_decide; subst; auto. }
      destruct (rendered_styles Inv _ _ _ _ _ _ _ _ HpR Hr Hinv0) as [Ho1 Ht1].
      destruct (IH _ _ _ _ Hj Ht1) as [Ho2 Ht2]. split; [|done].
      apply Forall_cons; split; [simpl; auto|].
      apply Forall_app; split; [by apply Forall_app|by apply Forall_cons].
Qed.

Lemma renderTree_nest prefix size (t : table) t' o :
  rTree prefix size t = Ok () t' o → ∀ stack, nest stack o = Some stack.
Proof. rewrite renderTree_joined. apply joinRoots_nest. Qed.

Lemma renderTree_styles (Inv : NodeID → nodeInfo → Prop) prefix size
    (t : table) t' o :
  (∀ x v a, Inv x a → Inv x (set_perfectRoot v a)) →
  (∀ x a, Inv x a → Inv x (set_ephemeral true a)) →
  rTree prefix size t = Ok () t' o →
  (∀ x, Inv x (t !!! x)) →
  Forall (styledBy Inv) o ∧ (∀ x, Inv x (t' !!! x)).
Proof.
  intros HpR HeT. rewrite renderTree_joined. by apply joinRoots_styles.
Qed.

Lemma preserves_renderTree {X} (P : nodeInfo → X) prefix size :
  (∀ v n, P (set_perfectRoot v n) = P n) →
  (∀ n, P (set_ephemeral true n) = P n) →
  preserves P (rTree prefix size).
Proof.
  intros HpR HeT. rewrite renderTree_joined.
  generalize (RangeNodes 0 size []). intros ids. revert prefix.
  induction ids as [|id [|id2 rest] IH]; intros prefix; cbn [joinRoots].
  - apply preserves_ret.
  - by apply preserves_perfectInner.
  - apply preserves_bind; [by apply preserves_modifyNodeInfo|intros _].
    apply preserves_bind.
    { unfold openInnerNode.
      repeat (apply preserves_bind; [auto with effects|intros ?]).
      auto with effects. }
    intros close. apply preserves_bind; [by apply preserves_perfectInner|].
    intros _. apply preserves_bind; [apply IH|auto with effects].
Qed.

End RenderFacts.

(** ** The phases of [main] *)

Lemma preserves_markIncPath {X} (P : nodeInfo → X) fuel :
  (∀ n, P (set_incPath true n) = P n) →
  ∀ id height, preserves P (markIncPath fuel id height).
Proof.
  intros HP. induction fuel as [|fuel IH]; intros id height; simpl;
    [apply preserves_OutOfFuel|].
  destruct (_ <? _); [|apply preserves_ret].
  apply preserves_bind; [by apply preserves_modifyNodeInfo|auto].
Qed.

Lemma preserves_markInclusion {X} (P : nodeInfo → X) incl size height :
  (∀ n, P (set_proof true n) = P n) →
  (∀ n, P (set_incPath true n) = P n) →
  preserves P (markInclusion incl size height).
Proof.
  intros Hp Hi. unfold markInclusion.
  destruct (0 <? incl); [|apply preserves_ret].
  apply preserves_bind; [by apply preserves_modifyNodeInfo|intros _].
  destruct (proof.Inclusion _ _); [|apply preserves_Fatalf].
  apply preserves_bind; [by apply preserves_markProof|intros _].
  by apply preserves_markIncPath.
Qed.

Lemma preserves_applyRanges {X} (P : nodeInfo → X) rs :
  (∀ ri n, P (appendDataRange ri n) = P n) →
  (∀ ri n, P (appendRange ri n) = P n) →
  ∀ ri, preserves P (applyRanges ri rs).
Proof.
  intros Hd Hr. induction rs as [|[l r] rest IH]; intros ri; simpl;
    [apply preserves_ret|].
  apply preserves_bind.
  { apply preserves_forEach. intros i. by apply preserves_modifyNodeInfo. }
  intros _. apply preserves_bind; [|auto].
  apply preserves_forEach. intros id. by apply preserves_modifyNodeInfo.
Qed.

Lemma preserves_markRanges {X} (P : nodeInfo → X) Sscanf ranges_ size :
  (∀ ri n, P (appendDataRange ri n) = P n) →
  (∀ ri n, P (appendRange ri n) = P n) →
  preserves P (markRanges Sscanf ranges_ size).
Proof.
  intros Hd Hr. unfold markRanges.
  case_bool_decide; [|apply preserves_ret].
  apply preserves_bind.
  - unfold modifyRangeNodeInfo. destruct (parseRanges _ _ _);
      [|apply preserves_ret].
    apply preserves_bind; [by apply preserves_applyRanges|].
    intros _. apply preserves_ret.
  - intros [e|]; [apply preserves_Fatalf|apply preserves_ret].
Qed.

Section MainRuns.

Variable Sscanf : string → option (Z * Z).

(** A run of [main] that ends normally went through its phases one after
    the other; only the rendering printed, between the preamble and the
    postfix. *)
Lemma main_Ok_inv fl (t : table) t' o :
  main Sscanf fl t = Ok () t' o →
  ∃ nt t1 t2 o',
    nodeFormats (nodeFormat fl) = Some nt
    ∧ markInclusion (inclusion fl) (leafDataOverride fl).1
        (heightOf (treeSize fl)) t = Ok () t1 []
    ∧ markRanges Sscanf (ranges fl) (leafDataOverride fl).1 t1 = Ok () t2 []
    ∧ renderTree (attrPerfectRoot fl) (attrEphemeralNode fl)
        (leafDataOverride fl).1 (megaMode fl) nt (leafDataOverride fl).2
        "" (leafDataOverride fl).1 t2 = Ok () t' o'
    ∧ o = Preamble :: o' ++ [Postfix].
Proof.
  unfold main. fold (heightOf (treeSize fl)).
  destruct (nodeFormats (nodeFormat fl)) as [nt|]; [|done].
  destruct (leafDataOverride fl) as [size df]. simpl. intros H.
  apply bind_Ok_inv in H as ([] & t1 & o1 & o2 & Hi & H & ->).
  pose proof (silent_markInclusion (inclusion fl) size
                (heightOf (treeSize fl)) t) as Hs.
  rewrite Hi in Hs. subst o1.
  apply bind_Ok_inv in H as ([] & t2 & o3 & o4 & Hr & H & ->).
  pose proof (silent_markRanges Sscanf (ranges fl) size t1) as Hs.
  rewrite Hr in Hs. subst o3.
  apply bind_Ok_inv in H as ([] & t3 & o5 & o6 & Hp & H & ->).
  cbv [print] in Hp. injection Hp as <- <-.
  apply bind_Ok_inv in H as ([] & t4 & o7 & o8 & Hrt & H & ->).
  cbv [print] in H. injection H as <- <-.
  exists nt, t1, t2, o7. split_and!; done.
Qed.

End MainRuns.

(** X3.  The output of a run of [main] that ends normally is the preamble,
    the rendering and the postfix, and its brackets are well nested: every
    closing bracket closes the innermost open one, an internal node is
    closed with the prefix it was opened with, and nothing is left open at
    the end.  The rendering alone leaves the brackets open around it as
    they were. *)
Theorem main_output_nested (Sscanf : string → option (Z * Z)) (fl : Flags)
    (t t' : table) (o : list Emit)
    (Hrun : main Sscanf fl t = Ok () t' o) :
  nest [] o = Some []
  ∧ ∃ o', o = Preamble :: o' ++ [Postfix]
          ∧ ∀ stack, nest stack o' = Some stack.
Proof.
  apply main_Ok_inv in Hrun as (nt & t1 & t2 & o' & _ & _ & _ & Hr & ->).
  pose proof (renderTree_nest _ _ _ _ _ _ _ _ _ _ _ Hr) as Hn.
  split.
  - cbn [nest]. by rewrite nest_app, Hn.
  - by exists o'.
Qed.

Lemma main_output_nested_witness :
  ∃ t' o,
    main (λ _, None) (mkFlags 7 "" "address" 5 1 "" "" "draw, dotted") ∅
    = Ok () t' o
    ∧ nest [] o = Some [].
Proof.
  eexists _, _.
  match goal with
  | |- ?A = ?B ∧ _ => assert (H : A = B) by (vm_compute; reflexivity)
  end.
  split; [exact H|].
  exact (proj1 (main_output_nested _ _ _ _ _ H)).
Defined.

Lemma hashStyle_fields a :
  leaf (hashStyle a) = leaf a ∧ target (hashStyle a) = target a
  ∧ dataRangeIndices (hashStyle a) = dataRangeIndices a
  ∧ (incPath (hashStyle a) = true
     ↔ incPath a = true ∧ dataRangeIndices a = []).
Proof.
  unfold hashStyle. case_bool_decide as H; simpl.
  - split_and!; try done. split; [done|]. intros [_ Hd]. rewrite Hd in H.
    simpl in H. lia.
  - split_and!; try done. split; [|by intros [? _]]. intros Hp. split; [done|].
    destruct (dataRangeIndices a); [done|]. simpl in H. lia.
Qed.

Section MainMarks.

Variable Sscanf : string → option (Z * Z).

(** The entries of the table when the rendering starts. *)
Lemma main_marks_before_render fl (t1 t2 : table) :
  inclusion fl < 2 ^ 63 →
  markInclusion (inclusion fl) (leafDataOverride fl).1
    (heightOf (treeSize fl)) ∅ = Ok () t1 [] →
  markRanges Sscanf (ranges fl) (leafDataOverride fl).1 t1 = Ok () t2 [] →
  ∀ id, leaf (t2 !!! id) = false ∧ target (t2 !!! id) = false
        ∧ (incPath (t2 !!! id) = true
           ↔ 0 < inclusion fl
             ∧ onPath (inclusion fl) 0 (heightOf (treeSize fl)) id).
Proof.
  intros Hint Hi Hr id.
  pose proof (preserves_markRanges (λ n, (leaf n, target n, incPath n))
                Sscanf _ _ ltac:(done) ltac:(done) _ _ _ _ Hr id) as H2.
  pose proof (preserves_markInclusion (λ n, (leaf n, target n))
                _ _ _ ltac:(done) ltac:(done) _ _ _ _ Hi id) as H1.
  simpl in H1, H2. rewrite lookup_total_empty in H1.
  injection H2 as -> -> ->. injection H1 as -> ->.
  split_and!; try done.
  destruct (decide (0 < inclusion fl)) as [Hpos|Hneg].
  - assert (Hlt : inclusion fl < (leafDataOverride fl).1).
    { unfold markInclusion in Hi.
      rewrite (proj2 (Z.ltb_lt 0 _) Hpos) in Hi.
      rewrite (u64_small (inclusion fl)) in Hi by lia.
      erewrite bind_Ok in Hi by apply modifyNodeInfo_Ok.
      unfold proof.Inclusion in Hi.
      destruct (_ <=? _) eqn:Hle; [done|]. by apply Z.leb_gt in Hle. }
    destruct (markInclusion_marks_path (inclusion fl) (leafDataOverride fl).1
                (heightOf (treeSize fl)) ∅) as (t1' & Hrun & Hspec);
      [lia|done|apply height_range|by intros; rewrite lookup_total_empty|].
    rewrite Hrun in Hi. injection Hi as ->. rewrite Hspec. tauto.
  - unfold markInclusion in Hi.
    rewrite (proj2 (Z.ltb_ge 0 _)) in Hi by lia.
    cbv [mret M_ret] in Hi. injection Hi as <-.
    rewrite lookup_total_empty. simpl. split; [done|]. intros [? _]. lia.
Qed.

(** X4.  After a run of [main] that ends normally from the empty table,
    [incPath] is set on exactly the nodes [(l, t >> l)], [0 <= l < height],
    of the target leaf [t], the value of [--inclusion], when [t > 0], and
    on no node otherwise.  The height is that of the [--tree_size] flag as
    given, also when [--leaf_data] replaces the size of the tree.  No entry
    of the table has [leaf] or [target] set: these are set on the printed
    copies only. *)
Theorem main_marks (fl : Flags) (t' : table) (o : list Emit)
    (Hint : inclusion fl < 2 ^ 63)
    (Hrun : main Sscanf fl ∅ = Ok () t' o) :
  ∀ id, leaf (t' !!! id) = false ∧ target (t' !!! id) = false
        ∧ (incPath (t' !!! id) = true
           ↔ 0 < inclusion fl
             ∧ onPath (inclusion fl) 0 (heightOf (treeSize fl)) id).
Proof.
  apply main_Ok_inv in Hrun as (nt & t1 & t2 & o' & _ & Hi & Hr & Hrt & _).
  intros id.
  pose proof (preserves_renderTree _ _ _ _ _ _
                (λ n, (leaf n, target n, incPath n)) _ _
                ltac:(done) ltac:(done) _ _ _ _ Hrt id) as H3.
  simpl in H3. injection H3 as -> -> ->.
  by apply (main_marks_before_render fl t1 t2).
Qed.

(** X5.  In the output of a run of [main] that ends normally from the empty
    table, the data of a leaf is drawn as a leaf, never as a proof node and
    never on the path, and as the target exactly when it is the target leaf;
    the hash of a leaf and an internal node are never drawn as a leaf nor as
    the target, and are drawn on the path exactly when they are on the path
    of the target leaf, the hash of a leaf only if the leaf is in no
    range. *)
Theorem main_output_styles (fl : Flags) (t' : table) (o : list Emit)
    (Hint : inclusion fl < 2 ^ 63)
    (Hrun : main Sscanf fl ∅ = Ok () t' o) :
  Forall (shownAs (inclusion fl) (heightOf (treeSize fl))) o.
Proof.
  apply main_Ok_inv in Hrun as (nt & t1 & t2 & o' & _ & Hi & Hr & Hrt & ->).
  pose proof (main_marks_before_render fl t1 t2 Hint Hi Hr) as Hinv.
  set (Inv := λ (id : NodeID) (a : nodeInfo),
         leaf a = false ∧ target a = false
         ∧ (incPath a = true
            ↔ 0 < inclusion fl
              ∧ onPath (inclusion fl) 0 (heightOf (treeSize fl)) id)).
  destruct (renderTree_styles _ _ _ _ _ _ Inv _ _ _ _ _
              ltac:(by intros x v []) ltac:(by intros x []) Hrt Hinv)
    as [Ho _].
  apply Forall_cons; split; [done|].
  apply Forall_app; split; [|by apply Forall_cons].
  eapply Forall_impl; [exact Ho|]. intros e He.
  destruct e as [| |p id tx a|p id tx a|p id tx a| | | | |]; try done; simpl in *.
  - destruct He as (a0 & (Hl & Ht & Hp) & ->).
    destruct (hashStyle_fields a0) as (E1 & E2 & E3 & E4).
    rewrite E1, E2, E3, E4, Hp. split_and!; try done.
  - destruct He as (a0 & (Hl & Ht & Hp) & ->). simpl.
    split_and!; try done.
Qed.

End MainMarks.

Lemma main_marks_witness :
  ∃ t' o,
    main (λ _, None) (mkFlags 5 "" "address" 3 4 "" "" "draw, dotted") ∅
    = Ok () t' o
    ∧ incPath (t' !!! NewNodeID 1 1) = true.
Proof.
  eexists _, _.
  match goal with
  | |- ?A = ?B ∧ _ => assert (H : A = B) by (vm_compute; reflexivity)
  end.
  split; [exact H|].
  assert (Hint : inclusion (mkFlags 5 "" "address" 3 4 "" "" "draw, dotted")
                 < 2 ^ 63) by (simpl; lia).
  apply (main_marks _ _ _ _ Hint H (NewNodeID 1 1)).
  clear H Hint. vm_compute. repeat split; congruence.
Defined.

Lemma main_output_styles_witness :
  ∃ t' o,
    main (λ _, None) (mkFlags 5 "" "address" 3 4 "" "" "draw, dotted") ∅
    = Ok () t' o
    ∧ Forall (shownAs 3 4) o.
Proof.
  eexists _, _.
  match goal with
  | |- ?A = ?B ∧ _ => assert (H : A = B) by (vm_compute; reflexivity)
  end.
  split; [exact H|].
  assert (Hint : inclusion (mkFlags 5 "" "address" 3 4 "" "" "draw, dotted")
                 < 2 ^ 63) by (simpl; lia).
  exact (main_output_styles _ _ _ _ Hint H).
Defined.

Section RootDisplay.

Variables apr aen : string.
Variables treeSize megaMode : Z.
Variables nodeText dataText : nodeTextFunc.

(** X6.  [perfect] draws the root of the subtree, and only it, as a
    perfect root: of the nodes it prints, the root (both nodes of a root
    that is a leaf) has [perfectRoot] set and every other node has it
    clear, whatever the table held.  The entry of the root is the old one
    with [perfectRoot] set, and the entries of all other nodes at or above
    the level of the root are untouched. *)
Theorem perfect_root_shown prefix id (t t' : table) (o : list Emit)
    (Hlevel : 0 ≤ Level id < 2 ^ 64)
    (Hrun : perfect apr aen treeSize megaMode nodeText dataText prefix id t
            = Ok () t' o) :
  Forall (λ e, ∀ nd a, emitNode e = Some nd → emitInfo e = Some a →
               perfectRoot a = bool_decide (nd = id)) o
  ∧ t' !!! id = set_perfectRoot true (t !!! id)
  ∧ (∀ x, Level id ≤ Level x → x ≠ id → t' !!! x = t !!! x).
Proof.
  unfold perfect in Hrun. apply perfectInner_rendered in Hrun.
  destruct (rendered_roots _ _ _ _ _ _ _ _ Hrun Hlevel) as (Ho & Hid & Hx).
  split_and!; [|done|done].
  eapply Forall_impl; [exact Ho|]. intros e He nd a Hnd Ha.
  destruct (He nd a Hnd Ha) as [[Hlt ->]|[-> ->]].
  - rewrite bool_decide_false; [done|]. intros ->. lia.
  - by rewrite bool_decide_true.
Qed.

(** X7.  The rendering keeps the marks: when [renderTree] ends normally,
    the fields [proof], [incPath], [target], [leaf], [dataRangeIndices] and
    [rangeIndices] of every entry of the table are as before; it writes
    [perfectRoot] and [ephemeral] only. *)
Theorem render_keeps_marks prefix size (t t' : table) (o : list Emit)
    (Hrun : renderTree apr aen treeSize megaMode nodeText dataText prefix
              size t = Ok () t' o) :
  ∀ id, proof (t' !!! id) = proof (t !!! id)
        ∧ incPath (t' !!! id) = incPath (t !!! id)
        ∧ target (t' !!! id) = target (t !!! id)
        ∧ leaf (t' !!! id) = leaf (t !!! id)
        ∧ dataRangeIndices (t' !!! id) = dataRangeIndices (t !!! id)
        ∧ rangeIndices (t' !!! id) = rangeIndices (t !!! id).
Proof.
  intros id.
  pose proof (preserves_renderTree apr aen treeSize megaMode nodeText dataText
                (λ n, (proof n, incPath n, target n, leaf n,
                       dataRangeIndices n, rangeIndices n)) prefix size
                ltac:(done) ltac:(done) _ _ _ _ Hrun id) as H.
  simpl in H. by injection H as -> -> -> -> -> ->.
Qed.

End RootDisplay.

Lemma perfect_root_shown_witness :
  ∃ t' o,
    perfect "" "draw, dotted" 5 4 addressFormat dataFormat "" (NewNodeID 2 0)
      ∅ = Ok () t' o
    ∧ perfectRoot (t' !!! NewNodeID 2 0) = true.
Proof.
  eexists _, _.
  match goal with
  | |- ?A = ?B ∧ _ => assert (H : A = B) by (vm_compute; reflexivity)
  end.
  split; [exact H|].
  assert (Hlevel : 0 ≤ Level (NewNodeID 2 0) < 2 ^ 64) by (simpl; lia).
  destruct (perfect_root_shown _ _ _ _ _ _ _ _ _ _ _ Hlevel H) as (_ & Hid & _).
  by rewrite Hid.
Defined.

Lemma render_keeps_marks_witness :
  ∃ t' o,
    renderTree "" "draw, dotted" 3 4 addressFormat dataFormat "" 3
      (<[NewNodeID 0 1 := set_proof true zeroInfo]> ∅) = Ok () t' o
    ∧ proof (t' !!! NewNodeID 0 1) = true.
Proof.
  eexists _, _.
  match goal with
  | |- ?A = ?B ∧ _ => assert (H : A = B) by (vm_compute; reflexivity)
  end.
  split; [exact H|].
  destruct (render_keeps_marks _ _ _ _ _ _ _ _ _ _ _ H (NewNodeID 0 1))
    as (Hp & _).
  rewrite Hp. clear. by rewrite lookup_total_insert_eq.
Defined.

(** X8.  The two marking blocks of [main] write disjoint fields: the block
    of the inclusion proof changes [proof] and [incPath] only, the block of
    the ranges changes the two lists of range indices only, on every entry
    of the table. *)
Theorem marking_blocks_disjoint (Sscanf : string → option (Z * Z))
    (incl size height : Z) (ranges_ : string) (t ti tr : table)
    (oi or : list Emit)
    (Hi : markInclusion incl size height t = Ok () ti oi)
    (Hr : markRanges Sscanf ranges_ size t = Ok () tr or) :
  ∀ id,
    (target (ti !!! id) = target (t !!! id)
     ∧ perfectRoot (ti !!! id) = perfectRoot (t !!! id)
     ∧ ephemeral (ti !!! id) = ephemeral (t !!! id)
     ∧ leaf (ti !!! id) = leaf (t !!! id)
     ∧ dataRangeIndices (ti !!! id) = dataRangeIndices (t !!! id)
     ∧ rangeIndices (ti !!! id) = rangeIndices (t !!! id))
    ∧ (proof (tr !!! id) = proof (t !!! id)
       ∧ incPath (tr !!! id) = incPath (t !!! id)
       ∧ target (tr !!! id) = target (t !!! id)
       ∧ perfectRoot (tr !!! id) = perfectRoot (t !!! id)
       ∧ ephemeral (tr !!! id) = ephemeral (t !!! id)
       ∧ leaf (tr !!! id) = leaf (t !!! id)).
Proof.
  intros id.
  pose proof (preserves_markInclusion
                (λ n, (target n, perfectRoot n, ephemeral n, leaf n,
                       dataRangeIndices n, rangeIndices n)) incl size height
                ltac:(done) ltac:(done) _ _ _ _ Hi id) as H1.
  pose proof (preserves_markRanges
                (λ n, (proof n, incPath n, target n, perfectRoot n,
                       ephemeral n, leaf n)) Sscanf ranges_ size
                ltac:(done) ltac:(done) _ _ _ _ Hr id) as H2.
  simpl in H1, H2.
  injection H1 as -> -> -> -> -> ->. by injection H2 as -> -> -> -> -> ->.
Qed.

Lemma marking_blocks_disjoint_witness :
  ∃ ti tr,
    markInclusion 2 4 3 ∅ = Ok () ti []
    ∧ markRanges (λ _, Some (1, 3)) "1:3" 4 ∅ = Ok () tr []
    ∧ rangeIndices (ti !!! NewNodeID 1 1) = []
    ∧ proof (tr !!! NewNodeID 1 1) = false.
Proof.
  eexists _, _.
  match goal with
  | |- ?A = ?B ∧ ?C = ?D ∧ _ =>
      assert (H1 : A = B) by (vm_compute; reflexivity);
      assert (H2 : C = D) by (vm_compute; reflexivity)
  end.
  split; [exact H1|]. split; [exact H2|].
  destruct (marking_blocks_disjoint _ _ _ _ _ _ _ _ _ _ H1 H2 (NewNodeID 1 1))
    as ((_ & _ & _ & _ & _ & Ha) & Hb & _).
  rewrite Ha, Hb. clear. by rewrite lookup_total_empty.
Defined.

Section RangeErrors.

Variable Sscanf : string → option (Z * Z).

Lemma parsePairs_first_error size good bad rest e : ∀ ret,
  Forall (λ p, pieceError Sscanf size p = None) good →
  pieceError Sscanf size bad = Some e →
  parsePairs Sscanf size (good ++ bad :: rest) ret = inr e.
Proof.
  induction good as [|p good IH]; intros ret Hgood Hbad; cbn [app parsePairs].
  - unfold pieceError in Hbad.
    destruct (negb (length (Split bad ":") =? 2)%nat);
      [by injection Hbad as ->|].
    destruct (Sscanf bad) as [[l r]|]; [|by injection Hbad as ->].
    destruct (size <? r); [by injection Hbad as ->|].
    destruct (r <? l); [by injection Hbad as ->|done].
  - apply Forall_cons in Hgood as [Hp Hgood]. unfold pieceError in Hp.
    destruct (negb (length (Split p ":") =? 2)%nat); [done|].
    destruct (Sscanf p) as [[l r]|]; [|done].
    destruct (size <? r); [done|]. destruct (r <? l); [done|].
    by apply IH.
Qed.

(** X10.  The errors of [parseRanges].  More than three pieces are
    rejected for their number, before any piece is looked at.  Otherwise
    the error is that of the first piece that has one, and in a piece the
    checks come in this order: not two fields around a colon, not two
    numbers, right end past the tree, left end past the right end.  The
    empty flag is one piece without a colon, and is rejected as such. *)
Theorem parseRanges_first_error (ranges : string) (size : Z) :
  let pieces := Split ranges "," in
  ((3 < length pieces)%nat →
   parseRanges Sscanf ranges size
   = inr (TooManyRanges (Z.of_nat (length pieces))))
  ∧ (∀ good bad rest e,
       (length pieces ≤ 3)%nat →
       pieces = good ++ bad :: rest →
       Forall (λ p, pieceError Sscanf size p = None) good →
       pieceError Sscanf size bad = Some e →
       parseRanges Sscanf ranges size = inr e)
  ∧ (∀ rng l r, Sscanf rng = Some (l, r) → length (Split rng ":") = 2%nat →
       size < r → r < l →
       pieceError Sscanf size rng = Some (PastEndOfTree rng))
  ∧ parseRanges Sscanf "" size = inr (InvalidRange "").
Proof.
  intros pieces. unfold parseRanges, maxRanges. fold pieces. split_and!.
  - intros Hn. by rewrite (proj2 (Z.ltb_lt 3 _)) by lia.
  - intros good bad rest e Hn Hsplit Hgood Hbad.
    rewrite (proj2 (Z.ltb_ge 3 _)) by lia. rewrite Hsplit.
    by apply parsePairs_first_error.
  - intros rng l r Hscan Hlen Hr Hl. unfold pieceError.
    rewrite Hlen, Hscan. simpl. by rewrite (proj2 (Z.ltb_lt size r)).
  - done.
Qed.

End RangeErrors.

Lemma Split_nonempty s c : Split s c ≠ [].
Proof.
  destruct s as [|a s]; [done|]. cbn [Split]. case_decide; [done|].
  by destruct (Split s c).
Qed.

Lemma Join_Split s c : Join (Split s c) (String.String c "") = s.
Proof.
  induction s as [|a s IH]; [done|]. cbn [Split].
  pose proof (Split_nonempty s c) as Hne.
  destruct (Split s c) as [|x xs]; [done|]. clear Hne.
  case_decide as Hc.
  - subst a. cbn [Join]. cbn [Join] in IH. by rewrite IH.
  - destruct xs as [|x2 xs].
    + simpl in *. by rewrite IH.
    + rewrite <- IH. reflexivity.
Qed.

Lemma Split_length s c : Z.of_nat (length (Split s c)) = 1 + countByte c s.
Proof.
  induction s as [|a s IH]; [done|]. cbn [Split countByte].
  pose proof (Split_nonempty s c) as Hne.
  case_decide as Hc.
  - cbn [length]. lia.
  - destruct (Split s c) as [|x xs]; [done|]. cbn [length] in *. lia.
Qed.

Lemma Split_no_sep s c :
  Forall (λ p, countByte c p = 0) (Split s c).
Proof.
  induction s as [|a s IH]; [by repeat constructor|]. cbn [Split].
  pose proof (Split_nonempty s c) as Hne.
  case_decide as Hc.
  - by apply Forall_cons.
  - destruct (Split s c) as [|x xs]; [done|].
    apply Forall_cons in IH as [Hx Hxs]. apply Forall_cons; split; [|done].
    cbn [countByte]. by rewrite decide_False.
Qed.

(** X11.  With [--leaf_data], the size of the tree is the number of labels,
    that is the number of commas of the flag plus one, whatever
    [--tree_size] says; the labels are the pieces between the commas, in
    order; the data node of leaf [i] gets label [i], at every level of the
    address asked for, and no leaf at or past the size has one. *)
Theorem leaf_labels (fl : Flags) (Hgiven : leafData fl ≠ "") :
  let labels := Split (leafData fl) "," in
  let size := (leafDataOverride fl).1 in
  let dataText := (leafDataOverride fl).2 in
  size = 1 + countByte "," (leafData fl)
  ∧ size = Z.of_nat (length labels)
  ∧ Join labels "," = leafData fl
  ∧ Forall (λ p, countByte "," p = 0) labels
  ∧ (∀ id, 0 ≤ Index id < size →
       is_Some (dataText id)
       ∧ dataText id = labels !! Z.to_nat (Index id))
  ∧ (∀ id, ¬ 0 ≤ Index id < size → dataText id = None).
Proof.
  intros labels size dataText. subst size dataText. unfold leafDataOverride.
  rewrite bool_decide_true by (destruct (leafData fl); [done|simpl; lia]).
  cbn [fst snd]. fold labels. split_and!.
  - apply Split_length.
  - done.
  - apply Join_Split.
  - apply Split_no_sep.
  - intros id Hid. rewrite (proj2 (Z.ltb_ge _ _)) by lia. split; [|done].
    apply lookup_lt_is_Some. lia.
  - intros id Hid. destruct (Index id <? 0) eqn:Hneg; [done|].
    apply Z.ltb_ge in Hneg. apply lookup_ge_None. lia.
Qed.

Lemma leaf_labels_witness :
  (leafDataOverride
     (mkFlags 23 "a,,c" "address" (-1) 4 "" "" "draw, dotted")).1 = 3.
Proof.
  assert (H : leafData (mkFlags 23 "a,,c" "address" (-1) 4 "" ""
                          "draw, dotted") ≠ "") by done.
  destruct (leaf_labels _ H) as (Hsize & _).
  rewrite Hsize. reflexivity.
Defined.

(** The block of the inclusion proof exits exactly when the target leaf is
    positive and not in the tree, and ends normally otherwise. *)
Lemma markInclusion_outcome incl size height (t : table) :
  1 ≤ height ≤ 65 →
  if bool_decide (0 < incl ∧ size ≤ u64 incl)
  then markInclusion incl size height t = Fatal InclusionFailed []
  else ∃ t', markInclusion incl size height t = Ok () t' [].
Proof.
  intros Hh. unfold markInclusion.
  destruct (0 <? incl) eqn:Hpos.
  2:{ apply Z.ltb_ge in Hpos. rewrite bool_decide_false by lia. by eexists. }
  apply Z.ltb_lt in Hpos.
  erewrite bind_Ok by apply modifyNodeInfo_Ok.
  set (leafID := NewNodeID 0 (u64 incl)).
  set (t1 := <[leafID := _]> t).
  destruct (proof.Inclusion (u64 incl) size) as [nodes|] eqn:Hinc.
  - rewrite bool_decide_false.
    2:{ unfold proof.Inclusion in Hinc.
        destruct (size <=? u64 incl) eqn:E; [done|]. apply Z.leb_gt in E. lia. }
    apply Inclusion_span in Hinc as [Hspan Hlen].
    destruct (markProof_spec nodes t1 Hspan Hlen) as (t2 & Hrun & _).
    erewrite bind_Ok by exact Hrun.
    destruct (markIncPath_spec (u64 incl) height ltac:(lia)
                (S (Z.to_nat height)) 0 t2 ltac:(lia) ltac:(lia))
      as (t3 & Hrun3 & _).
    rewrite Z.shiftr_0_r in Hrun3. fold leafID in Hrun3. rewrite Hrun3.
    by exists t3.
  - rewrite bool_decide_true; [done|]. split; [done|].
    unfold proof.Inclusion in Hinc.
    destruct (size <=? u64 incl) eqn:E; [|done]. by apply Z.leb_le in E.
Qed.

(** The block of the ranges exits exactly when the flag is not empty and
    [parseRanges] rejects it, and ends normally otherwise. *)
Lemma markRanges_outcome (Sscanf : string → option (Z * Z)) ranges_ size
    (t1 : table) :
  match parseRanges Sscanf ranges_ size with
  | inr re =>
      if decide (ranges_ = "")
      then markRanges Sscanf ranges_ size t1 = Ok () t1 []
      else markRanges Sscanf ranges_ size t1 = Fatal (RangeStylesFailed re) []
  | inl _ => ∃ t2, markRanges Sscanf ranges_ size t1 = Ok () t2 []
  end.
Proof.
  unfold markRanges.
  pose proof (modifyRangeNodeInfo_spec Sscanf ranges_ size t1) as [_ Hm].
  destruct ranges_ as [|c s] eqn:Hrg.
  - rewrite bool_decide_false by (simpl; lia).
    destruct (parseRanges _ _ _); [by eexists|done].
  - rewrite bool_decide_true by (simpl; lia).
    destruct (parseRanges _ _ _) as [rs|re].
    + destruct Hm as (t2 & Hm & _). exists t2.
      by erewrite bind_Ok by exact Hm.
    + rewrite decide_False by done. by erewrite bind_Ok by exact Hm.
Qed.

(** What follows the two marking blocks in [main] never exits. *)
Lemma main_tail_noFatal apr aen size megaMode nt df :
  noFatal (print Preamble;;
           renderTree apr aen size megaMode nt df "" size;;
           print Postfix).
Proof.
  apply noFatal_bind; [apply noFatal_print|intros _].
  apply noFatal_bind; [apply noFatal_renderTree|intros _].
  apply noFatal_print.
Qed.

(** X12.  The exits of [main] through [log.Fatalf], and their order.  [main]
    exits exactly when the node format is unknown; or else when
    [--inclusion] is positive and not below the size of the tree; or else
    when [--ranges] is not empty and [parseRanges] rejects it, with the
    error of [parseRanges].  Nothing has been printed then.  The size is
    that of [--leaf_data] when given.  Whatever the table holds, the
    rendering itself never exits. *)
Theorem main_exits (Sscanf : string → option (Z * Z)) (fl : Flags)
    (t : table) (e : fatal) (o : list Emit) :
  main Sscanf fl t = Fatal e o
  ↔ o = []
    ∧ match nodeFormats (nodeFormat fl) with
      | None => e = UnknownNodeFormat (nodeFormat fl)
      | Some _ =>
          let size := (leafDataOverride fl).1 in
          if bool_decide (0 < inclusion fl ∧ size ≤ u64 (inclusion fl))
          then e = InclusionFailed
          else ranges fl ≠ ""
               ∧ ∃ re, parseRanges Sscanf (ranges fl) size = inr re
                       ∧ e = RangeStylesFailed re
      end.
Proof.
  unfold main. fold (heightOf (treeSize fl)).
  destruct (nodeFormats (nodeFormat fl)) as [nt|].
  2:{ unfold Fatalf. split; [by intros [= <- <-]|by intros [-> ->]]. }
  destruct (leafDataOverride fl) as [ts df]. cbn [fst]. cbv zeta.
  pose proof (markInclusion_outcome (inclusion fl) ts
                (heightOf (treeSize fl)) t (height_range _)) as Hi.
  pose proof (λ t2 : table,
                main_tail_noFatal (attrPerfectRoot fl) (attrEphemeralNode fl)
                  ts (megaMode fl) nt df t2 e o) as Htail.
  case_bool_decide as Hc.
  { unfold mbind at 1, M_bind at 1. rewrite Hi.
    split; [by intros [= <- <-]|by intros [-> ->]]. }
  destruct Hi as [t1 Hi]. erewrite bind_Ok by exact Hi.
  pose proof (markRanges_outcome Sscanf (ranges fl) ts t1) as Hr.
  destruct (parseRanges Sscanf (ranges fl) ts) as [rs|re].
  - destruct Hr as [t2 Hr]. erewrite bind_Ok by exact Hr. simpl.
    specialize (Htail t2).
    destruct ((print Preamble;; _) t2); split; try done;
      by intros (_ & _ & re & ? & _).
  - destruct (decide (ranges fl = "")) as [Hemp|Hne].
    + erewrite bind_Ok by exact Hr. simpl. specialize (Htail t1).
      destruct ((print Preamble;; _) t1); split; try done;
        by intros (_ & ? & _).
    + unfold mbind at 1, M_bind at 1. rewrite Hr. split.
      * intros [= <- <-]. split; [done|]. split; [done|]. by exists re.
      * by intros (-> & _ & re' & [= <-] & ->).
Qed.

(** ** The roots covering a range are distinct *)

Lemma land_odd_opp y : Z.land (2 * y + 1) (- (2 * y + 1)) = 1.
Proof.
  replace (- (2 * y + 1)) with (2 * Z.lnot y + 1) by (unfold Z.lnot; lia).
  apply Z.bits_inj'. intros n Hn. rewrite Z.land_spec.
  destruct (decide (n = 0)) as [->|Hnz].
  - by rewrite !Z.testbit_odd_0.
  - assert (Hone : Z.testbit 1 n = false) by (by destruct n).
    rewrite Hone. clear Hone.
    replace n with (Z.succ (Z.pred n)) by lia.
    rewrite !Z.testbit_odd_succ by lia. rewrite Z.lnot_spec by lia.
    apply andb_negb_r.
Qed.

Lemma land_even_opp y : Z.land (2 * y) (- (2 * y)) = 2 * Z.land y (- y).
Proof.
  replace (- (2 * y)) with (2 * - y) by lia.
  apply Z.bits_inj'. intros n Hn. rewrite Z.land_spec.
  destruct (decide (n = 0)) as [->|Hnz].
  - by rewrite !Z.testbit_even_0.
  - replace n with (Z.succ (Z.pred n)) by lia.
    rewrite !Z.testbit_even_succ by lia. by rewrite Z.land_spec.
Qed.

(** The lowest set bit of a positive number. *)
Lemma lowest_bit (p : positive) :
  ∃ j m, 0 ≤ j ∧ 0 ≤ m ∧ Z.pos p = 2 ^ j * (2 * m + 1)
         ∧ Z.land (Z.pos p) (- Z.pos p) = 2 ^ j.
Proof.
  induction p as [p IH|p IH|].
  - exists 0, (Z.pos p). split_and!; [lia|lia|lia|].
    rewrite Pos2Z.inj_xI. apply land_odd_opp.
  - destruct IH as (j & m & Hj & Hm & Hp & Hl).
    exists (j + 1), m. rewrite Pos2Z.inj_xO, land_even_opp, Hl.
    rewrite Z.pow_add_r by lia. split_and!; lia.
  - exists 0, 0. by split_and!.
Qed.

Lemma lxor_lowest_bit j m :
  0 ≤ j → 0 ≤ m →
  Z.lxor (2 ^ j * (2 * m + 1)) (2 ^ j) = 2 ^ (j + 1) * m.
Proof.
  intros Hj Hm.
  assert (Hland : Z.land (2 ^ (j + 1) * m) (2 ^ j) = 0).
  { apply Z.bits_inj'. intros n Hn.
    rewrite Z.land_spec, Z.bits_0, Z.pow2_bits_eqb by lia.
    destruct (Z.eqb_spec j n) as [<-|]; [|by rewrite andb_false_r].
    rewrite Z.mul_comm, Z.mul_pow2_bits_low by lia. done. }
  replace (2 ^ j * (2 * m + 1)) with (2 ^ (j + 1) * m + 2 ^ j)
    by (rewrite Z.pow_add_r by lia; lia).
  rewrite Z.add_nocarry_lxor by done.
  by rewrite Z.lxor_assoc, Z.lxor_nilpotent, Z.lxor_0_r.
Qed.

Lemma pow2_divide_odd k j m q :
  0 ≤ j → 0 ≤ k → 2 ^ k * q = 2 ^ j * (2 * m + 1) → k ≤ j.
Proof.
  intros Hj Hk Heq. destruct (decide (k ≤ j)) as [|Hgt]; [done|]. exfalso.
  replace k with (j + 1 + (k - j - 1)) in Heq by lia.
  rewrite !Z.pow_add_r in Heq by lia.
  assert (0 < 2 ^ j) by (apply Z.pow_pos_nonneg; lia).
  change (2 ^ 1) with 2 in Heq.
  assert (2 * (2 ^ (k - j - 1) * q) = 2 * m + 1) by nia. lia.
Qed.

(** The loop over the left border: the position ends at [pos + lmask]; the
    nodes lie left of it, and their levels increase. *)
Lemma leftNodes_spec fuel : ∀ k pos lmask ids,
  0 ≤ k → (64 - k ≤ Z.of_nat fuel) →
  0 ≤ lmask → (2 ^ k | lmask) → 0 ≤ pos → pos + lmask < 2 ^ 64 →
  ∃ new, leftNodes fuel pos lmask ids = (pos + lmask, ids ++ new)
    ∧ Forall (λ id, k ≤ Level id < 64 ∧ 0 ≤ Index id
                    ∧ (Index id + 1) * 2 ^ Level id ≤ pos + lmask) new
    ∧ StronglySorted (λ a b, Level a < Level b) new.
Proof.
  induction fuel as [|fuel IH]; intros k pos lmask ids Hk Hfuel Hl Hdiv Hpos Hsum.
  - assert (lmask = 0) as ->.
    { destruct Hdiv as [q Hq].
      assert (Hbig : 2 ^ 64 ≤ 2 ^ k) by (apply Z.pow_le_mono_r; lia).
      set (P := 2 ^ k) in *. assert (HP : 0 < P) by lia.
      destruct (decide (q = 0)) as [->|Hq0]; [lia|].
      assert (1 ≤ q) by nia. assert (P ≤ q * P) by nia. lia. }
    exists []. rewrite app_nil_r, Z.add_0_r. split_and!; try done; constructor.
  - cbn [leftNodes]. destruct (lmask =? 0) eqn:Hz.
    { apply Z.eqb_eq in Hz as ->. exists [].
      rewrite app_nil_r, Z.add_0_r. split_and!; try done; constructor. }
    apply Z.eqb_neq in Hz.
    destruct lmask as [|p|p]; [done| |lia].
    destruct (lowest_bit p) as (j & m & Hj & Hm & Hp & Hland).
    unfold bits.TrailingZeros64. rewrite (proj2 (Z.eqb_neq _ 0)) by done.
    rewrite Hland, Z.log2_pow2 by done.
    assert (H2j : 0 < 2 ^ j) by (apply Z.pow_pos_nonneg; lia).
    assert (Hj64 : j < 64).
    { apply (Z.pow_lt_mono_r_iff 2); [lia|lia|]. nia. }
    assert (Hkj : k ≤ j).
    { destruct Hdiv as [q Hq]. apply (pow2_divide_odd k j m q); [done|done|].
      lia. }
    rewrite (shl64_small 1 j) by lia. rewrite Z.mul_1_l.
    rewrite (u64_small (pos + 2 ^ j)) by nia.
    pose proof (lxor_lowest_bit j m Hj Hm) as Hx. rewrite <- Hp in Hx.
    rewrite Hx. clear Hx.
    assert (Hrest : Z.pos p = 2 ^ j + 2 ^ (j + 1) * m).
    { rewrite Hp, Z.pow_add_r by lia. lia. }
    destruct (IH (j + 1) (pos + 2 ^ j) (2 ^ (j + 1) * m)
                (ids ++ [NewNodeID j (shr64 pos j)]))
      as (new & Hrun & Hall & Hsorted); [lia|lia| | |lia|lia|].
    { apply Z.mul_nonneg_nonneg; [apply Z.pow_nonneg|]; lia. }
    { by exists m; lia. }
    exists (NewNodeID j (shr64 pos j) :: new).
    replace (pos + 2 ^ j + 2 ^ (j + 1) * m) with (pos + Z.pos p) in * by lia.
    split_and!.
    + rewrite Hrun. by rewrite <- app_assoc.
    + constructor.
      * simpl. unfold shr64. rewrite (proj2 (Z.ltb_lt j 64)) by lia.
        rewrite Z.shiftr_div_pow2 by lia.
        pose proof (Z.mul_div_le pos (2 ^ j) H2j).
        assert (0 ≤ pos / 2 ^ j) by (apply Z.div_pos; lia).
        split_and!; [lia|lia|done|nia].
      * eapply Forall_impl; [exact Hall|]. simpl. intros id (? & ? & ?).
        split_and!; [lia|lia|done|done].
    + constructor; [done|].
      eapply Forall_impl; [exact Hall|]. simpl. intros id (? & _). lia.
Qed.

Lemma lnot_mod_pow2 x d : 0 ≤ d → Z.lnot x mod 2 ^ d = 2 ^ d - 1 - x mod 2 ^ d.
Proof.
  intros Hd. assert (H2 : 0 < 2 ^ d) by (apply Z.pow_pos_nonneg; lia).
  pose proof (Z.mod_pos_bound x (2 ^ d) H2).
  symmetry. apply (Z.mod_unique_pos _ _ (- (x / 2 ^ d) - 1)); [lia|].
  unfold Z.lnot. pose proof (Z.div_mod x (2 ^ d) ltac:(lia)). lia.
Qed.

(** The top bit where [x < e] differ: above it the two agree, and there
    [e] has a one and [x] a zero. *)
Lemma split_at_top_bit x e :
  0 ≤ x < e →
  let d := Z.log2 (Z.lxor x e) in
  0 ≤ d ≤ Z.log2 e ∧ e / 2 ^ d = x / 2 ^ d + 1.
Proof.
  intros Hxe d.
  assert (HX0 : 0 ≤ Z.lxor x e) by (apply Z.lxor_nonneg; lia).
  assert (HXn : Z.lxor x e ≠ 0) by (intros H%Z.lxor_eq; lia).
  pose proof (Z.log2_spec (Z.lxor x e) ltac:(lia)) as [Hlo Hhi]. fold d in Hlo, Hhi.
  pose proof (Z.log2_nonneg (Z.lxor x e)) as Hd0. fold d in Hd0.
  assert (Hdmax : d ≤ Z.log2 e).
  { pose proof (Z.log2_lxor x e ltac:(lia) ltac:(lia)) as Hm. fold d in Hm.
    pose proof (Z.log2_le_mono x e ltac:(lia)). lia. }
  split; [done|].
  assert (H2 : 0 < 2 ^ d) by (apply Z.pow_pos_nonneg; lia).
  assert (Hq : Z.lxor (x / 2 ^ d) (e / 2 ^ d) = 1).
  { rewrite <- !Z.shiftr_div_pow2, <- Z.shiftr_lxor by lia.
    rewrite Z.shiftr_div_pow2 by lia.
    rewrite Z.pow_succ_r in Hhi by lia.
    symmetry. apply (Z.div_unique_pos _ _ _ (Z.lxor x e - 2 ^ d)); lia. }
  set (hx := x / 2 ^ d) in *. set (he := e / 2 ^ d) in *.
  assert (Hle : hx ≤ he) by (apply Z.div_le_mono; lia).
  assert (Hhe : he = Z.lxor hx 1).
  { rewrite <- Hq, <- Z.lxor_assoc, Z.lxor_nilpotent. by rewrite Z.lxor_0_l. }
  pose proof (Z.div_mod hx 2 ltac:(lia)) as Hdm.
  pose proof (Z.mod_pos_bound hx 2 ltac:(lia)) as Hb.
  destruct (decide (hx mod 2 = 0)) as [Hev|Hodd].
  - rewrite Hdm, Hev, Z.add_0_r, lxor_even_1 in Hhe. lia.
  - assert (Hhx : hx = 2 * (hx / 2) + 1) by lia.
    rewrite Hhx, <- lxor_even_1, Z.lxor_assoc, Z.lxor_nilpotent,
      Z.lxor_0_r in Hhe. lia.
Qed.

(** [Decompose] for a range that does not start at 0: both masks are below
    one power of two, the left one leads from [begin] up to a multiple of
    it, and the right one from there to [end_]. *)
Lemma Decompose_spec b e :
  0 < b ≤ e → e < 2 ^ 64 →
  ∃ d lmask rmask,
    Decompose b e = (lmask, rmask)
    ∧ 0 ≤ d < 64 ∧ 0 ≤ lmask ∧ 0 ≤ rmask < 2 ^ d
    ∧ (2 ^ d | b + lmask) ∧ b + lmask + rmask = e.
Proof.
  intros Hb He. unfold Decompose.
  rewrite (proj2 (Z.eqb_neq b 0)) by lia.
  destruct (split_at_top_bit (b - 1) e ltac:(lia)) as [[Hd0 Hdmax] Hq].
  set (d := Z.log2 (Z.lxor (b - 1) e)) in *.
  assert (Hd64 : d < 64).
  { assert (Z.log2 e < 64) by (apply Z.log2_lt_pow2; lia). lia. }
  assert (HXn : Z.lxor (b - 1) e ≠ 0) by (intros H%Z.lxor_eq; lia).
  unfold bits.Len64. rewrite (proj2 (Z.eqb_neq _ 0)) by done. fold d.
  replace (d + 1 - 1) with d by lia.
  assert (H2 : 0 < 2 ^ d) by (apply Z.pow_pos_nonneg; lia).
  pose proof (pow2_le_64 d ltac:(lia)) as Hp.
  rewrite (u64_small d) by lia.
  rewrite (shl64_small 1 d) by lia. rewrite Z.mul_1_l.
  rewrite (u64_small (2 ^ d - 1)) by lia.
  replace (2 ^ d - 1) with (Z.ones d) by (rewrite Z.ones_equiv; lia).
  rewrite !Z.land_ones by lia.
  assert (Hu : u64 (Z.lnot (b - 1)) mod 2 ^ d = Z.lnot (b - 1) mod 2 ^ d).
  { unfold u64. apply Z.mod_mod_divide.
    exists (2 ^ (64 - d)). rewrite <- Z.pow_add_r by lia. f_equal. lia. }
  rewrite Hu, lnot_mod_pow2 by lia.
  pose proof (Z.mod_pos_bound (b - 1) (2 ^ d) H2) as Hbx.
  pose proof (Z.mod_pos_bound e (2 ^ d) H2) as Hbe.
  pose proof (Z.div_mod (b - 1) (2 ^ d) ltac:(lia)) as Hdx.
  pose proof (Z.div_mod e (2 ^ d) ltac:(lia)) as Hde.
  eexists d, _, _. split; [reflexivity|].
  split_and!; [lia|lia|lia|lia|lia| |lia].
  exists (e / 2 ^ d). lia.
Qed.

(** The roots that cover a range are pairwise distinct. *)
Lemma RangeNodes_NoDup b e :
  0 ≤ b ≤ e → e < 2 ^ 64 → NoDup (RangeNodes b e []).
Proof.
  intros Hb He. destruct (decide (b = 0)) as [->|Hnz].
  { destruct (RangeNodes_roots e ltac:(lia)) as (_ & _ & Hs).
    by apply sorted_levels_NoDup. }
  destruct (Decompose_spec b e ltac:(lia) He)
    as (d & lmask & rmask & Hdec & Hd & Hl & Hr & Hdiv & Hsum).
  unfold RangeNodes. rewrite Hdec.
  destruct (leftNodes_spec 64 0 b lmask [] ltac:(lia) ltac:(lia) Hl
              ltac:(apply Z.divide_1_l) ltac:(lia) ltac:(lia))
    as (lnew & Hlrun & Hlall & Hlsorted).
  rewrite Hlrun. cbv beta iota. rewrite app_nil_l.
  destruct (rightNodes_spec 64 d (b + lmask) rmask lnew
              ltac:(lia) ltac:(lia) Hr ltac:(lia) Hdiv ltac:(lia))
    as (rnew & Hrrun & Hrall & _ & Hrsorted).
  rewrite Hrrun. apply NoDup_app. split_and!.
  - clear -Hlsorted. induction Hlsorted as [|id rest Hs IH Hall];
      constructor; [|done].
    intros Hin. rewrite Forall_forall in Hall. specialize (Hall id Hin). lia.
  - intros id Hin1 Hin2.
    rewrite Forall_forall in Hlall. rewrite Forall_forall in Hrall.
    destruct (Hlall id Hin1) as (Hlv & Hix & Hleft).
    destruct (Hrall id Hin2) as (_ & Hright & _).
    assert (0 < 2 ^ Level id) by (apply Z.pow_pos_nonneg; lia). nia.
  - by apply sorted_levels_NoDup.
Qed.

(** ** The roots of the ranges *)

Lemma mark_roots_exact ri (ids : list NodeID) : ∀ (t : table),
  NoDup ids →
  ∃ t', forEach ids (λ id, modifyNodeInfo id (appendRange ri)) t = Ok () t' []
    ∧ ∀ id, rangeIndices (t' !!! id)
            = rangeIndices (t !!! id)
              ++ (if bool_decide (id ∈ ids) then [ri] else []).
Proof.
  induction ids as [|x rest IH]; intros t Hnd.
  - exists t. split; [done|]. intros id. by rewrite app_nil_r.
  - apply NoDup_cons in Hnd as [Hx Hnd]. cbn [forEach].
    destruct (IH (<[x := appendRange ri (t !!! x)]> t) Hnd)
      as (t' & Hrun & Hspec).
    exists t'. split.
    { erewrite bind_Ok by apply modifyNodeInfo_Ok. by rewrite Hrun. }
    intros id. rewrite Hspec, lookup_total_modify.
    case_decide as Hid; [subst id|].
    + rewrite (bool_decide_false (x ∈ rest)) by done.
      rewrite bool_decide_true by left.
      by rewrite app_nil_r.
    + f_equal.
      rewrite (bool_decide_ext (id ∈ x :: rest) (id ∈ rest)); [done|].
      rewrite elem_of_cons. split; [by intros [->|?]|by right].
Qed.

Lemma applyRanges_roots (rs : list (Z * Z)) : ∀ ri (t : table),
  Forall (λ lr, 0 ≤ lr.1 ≤ lr.2 ∧ lr.2 < 2 ^ 64) rs →
  ∃ t', applyRanges ri rs t = Ok () t' []
    ∧ ∀ id, rangeIndices (t' !!! id)
            = rangeIndices (t !!! id) ++ rootRangesOf ri rs id.
Proof.
  induction rs as [|[l r] rest IH]; intros ri t Hall.
  - exists t. split; [done|]. intros id. by rewrite app_nil_r.
  - apply Forall_cons in Hall as [[Hlr Hr] Hall]. simpl in Hlr, Hr.
    cbn [applyRanges rootRangesOf].
    destruct (mark_leaves ri (Z.to_nat (r - l)) l t) as (t1 & Hrun1 & Hspec1).
    destruct (mark_roots_exact ri (RangeNodes l r []) t1
                (RangeNodes_NoDup l r Hlr Hr)) as (t2 & Hrun2 & Hspec2).
    destruct (IH (ri + 1) t2 Hall) as (t3 & Hrun3 & Hspec3).
    exists t3. split.
    { assert (Hseq : seqZ l (r - l) = seqZ l (Z.of_nat (Z.to_nat (r - l)))).
      { unfold seqZ. by rewrite Nat2Z.id. }
      rewrite Hseq. erewrite bind_Ok by exact Hrun1.
      erewrite bind_Ok by exact Hrun2. by rewrite Hrun3. }
    intros id. rewrite Hspec3, Hspec2, Hspec1, <- app_assoc.
    by case_bool_decide.
Qed.

Lemma rootRangesOf_elem rs : ∀ ri id x,
  x ∈ rootRangesOf ri rs id
  ↔ ∃ k l r, rs !! k = Some (l, r) ∧ x = ri + Z.of_nat k
             ∧ id ∈ RangeNodes l r [].
Proof.
  induction rs as [|[l r] rest IH]; intros ri id x; cbn [rootRangesOf].
  - rewrite elem_of_nil. split; [done|]. intros (k & ? & ? & Hk & _).
    by rewrite lookup_nil in Hk.
  - rewrite elem_of_app, IH. split.
    + intros [Hx|(k & l' & r' & Hk & -> & Hin)].
      * case_bool_decide as Hin; [|by apply elem_of_nil in Hx].
        apply list_elem_of_singleton in Hx as ->.
        exists 0%nat, l, r. split_and!; [done|lia|done].
      * exists (S k), l', r'. split_and!; [done|lia|done].
    + intros ([|k] & l' & r' & Hk & -> & Hin).
      * injection Hk as <- <-. left. rewrite bool_decide_true by done.
        apply list_elem_of_singleton. lia.
      * right. exists k, l', r'. split_and!; [done|lia|done].
Qed.

Lemma rootRangesOf_sorted rs : ∀ ri id,
  StronglySorted Z.lt (rootRangesOf ri rs id)
  ∧ Forall (λ x, ri ≤ x) (rootRangesOf ri rs id)
  ∧ (length (rootRangesOf ri rs id) ≤ length rs)%nat.
Proof.
  induction rs as [|[l r] rest IH]; intros ri id; cbn [rootRangesOf];
    [by split_and!; constructor|].
  destruct (IH (ri + 1) id) as (Hs & Hge & Hlen).
  assert (Hge' : Forall (λ x, ri < x) (rootRangesOf (ri + 1) rest id)).
  { eapply Forall_impl; [exact Hge|]. simpl. lia. }
  case_bool_decide; cbn [app length].
  - split_and!; [by constructor| |lia].
    constructor; [lia|]. eapply Forall_impl; [exact Hge'|]. simpl. lia.
  - split_and!; [done| |lia].
    eapply Forall_impl; [exact Hge'|]. simpl. lia.
Qed.

Lemma rangesOf_length rs : ∀ ri i,
  (length (rangesOf ri rs i) ≤ length rs)%nat.
Proof.
  induction rs as [|[l r] rest IH]; intros ri i; cbn [rangesOf]; [done|].
  specialize (IH (ri + 1) i). rewrite length_app.
  destruct (_ && _); simpl; lia.
Qed.

Section RangeRoots.

Variable Sscanf : string → option (Z * Z).

(** The numbers that [Sscanf] stores are of type [uint64]. *)
Hypothesis Sscanf_unsigned : ∀ s l r, Sscanf s = Some (l, r) → 0 ≤ l.

Lemma accepted_bounds size pieces rs :
  size < 2 ^ 64 →
  Forall2 (accepted Sscanf size) pieces rs →
  Forall (λ lr, 0 ≤ lr.1 ≤ lr.2 ∧ lr.2 < 2 ^ 64) rs.
Proof.
  intros Hsize Hf. induction Hf as [|p [l r] ps rs' Hacc _ IH]; constructor;
    [|done].
  destruct Hacc as (_ & Hscan & Hlr & Hr). simpl in *.
  pose proof (Sscanf_unsigned _ _ _ Hscan). lia.
Qed.

(** X13.  The roots of the ranges.  When [parseRanges] accepts the flag,
    [modifyRangeNodeInfo] ends normally without an error and appends to
    [rangeIndices] of every node, in ascending order and once each, the
    indices [k] of the ranges [[l, r)] that have the node among the roots
    of the perfect subtrees covering them; at most three of them.  The
    roots covering one range are pairwise distinct, so no index is appended
    twice. *)
Theorem range_roots_marked (ranges : string) (size : Z) (t : table)
    (rs : list (Z * Z))
    (Hsize : size < 2 ^ 64)
    (Hparse : parseRanges Sscanf ranges size = inl rs) :
  ∃ t', modifyRangeNodeInfo Sscanf ranges size t = Ok None t' []
    ∧ ∀ id,
        rangeIndices (t' !!! id)
        = rangeIndices (t !!! id) ++ rootRangesOf 0 rs id
        ∧ StronglySorted Z.lt (rootRangesOf 0 rs id)
        ∧ (length (rootRangesOf 0 rs id) ≤ 3)%nat
        ∧ (∀ ri, ri ∈ rootRangesOf 0 rs id
                 ↔ ∃ k l r, rs !! k = Some (l, r) ∧ ri = Z.of_nat k
                            ∧ id ∈ RangeNodes l r [])
        ∧ (∀ l r, (l, r) ∈ rs → NoDup (RangeNodes l r [])).
Proof.
  unfold modifyRangeNodeInfo. rewrite Hparse.
  apply parseRanges_inl in Hparse as [Hn Hf].
  pose proof (accepted_bounds _ _ _ Hsize Hf) as Hb.
  destruct (applyRanges_roots rs 0 t Hb) as (t' & Hrun & Hspec).
  exists t'. split; [by erewrite bind_Ok by exact Hrun|].
  intros id. destruct (rootRangesOf_sorted rs 0 id) as (Hs & _ & Hlen).
  apply Forall2_length in Hf.
  split_and!; [apply Hspec|done|lia| |].
  - intros ri. rewrite rootRangesOf_elem. by setoid_rewrite Z.add_0_l.
  - intros l r Hin. rewrite Forall_forall in Hb.
    destruct (Hb _ Hin) as [Hlr Hr]. by apply RangeNodes_NoDup.
Qed.

(** With the lists of the table empty when the block of the ranges starts,
    no list holds more than three entries when it ends. *)
Lemma markRanges_okTable ranges_ size (t t2 : table) o :
  size < 2 ^ 64 →
  (∀ id, dataRangeIndices (t !!! id) = [] ∧ rangeIndices (t !!! id) = []) →
  markRanges Sscanf ranges_ size t = Ok () t2 o →
  okTable t2.
Proof.
  intros Hsize Hempty. unfold markRanges.
  assert (Hok : okTable t).
  { intros id. destruct (Hempty id) as [Hd Hr]. unfold okInfo.
    rewrite Hd, Hr. simpl. lia. }
  case_bool_decide as Hgiven; [|by intros [= <- _]].
  intros H. apply bind_Ok_inv in H as (err & t1 & o1 & o2 & Hm & H & ->).
  destruct err as [e|]; [done|]. injection H as <- _.
  unfold modifyRangeNodeInfo in Hm.
  destruct (parseRanges Sscanf ranges_ size) as [rs|e] eqn:Hparse; [|done].
  apply parseRanges_inl in Hparse as [Hn Hf].
  pose proof (accepted_bounds _ _ _ Hsize Hf) as Hb.
  apply Forall2_length in Hf.
  destruct (applyRanges_roots rs 0 t Hb) as (t' & Hrun & Hroots).
  destruct (applyRanges_spec rs 0 t) as (t'' & Hrun' & Hleaves).
  rewrite Hrun in Hrun'. injection Hrun' as <-.
  erewrite bind_Ok in Hm by exact Hrun. injection Hm as <- _.
  intros id. destruct (Hempty id) as [Hd Hr]. unfold okInfo.
  rewrite Hroots, Hleaves, Hd, Hr. cbn [app].
  destruct (rootRangesOf_sorted rs 0 id) as (_ & _ & Hlen).
  pose proof (rangesOf_length rs 0 (Index id)).
  case_bool_decide; simpl; lia.
Qed.

End RangeRoots.

Lemma range_roots_marked_witness :
  ∃ t',
    modifyRangeNodeInfo (λ _, Some (1, 3)) "1:3" 4 ∅ = Ok None t' []
    ∧ rangeIndices (t' !!! NewNodeID 0 1) = [0].
Proof.
  assert (Hu : ∀ (s : string) (l r : Z),
             (λ _ : string, Some (1, 3)) s = Some (l, r) → 0 ≤ l)
    by (intros s l r [= <- _]; lia).
  assert (Hsize : 4 < 2 ^ 64) by lia.
  assert (Hparse : parseRanges (λ _, Some (1, 3)) "1:3" 4 = inl [(1, 3)])
    by (vm_compute; reflexivity).
  destruct (range_roots_marked _ Hu "1:3" 4 ∅ [(1, 3)] Hsize Hparse)
    as (t' & Hrun & Hspec).
  exists t'. split; [exact Hrun|].
  destruct (Hspec (NewNodeID 0 1)) as (Heq & _).
  rewrite Heq. clear. rewrite lookup_total_empty. vm_compute. reflexivity.
Defined.

(** ** Runs of [main] *)

Lemma nodeFormats_total name nt :
  nodeFormats name = Some nt → ∀ id, is_Some (nt id).
Proof.
  unfold nodeFormats. repeat case_decide; [| |done]; intros [= <-] id.
  - by eexists.
  - unfold hashFormat. by destruct (1 <=? Level id); eexists.
Qed.

Lemma leafDataOverride_total fl i :
  0 ≤ i < (leafDataOverride fl).1 →
  is_Some ((leafDataOverride fl).2 (NewNodeID 0 i)).
Proof.
  unfold leafDataOverride. case_bool_decide; cbn [fst snd Index].
  - intros Hi. rewrite (proj2 (Z.ltb_ge _ _)) by lia.
    apply lookup_lt_is_Some. lia.
  - intros _. by eexists.
Qed.

(** X9.  [main] never panics.  Whatever the flags, of their Go types (an
    unsigned size below [2^64], an unsigned threshold, unsigned numbers
    from [Sscanf]), a run of [main] from the empty table either exits
    through [log.Fatalf] before printing anything, or ends normally, having
    printed the preamble, the rendering and the postfix.  No index is out
    of range in between: not in the proof nodes, not in the labels of the
    leaves, and not in the three positions of the range colours, because
    at most three ranges are accepted and the roots covering a range are
    distinct.  The data nodes printed are then the leaves of the roots
    that are not above the threshold. *)
Theorem main_never_panics (Sscanf : string → option (Z * Z)) (fl : Flags)
    (Sscanf_unsigned : ∀ s l r, Sscanf s = Some (l, r) → 0 ≤ l)
    (Hsize : 0 ≤ (leafDataOverride fl).1 < 2 ^ 64)
    (Hmega : 0 ≤ megaMode fl) :
  (∃ e, main Sscanf fl ∅ = Fatal e [])
  ∨ (∃ t' o,
       main Sscanf fl ∅ = Ok () t' (Preamble :: o ++ [Postfix])
       ∧ leafDataNodes o
         = expandedLeaves (megaMode fl)
             (RangeNodes 0 (leafDataOverride fl).1 [])).
Proof.
  unfold main. fold (heightOf (treeSize fl)).
  destruct (nodeFormats (nodeFormat fl)) as [nt|] eqn:Hfmt;
    [|left; by eexists].
  pose proof (nodeFormats_total _ _ Hfmt) as Hnt.
  pose proof (leafDataOverride_total fl) as Hdt.
  destruct (leafDataOverride fl) as [ts df]. cbn [fst snd] in *.
  pose proof (markInclusion_outcome (inclusion fl) ts
                (heightOf (treeSize fl)) ∅ (height_range _)) as Hi.
  case_bool_decide as Hc.
  { left. exists InclusionFailed. unfold mbind at 1, M_bind at 1.
    by rewrite Hi. }
  destruct Hi as [t1 Hi]. erewrite bind_Ok by exact Hi.
  assert (Hempty : ∀ id, dataRangeIndices (t1 !!! id) = []
                         ∧ rangeIndices (t1 !!! id) = []).
  { intros id.
    pose proof (preserves_markInclusion
                  (λ n, (dataRangeIndices n, rangeIndices n)) _ _ _
                  ltac:(done) ltac:(done) _ _ _ _ Hi id) as H.
    simpl in H. rewrite lookup_total_empty in H. by injection H as -> ->. }
  assert (Hr : (∃ e, markRanges Sscanf (ranges fl) ts t1 = Fatal e [])
               ∨ ∃ t2, markRanges Sscanf (ranges fl) ts t1 = Ok () t2 []).
  { pose proof (markRanges_outcome Sscanf (ranges fl) ts t1) as Hr.
    destruct (parseRanges Sscanf (ranges fl) ts) as [rs|re]; [by right|].
    destruct (decide (ranges fl = "")); [right|left]; by eexists. }
  destruct Hr as [[e Hr]|[t2 Hr]].
  { left. exists e. unfold mbind at 1, M_bind at 1. by rewrite Hr. }
  pose proof (markRanges_okTable Sscanf Sscanf_unsigned _ _ _ _ _
                (proj2 Hsize) Hempty Hr) as Hok.
  erewrite bind_Ok by exact Hr.
  destruct (renderTree_Ok (attrPerfectRoot fl) (attrEphemeralNode fl) ts
              (megaMode fl) nt df "" ts t2 Hsize Hmega Hok Hnt Hdt)
    as (t' & o & Hrun & Hleaves & _).
  right. exists t', o. split; [|done].
  erewrite bind_Ok by reflexivity. erewrite bind_Ok by exact Hrun.
  reflexivity.
Qed.

Lemma main_never_panics_witness :
  (∃ e, main (λ _, Some (1, 3))
          (mkFlags 5 "" "address" 3 4 "1:3" "" "draw, dotted") ∅ = Fatal e [])
  ∨ (∃ t' o,
       main (λ _, Some (1, 3))
         (mkFlags 5 "" "address" 3 4 "1:3" "" "draw, dotted") ∅
       = Ok () t' (Preamble :: o ++ [Postfix])
       ∧ leafDataNodes o
         = expandedLeaves 4 (RangeNodes 0 5 [])).
Proof.
  apply (main_never_panics (λ _, Some (1, 3))
           (mkFlags 5 "" "address" 3 4 "1:3" "" "draw, dotted")).
  - intros s l r [= <- _]. lia.
  - simpl. lia.
  - simpl. lia.
Defined.
